(** * The Master Recovery Manager of the coordinator (MasterRecoveryManager.cc)

    A shallow embedding of [src/MasterRecoveryManager.cc]: the manager's state
    is a record, every method and every task body is a function on that
    record, and what the manager asks of its collaborators (the log, the
    Recovery objects, the cluster broadcast) is appended to a trace of
    events.  The collaborating classes whose code is not in the sources
    (TabletMap, CoordinatorServerList, the tracker, the task queue and
    Recovery) are modelled from their description in the specification; each
    such definition says so.  start(), halt() and main() only manage the
    worker thread and are not embedded: the worker is the operation
    [OpPerformTask] of the transition system below. *)

From stdpp Require Import base numbers option list gmap fin_maps strings.

Local Open Scope N_scope.

(** ** Data *)

(** A ServerId wraps one uint64; ids are only compared, never computed with. *)
Abbreviation ServerId := N (only parsing).

Module ProtoBuf.

(** One entry of a ProtoBuf::Tablets message, with the fields the manager
    reads.  [user_data] carries the partition id of a will. *)
Record Tablet := mkTablet {
  table_id : N;
  start_key_hash : N;
  end_key_hash : N;
  server_id : N;
  user_data : N;
  ctime_log_head_id : N;
  ctime_log_head_offset : N
}.

Abbreviation Tablets := (list Tablet) (only parsing).

(** A ProtoBuf::ServerList message used as a membership update: the servers
    it reports as removed and the version it carries. *)
Record ServerList := mkServerList {
  removed : list ServerId;
  version_number : N
}.

#[global] Instance Tablet_eq_dec : EqDecision Tablet.
Proof. solve_decision. Defined.

#[global] Instance ServerList_eq_dec : EqDecision ServerList.
Proof. solve_decision. Defined.

End ProtoBuf.

(** The handle of a Recovery: the fields the manager reads through a
    [Recovery*], all of them fixed at construction. *)
Record Recovery := mkRecovery {
  recoveryId : N;
  crashedServerId : ServerId;
  will : ProtoBuf.Tablets;
  minOpenSegmentId : N
}.

#[global] Instance Recovery_eq_dec : EqDecision Recovery.
Proof. solve_decision. Defined.

Inductive LogLevel := ERROR | WARNING | NOTICE.

Inductive TabletStatus := NORMAL | RECOVERING.

#[global] Instance TabletStatus_eq_dec : EqDecision TabletStatus.
Proof. solve_decision. Defined.

(** The key of a tablet: (table_id, start_key_hash, end_key_hash). *)
Abbreviation TabletKey := (N * N * N)%type (only parsing).

(** What the Tablet Map stores under a key: owner, status and the log head
    position (segment id, offset) recorded when the owner was assigned. *)
Record Tablet := mkTabletEntry {
  serverId : ServerId;
  status : TabletStatus;
  ctime : N * N
}.

#[global] Instance Tablet_eq_dec : EqDecision Tablet.
Proof. solve_decision. Defined.

Inductive ServerChangeEvent := SERVER_ADDED | SERVER_CRASHED | SERVER_REMOVED.

#[global] Instance ServerChangeEvent_eq_dec : EqDecision ServerChangeEvent.
Proof. solve_decision. Defined.

(** Calls the manager makes on collaborators, in the order it makes them.
    A log entry keeps the format string and the numbers printed with it;
    the text printed for a %s (the rendering of a message) is left out. *)
Inductive Event :=
| LOG (level : LogLevel) (format : string) (args : list N)
| TEST_LOG (format : string) (args : list N)
| Call_modifyTablet (key : TabletKey) (owner : ServerId)
    (st : TabletStatus) (pos : N * N)
| Call_recoveryMasterFinished (recovery : Recovery)
    (recoveryMasterId : ServerId) (successful : bool)
| Call_sendMembershipUpdate (update : ProtoBuf.ServerList)
    (excludeSet : list ServerId)
| Delete_Recovery (recovery : Recovery).

(** The tasks that can sit on the manager's task queue. *)
Inductive Task :=
| ApplyTrackerChangesTask
| MaybeStartRecoveryTask
| EnqueueMasterRecoveryTask (recovery : Recovery) (minOpenSegmentId : N)
| RecoveryMasterFinishedTask (recoveryId : N) (recoveryMasterId : ServerId)
    (recoveredTablets : ProtoBuf.Tablets) (successful : bool)
| RecoveryTask (recovery : Recovery).

#[global] Instance Task_eq_dec : EqDecision Task.
Proof. solve_decision. Defined.

(** ** Collaborators *)

Module TabletMap.

(** Modelled from the spec: TabletMap.cc is not among the sources.  The map
    is a [gmap] from the key (table_id, start_key_hash, end_key_hash) to the
    entry stored under it. *)

Definition withStatus (st : TabletStatus) (e : Tablet) : Tablet :=
  mkTabletEntry (serverId e) st (ctime e).

Definition mark (sid : ServerId) (st : TabletStatus) (e : Tablet) : Tablet :=
  if decide (serverId e = sid) then withStatus st e else e.

(** Modelled from the spec: setStatusForServer marks every tablet owned by
    [sid] with [st] and returns the tablets affected. *)
Definition setStatusForServer (sid : ServerId) (st : TabletStatus)
    (tm : gmap TabletKey Tablet)
  : list (TabletKey * Tablet) * gmap TabletKey Tablet :=
  let tm' := mark sid st <$> tm in
  (map_to_list (filter (λ kv, serverId kv.2 = sid) tm'), tm').

(** Modelled from the spec: modifyTablet fails (here [None], an exception in
    the program) if the exact key is absent, and otherwise overwrites owner,
    status and log head position of that entry. *)
Definition modifyTablet (key : TabletKey) (owner : ServerId)
    (st : TabletStatus) (pos : N * N) (tm : gmap TabletKey Tablet)
  : option (gmap TabletKey Tablet) :=
  match tm !! key with
  | None => None
  | Some _ => Some (<[key := mkTabletEntry owner st pos]> tm)
  end.

End TabletMap.

Module CoordinatorServerList.

Record Entry := mkEntry {
  entry_will : ProtoBuf.Tablets;
  entry_minOpenSegmentId : N
}.

(** Modelled from the spec: CoordinatorServerList.cc is not among the
    sources.  The list maps a server id to its entry and has a version. *)
Record t := mk {
  entries : gmap ServerId Entry;
  version : N
}.

(** Modelled from the spec: remove deletes the server and adds the removal
    to the membership update under construction. *)
Definition remove (sid : ServerId) (update : ProtoBuf.ServerList) (sl : t)
  : t * ProtoBuf.ServerList :=
  (mk (delete sid (entries sl)) (version sl),
   ProtoBuf.mkServerList (ProtoBuf.removed update ++ [sid])
     (ProtoBuf.version_number update)).

(** Modelled from the spec: incrementVersion bumps the version and stamps
    the update with the new one. *)
Definition incrementVersion (update : ProtoBuf.ServerList) (sl : t)
  : t * ProtoBuf.ServerList :=
  (mk (entries sl) (version sl + 1),
   ProtoBuf.mkServerList (ProtoBuf.removed update) (version sl + 1)).

End CoordinatorServerList.

Record ServerDetails := mkServerDetails {
  details_serverId : ServerId
}.

Module RecoveryTracker.

(** Modelled from the spec: the tracker (ServerTracker<Recovery>) is not
    among the sources.  It buffers (server, event) changes in arrival order
    and has one slot per server holding the Recovery, if any, that uses the
    server as a recovery master. *)
Record t := mk {
  changes : list (ServerDetails * ServerChangeEvent);
  slots : gmap ServerId Recovery
}.

(** Modelled from the spec: getChange drains one buffered change. *)
Definition getChange (tr : t)
  : option (ServerDetails * ServerChangeEvent * t) :=
  match changes tr with
  | [] => None
  | c :: rest => Some (c, mk rest (slots tr))
  end.

End RecoveryTracker.

(** ** The manager *)

Record MasterRecoveryManager := mkMgr {
  serverList : CoordinatorServerList.t;
  tabletMap : gmap TabletKey Tablet;
  waitingRecoveries : list Recovery;          (* std::queue<Recovery*> *)
  activeRecoveries : gmap N Recovery;         (* recoveryId -> Recovery* *)
  maxActiveRecoveries : N;                    (* uint32_t *)
  taskQueue : list Task;
  tracker : RecoveryTracker.t;
  doNotStartRecoveries : bool;
  nextRecoveryId : N;
  trace : list Event
}.

(** What a call does: it returns, it lets an exception escape to its caller
    (the state reached so far stays), or it aborts the process (DIE). *)
Inductive Outcome :=
| Returns (mgr : MasterRecoveryManager)
| Throws (mgr : MasterRecoveryManager)
| Dies.

Definition stateAfter (o : Outcome) : option MasterRecoveryManager :=
  match o with
  | Returns mgr | Throws mgr => Some mgr
  | Dies => None
  end.

Section Setters.
Context (mgr : MasterRecoveryManager).

Definition set_serverList (x : CoordinatorServerList.t) :=
  mkMgr x (tabletMap mgr) (waitingRecoveries mgr) (activeRecoveries mgr)
    (maxActiveRecoveries mgr) (taskQueue mgr) (tracker mgr)
    (doNotStartRecoveries mgr) (nextRecoveryId mgr) (trace mgr).

Definition set_tabletMap (x : gmap TabletKey Tablet) :=
  mkMgr (serverList mgr) x (waitingRecoveries mgr) (activeRecoveries mgr)
    (maxActiveRecoveries mgr) (taskQueue mgr) (tracker mgr)
    (doNotStartRecoveries mgr) (nextRecoveryId mgr) (trace mgr).

Definition set_waitingRecoveries (x : list Recovery) :=
  mkMgr (serverList mgr) (tabletMap mgr) x (activeRecoveries mgr)
    (maxActiveRecoveries mgr) (taskQueue mgr) (tracker mgr)
    (doNotStartRecoveries mgr) (nextRecoveryId mgr) (trace mgr).

Definition set_activeRecoveries (x : gmap N Recovery) :=
  mkMgr (serverList mgr) (tabletMap mgr) (waitingRecoveries mgr) x
    (maxActiveRecoveries mgr) (taskQueue mgr) (tracker mgr)
    (doNotStartRecoveries mgr) (nextRecoveryId mgr) (trace mgr).

Definition set_maxActiveRecoveries (x : N) :=
  mkMgr (serverList mgr) (tabletMap mgr) (waitingRecoveries mgr)
    (activeRecoveries mgr) x (taskQueue mgr) (tracker mgr)
    (doNotStartRecoveries mgr) (nextRecoveryId mgr) (trace mgr).

Definition set_taskQueue (x : list Task) :=
  mkMgr (serverList mgr) (tabletMap mgr) (waitingRecoveries mgr)
    (activeRecoveries mgr) (maxActiveRecoveries mgr) x (tracker mgr)
    (doNotStartRecoveries mgr) (nextRecoveryId mgr) (trace mgr).

Definition set_tracker (x : RecoveryTracker.t) :=
  mkMgr (serverList mgr) (tabletMap mgr) (waitingRecoveries mgr)
    (activeRecoveries mgr) (maxActiveRecoveries mgr) (taskQueue mgr) x
    (doNotStartRecoveries mgr) (nextRecoveryId mgr) (trace mgr).

Definition set_doNotStartRecoveries (x : bool) :=
  mkMgr (serverList mgr) (tabletMap mgr) (waitingRecoveries mgr)
    (activeRecoveries mgr) (maxActiveRecoveries mgr) (taskQueue mgr)
    (tracker mgr) x (nextRecoveryId mgr) (trace mgr).

Definition set_nextRecoveryId (x : N) :=
  mkMgr (serverList mgr) (tabletMap mgr) (waitingRecoveries mgr)
    (activeRecoveries mgr) (maxActiveRecoveries mgr) (taskQueue mgr)
    (tracker mgr) (doNotStartRecoveries mgr) x (trace mgr).

Definition set_trace (x : list Event) :=
  mkMgr (serverList mgr) (tabletMap mgr) (waitingRecoveries mgr)
    (activeRecoveries mgr) (maxActiveRecoveries mgr) (taskQueue mgr)
    (tracker mgr) (doNotStartRecoveries mgr) (nextRecoveryId mgr) x.

End Setters.

(** One more event at the end of the trace. *)
Definition emit (e : Event) (mgr : MasterRecoveryManager) :=
  set_trace mgr (trace mgr ++ [e]).

(** Modelled from the spec: the task queue is not among the sources.
    Scheduling a task object that was just created appends it. *)
Definition schedule (task : Task) (mgr : MasterRecoveryManager) :=
  set_taskQueue mgr (taskQueue mgr ++ [task]).

(** Modelled from the spec: scheduling is idempotent for a task instance
    that is still on the queue; a Recovery is such a long-lived instance. *)
Definition Recovery_schedule (recovery : Recovery)
    (mgr : MasterRecoveryManager) :=
  if decide (RecoveryTask recovery ∈ taskQueue mgr) then mgr
  else schedule (RecoveryTask recovery) mgr.

(** Modelled from the spec: Recovery.cc is not among the sources.  The
    Recovery records the verdict of the recovery master (here: the call is
    put on the trace) and clears the tracker's back-pointer for it. *)
Definition Recovery_recoveryMasterFinished (recovery : Recovery)
    (recoveryMasterId : ServerId) (successful : bool)
    (mgr : MasterRecoveryManager) :=
  let mgr :=
    emit (Call_recoveryMasterFinished recovery recoveryMasterId successful)
      mgr in
  set_tracker mgr
    (RecoveryTracker.mk (RecoveryTracker.changes (tracker mgr))
       (delete recoveryMasterId (RecoveryTracker.slots (tracker mgr)))).

(** Modelled from the spec: the Recovery constructor assigns a recovery id
    that was never used before. *)
Definition Recovery_new (crashedServerId : ServerId)
    (will : ProtoBuf.Tablets) (minOpenSegmentId : N)
    (mgr : MasterRecoveryManager) : Recovery * MasterRecoveryManager :=
  (mkRecovery (nextRecoveryId mgr) crashedServerId will minOpenSegmentId,
   set_nextRecoveryId mgr (nextRecoveryId mgr + 1)).

(** The constructor: nothing waiting, nothing active, one recovery at a
    time, an idle queue. *)
Definition MasterRecoveryManager_new (serverList : CoordinatorServerList.t)
    (tabletMap : gmap TabletKey Tablet) : MasterRecoveryManager :=
  mkMgr serverList tabletMap [] ∅ 1 []
    (RecoveryTracker.mk [] ∅) false 0 [].

(** ** Methods and tasks *)

(** destroyAndFreeRecovery (lines 160-172). *)
Definition destroyAndFreeRecovery (recovery : Recovery)
    (mgr : MasterRecoveryManager) : MasterRecoveryManager :=
  let mgr :=
    set_activeRecoveries mgr
      (delete (recoveryId recovery) (activeRecoveries mgr)) in
  let mgr :=
    emit (LOG NOTICE
            "Recovery of server %lu done (now %lu active recoveries)"
            [crashedServerId recovery;
             N.of_nat (size (activeRecoveries mgr))]) mgr in
  emit (Delete_Recovery recovery) mgr.

Module ApplyTrackerChangesTask.

(** The constructor schedules the task (line 114). *)
Definition new (mgr : MasterRecoveryManager) : MasterRecoveryManager :=
  schedule ApplyTrackerChangesTask mgr.

Definition isCrashedOrRemoved (event : ServerChangeEvent) : bool :=
  bool_decide (event = SERVER_CRASHED ∨ event = SERVER_REMOVED).

(** The while loop of performTask (lines 121-130).  [pending] is the
    tracker's buffer; each round takes its first change, as getChange does. *)
Fixpoint drain (pending : list (ServerDetails * ServerChangeEvent))
    (mgr : MasterRecoveryManager) : MasterRecoveryManager :=
  match pending with
  | [] => mgr
  | (server, event) :: rest =>
      let mgr :=
        set_tracker mgr
          (RecoveryTracker.mk rest (RecoveryTracker.slots (tracker mgr))) in
      if isCrashedOrRemoved event then
        match RecoveryTracker.slots (tracker mgr) !! details_serverId server
        with
        | None => mgr
        | Some recovery =>
            drain rest
              (Recovery_recoveryMasterFinished recovery
                 (details_serverId server) false mgr)
        end
      else drain rest mgr
  end.

Definition performTask (mgr : MasterRecoveryManager)
  : MasterRecoveryManager :=
  drain (RecoveryTracker.changes (tracker mgr)) mgr.

End ApplyTrackerChangesTask.

(** trackerChangesEnqueued (lines 143-147): the constructor has already put
    the new task on the queue, so the second schedule() changes nothing. *)
Definition trackerChangesEnqueued (mgr : MasterRecoveryManager)
  : MasterRecoveryManager :=
  ApplyTrackerChangesTask.new mgr.

Module MaybeStartRecoveryTask.

(** The foreach over activeRecoveries (lines 211-218). *)
Definition serverAlreadyRecovering (recovery : Recovery)
    (mgr : MasterRecoveryManager) : bool :=
  existsb
    (λ other : N * Recovery,
       bool_decide (crashedServerId other.2 = crashedServerId recovery))
    (map_to_list (activeRecoveries mgr)).

(** The while loop of performTask (lines 203-234).  [waiting] is
    mgr.waitingRecoveries; each round pops its front. *)
Fixpoint admissionLoop (waiting : list Recovery) (alreadyActive : list Recovery)
    (mgr : MasterRecoveryManager)
  : list Recovery * MasterRecoveryManager :=
  match waiting with
  | [] => (alreadyActive, mgr)
  | recovery :: rest =>
      if N.of_nat (size (activeRecoveries mgr)) <? maxActiveRecoveries mgr
      then
        if serverAlreadyRecovering recovery mgr then
          let mgr := set_waitingRecoveries mgr rest in
          let mgr :=
            emit (LOG NOTICE
                    ("Delaying start of recovery of server %lu; " +:+
                     "another recovery is active for the same ServerId")
                    [crashedServerId recovery]) mgr in
          admissionLoop rest (alreadyActive ++ [recovery]) mgr
        else
          let mgr := Recovery_schedule recovery mgr in
          let mgr :=
            set_activeRecoveries mgr
              (<[recoveryId recovery := recovery]> (activeRecoveries mgr)) in
          let mgr := set_waitingRecoveries mgr rest in
          let mgr :=
            emit (LOG NOTICE
                    ("Starting recovery of server %lu (now %lu active " +:+
                     "recoveries)")
                    [crashedServerId recovery;
                     N.of_nat (size (activeRecoveries mgr))]) mgr in
          admissionLoop rest alreadyActive mgr
      else (alreadyActive, mgr)
  end.

Definition performTask (mgr : MasterRecoveryManager)
  : MasterRecoveryManager :=
  let '(alreadyActive, mgr) := admissionLoop (waitingRecoveries mgr) [] mgr in
  let mgr :=
    set_waitingRecoveries mgr (waitingRecoveries mgr ++ alreadyActive) in
  if 0 <? N.of_nat (length (waitingRecoveries mgr)) then
    emit (LOG NOTICE "%lu recoveries blocked waiting for other recoveries"
            [N.of_nat (length (waitingRecoveries mgr))]) mgr
  else mgr.

End MaybeStartRecoveryTask.

Module EnqueueMasterRecoveryTask.

(** The constructor (lines 276-287) builds the Recovery. *)
Definition new (crashedServerId : ServerId) (will : ProtoBuf.Tablets)
    (minOpenSegmentId : N) (mgr : MasterRecoveryManager)
  : Task * MasterRecoveryManager :=
  let '(recovery, mgr) :=
    Recovery_new crashedServerId will minOpenSegmentId mgr in
  (EnqueueMasterRecoveryTask recovery minOpenSegmentId, mgr).

(** performTask (lines 294-299). *)
Definition performTask (recovery : Recovery) (mgr : MasterRecoveryManager)
  : MasterRecoveryManager :=
  let mgr :=
    set_waitingRecoveries mgr (waitingRecoveries mgr ++ [recovery]) in
  schedule MaybeStartRecoveryTask mgr.

End EnqueueMasterRecoveryTask.

Module RecoveryMasterFinishedTask.

(** The foreach over recoveredTablets (lines 369-393): one modifyTablet per
    entry; [None] when modifyTablet throws, which the catch turns into
    DIE. *)
Fixpoint updateTablets (recoveredTablets : ProtoBuf.Tablets)
    (mgr : MasterRecoveryManager) : option MasterRecoveryManager :=
  match recoveredTablets with
  | [] => Some mgr
  | tablet :: rest =>
      let key :=
        (ProtoBuf.table_id tablet, ProtoBuf.start_key_hash tablet,
         ProtoBuf.end_key_hash tablet) in
      let pos :=
        (ProtoBuf.ctime_log_head_id tablet,
         ProtoBuf.ctime_log_head_offset tablet) in
      let mgr :=
        emit (Call_modifyTablet key (ProtoBuf.server_id tablet) NORMAL pos)
          mgr in
      match
        TabletMap.modifyTablet key (ProtoBuf.server_id tablet) NORMAL pos
          (tabletMap mgr)
      with
      | None => None
      | Some tm => updateTablets rest (set_tabletMap mgr tm)
      end
  end.

(** performTask (lines 356-401). *)
Definition performTask (recoveryId : N) (recoveryMasterId : ServerId)
    (recoveredTablets : ProtoBuf.Tablets) (successful : bool)
    (mgr : MasterRecoveryManager) : Outcome :=
  match activeRecoveries mgr !! recoveryId with
  | None =>
      Returns
        (emit (LOG ERROR
                 ("Recovery master reported completing recovery " +:+
                  "%lu but there is no ongoing recovery with that id; " +:+
                  "this should never happen in RAMCloud")
                 [recoveryId]) mgr)
  | Some recovery =>
      let finish mgr :=
        Returns
          (Recovery_recoveryMasterFinished recovery recoveryMasterId
             successful mgr) in
      if successful then
        match updateTablets recoveredTablets mgr with
        | None => Dies
        | Some mgr => finish mgr
        end
      else
        finish
          (emit (LOG WARNING
                   "A recovery master failed to recover its partition" [])
             mgr)
  end.

End RecoveryMasterFinishedTask.

(** recoveryFinished (lines 430-462).  [wasCompletelySuccessful] is what
    recovery->wasCompletelySuccessful() answers; Recovery.cc is not among
    the sources, so the answer is a parameter. *)
Definition recoveryFinished (recovery : Recovery)
    (wasCompletelySuccessful : bool) (mgr : MasterRecoveryManager)
  : MasterRecoveryManager :=
  let mgr :=
    emit (LOG NOTICE "Recovery completed for master %lu"
            [crashedServerId recovery]) mgr in
  if wasCompletelySuccessful then
    let update := ProtoBuf.mkServerList [] 0 in
    let '(sl, update) :=
      CoordinatorServerList.remove (crashedServerId recovery) update
        (serverList mgr) in
    let '(sl, update) := CoordinatorServerList.incrementVersion update sl in
    let mgr := set_serverList mgr sl in
    let mgr := emit (Call_sendMembershipUpdate update []) mgr in
    schedule MaybeStartRecoveryTask mgr
  else
    let mgr :=
      emit (LOG NOTICE
              ("Recovery of server %lu failed to recover some " +:+
               "tablets, rescheduling another recovery")
              [crashedServerId recovery]) mgr in
    let '(task, mgr) :=
      EnqueueMasterRecoveryTask.new (crashedServerId recovery)
        (will recovery) (minOpenSegmentId recovery) mgr in
    schedule task mgr.

(** recoveryMasterFinished (lines 488-503). *)
Definition recoveryMasterFinished (recoveryId : N)
    (recoveryMasterId : ServerId) (recoveredTablets : ProtoBuf.Tablets)
    (successful : bool) (mgr : MasterRecoveryManager)
  : MasterRecoveryManager :=
  let mgr :=
    emit (LOG NOTICE "called by masterId %lu with %u tablets"
            [recoveryMasterId; N.of_nat (length recoveredTablets)]) mgr in
  let mgr := emit (TEST_LOG "Recovered tablets" []) mgr in
  let mgr := emit (TEST_LOG "%s" []) mgr in
  schedule
    (RecoveryMasterFinishedTask recoveryId recoveryMasterId recoveredTablets
       successful) mgr.

(** restartMasterRecovery (lines 538-553).  Modelled from the spec:
    indexing the server list yields the entry of the server; the id must be
    in the list, and the lookup throws when it is not. *)
Definition restartMasterRecovery (crashedServerId : ServerId)
    (mgr : MasterRecoveryManager) : Outcome :=
  match CoordinatorServerList.entries (serverList mgr) !! crashedServerId with
  | None => Throws mgr
  | Some server =>
      let mgr :=
        emit (LOG NOTICE "Scheduling recovery of master %lu"
                [crashedServerId]) mgr in
      if doNotStartRecoveries mgr then
        let mgr :=
          emit (TEST_LOG "Recovery crashedServerId: %lu" [crashedServerId])
            mgr in
        Returns (emit (TEST_LOG "Recovery will: %s" []) mgr)
      else
        let '(task, mgr) :=
          EnqueueMasterRecoveryTask.new crashedServerId
            (CoordinatorServerList.entry_will server)
            (CoordinatorServerList.entry_minOpenSegmentId server) mgr in
        Returns (schedule task mgr)
  end.

(** startMasterRecovery (lines 88-99). *)
Definition startMasterRecovery (crashedServerId : ServerId)
    (mgr : MasterRecoveryManager) : Outcome :=
  let '(tablets, tm) :=
    TabletMap.setStatusForServer crashedServerId RECOVERING (tabletMap mgr) in
  let mgr := set_tabletMap mgr tm in
  if bool_decide (tablets = []) then
    Returns
      (emit (LOG NOTICE "Server %lu crashed, but it had no tablets"
               [crashedServerId]) mgr)
  else restartMasterRecovery crashedServerId mgr.

(** ** The manager as a transition system *)

(** What the worker does with the task it took off the queue.  The body of a
    Recovery's own task is not among the sources; what it can do to the
    manager (the callbacks below) is a separate operation. *)
Definition performTask (task : Task) (mgr : MasterRecoveryManager)
  : Outcome :=
  match task with
  | ApplyTrackerChangesTask =>
      Returns (ApplyTrackerChangesTask.performTask mgr)
  | MaybeStartRecoveryTask =>
      Returns (MaybeStartRecoveryTask.performTask mgr)
  | EnqueueMasterRecoveryTask recovery _ =>
      Returns (EnqueueMasterRecoveryTask.performTask recovery mgr)
  | RecoveryMasterFinishedTask recoveryId recoveryMasterId recoveredTablets
      successful =>
      RecoveryMasterFinishedTask.performTask recoveryId recoveryMasterId
        recoveredTablets successful mgr
  | RecoveryTask _ => Returns mgr
  end.

(** Everything that can happen to a manager: calls from the coordinator and
    from RPC handlers, a change pushed by the server list, the worker
    running the next task, and what a Recovery does to the manager from its
    own task. *)
Inductive Operation :=
| OpStartMasterRecovery (crashedServerId : ServerId)
| OpRecoveryMasterFinished (recoveryId : N) (recoveryMasterId : ServerId)
    (recoveredTablets : ProtoBuf.Tablets) (successful : bool)
| OpTrackerChange (server : ServerDetails) (event : ServerChangeEvent)
| OpPerformTask
| OpRecoveryFinished (recovery : Recovery) (wasCompletelySuccessful : bool)
| OpDestroyAndFreeRecovery (recovery : Recovery)
| OpRecoverySchedule (recovery : Recovery)
| OpRecoveryClaims (recovery : Recovery) (recoveryMasterId : ServerId).

Definition exec (op : Operation) (mgr : MasterRecoveryManager) : Outcome :=
  match op with
  | OpStartMasterRecovery crashedServerId =>
      startMasterRecovery crashedServerId mgr
  | OpRecoveryMasterFinished recoveryId recoveryMasterId recoveredTablets
      successful =>
      Returns
        (recoveryMasterFinished recoveryId recoveryMasterId recoveredTablets
           successful mgr)
  | OpTrackerChange server event =>
      let tr := tracker mgr in
      Returns
        (trackerChangesEnqueued
           (set_tracker mgr
              (RecoveryTracker.mk
                 (RecoveryTracker.changes tr ++ [(server, event)])
                 (RecoveryTracker.slots tr))))
  | OpPerformTask =>
      match taskQueue mgr with
      | [] => Returns mgr
      | task :: rest => performTask task (set_taskQueue mgr rest)
      end
  | OpRecoveryFinished recovery wasCompletelySuccessful =>
      Returns (recoveryFinished recovery wasCompletelySuccessful mgr)
  | OpDestroyAndFreeRecovery recovery =>
      Returns (destroyAndFreeRecovery recovery mgr)
  | OpRecoverySchedule recovery => Returns (Recovery_schedule recovery mgr)
  | OpRecoveryClaims recovery recoveryMasterId =>
      let tr := tracker mgr in
      Returns
        (set_tracker mgr
           (RecoveryTracker.mk (RecoveryTracker.changes tr)
              (<[recoveryMasterId := recovery]> (RecoveryTracker.slots tr))))
  end.

(** The states a manager can be in between two operations, started from
    [init]. *)
Inductive reachable (init : MasterRecoveryManager)
  : MasterRecoveryManager → Prop :=
| reachable_init : reachable init init
| reachable_step mgr op mgr' :
    reachable init mgr →
    stateAfter (exec op mgr) = Some mgr' →
    reachable init mgr'.

(** A freshly constructed manager whose cap was then set to [cap]. *)
Definition configured (cap : N) (serverList : CoordinatorServerList.t)
    (tabletMap : gmap TabletKey Tablet) : MasterRecoveryManager :=
  set_maxActiveRecoveries (MasterRecoveryManager_new serverList tabletMap) cap.

(** ** Predicates the properties are stated with *)

(** I1: no two entries of the active set are for the same crashed server. *)
Definition uniqueCrashedServer (active : gmap N Recovery) : Prop :=
  ∀ k1 k2 r1 r2,
    active !! k1 = Some r1 → active !! k2 = Some r2 →
    crashedServerId r1 = crashedServerId r2 → k1 = k2.

(** Some active recovery is for the crashed server of [recovery]. *)
Definition matchesActive (active : gmap N Recovery) (recovery : Recovery)
  : Prop :=
  ∃ k other,
    active !! k = Some other ∧
    crashedServerId other = crashedServerId recovery.

(** Recovery ids are unique: no two waiting recoveries share one, and none
    of them is the key of an active recovery. *)
Definition uniqueRecoveryIds (mgr : MasterRecoveryManager) : Prop :=
  NoDup (recoveryId <$> waitingRecoveries mgr) ∧
  ∀ r, r ∈ waitingRecoveries mgr →
       activeRecoveries mgr !! recoveryId r = None.

Definition keyOf (tablet : ProtoBuf.Tablet) : TabletKey :=
  (ProtoBuf.table_id tablet, ProtoBuf.start_key_hash tablet,
   ProtoBuf.end_key_hash tablet).

Definition finalized (tablet : ProtoBuf.Tablet) : Tablet :=
  mkTabletEntry (ProtoBuf.server_id tablet) NORMAL
    (ProtoBuf.ctime_log_head_id tablet,
     ProtoBuf.ctime_log_head_offset tablet).

Definition modifyCall (tablet : ProtoBuf.Tablet) : Event :=
  Call_modifyTablet (keyOf tablet) (ProtoBuf.server_id tablet) NORMAL
    (ProtoBuf.ctime_log_head_id tablet,
     ProtoBuf.ctime_log_head_offset tablet).

(** The frame of a task that touches only the tracker and the trace. *)
Definition sameButTrackerAndTrace (mgr mgr' : MasterRecoveryManager) : Prop :=
  serverList mgr' = serverList mgr ∧
  tabletMap mgr' = tabletMap mgr ∧
  waitingRecoveries mgr' = waitingRecoveries mgr ∧
  activeRecoveries mgr' = activeRecoveries mgr ∧
  maxActiveRecoveries mgr' = maxActiveRecoveries mgr ∧
  taskQueue mgr' = taskQueue mgr ∧
  doNotStartRecoveries mgr' = doNotStartRecoveries mgr ∧
  nextRecoveryId mgr' = nextRecoveryId mgr.

(** The Tablet Map after one modifyTablet per entry, first entry first. *)
Fixpoint finalizeAll (tablets : ProtoBuf.Tablets)
    (tm : gmap TabletKey Tablet) : gmap TabletKey Tablet :=
  match tablets with
  | [] => tm
  | tablet :: rest =>
      finalizeAll rest (<[keyOf tablet := finalized tablet]> tm)
  end.

(** The servers of the crashed/removed events of a run of changes. *)
Fixpoint failures (changes : list (ServerDetails * ServerChangeEvent))
  : list ServerId :=
  match changes with
  | [] => []
  | (server, event) :: rest =>
      if ApplyTrackerChangesTask.isCrashedOrRemoved event
      then details_serverId server :: failures rest
      else failures rest
  end.

(** The calls recovery->recoveryMasterFinished(serverId, false) owed for a
    run of changes: one per crashed/removed event, on the Recovery in the
    slot of its server. *)
Fixpoint reports (slots : gmap ServerId Recovery)
    (changes : list (ServerDetails * ServerChangeEvent)) : list Event :=
  match changes with
  | [] => []
  | (server, event) :: rest =>
      if ApplyTrackerChangesTask.isCrashedOrRemoved event then
        match slots !! details_serverId server with
        | Some recovery =>
            Call_recoveryMasterFinished recovery (details_serverId server)
              false :: reports slots rest
        | None => reports slots rest
        end
      else reports slots rest
  end.

(** A crashed/removed event that finds no Recovery in the slot of its
    server, given the servers whose slot the drain has cleared before. *)
Definition unclaimed (slots : gmap ServerId Recovery)
    (cleared : list ServerId) (change : ServerDetails * ServerChangeEvent)
  : Prop :=
  ApplyTrackerChangesTask.isCrashedOrRemoved change.2 = true ∧
  (slots !! details_serverId change.1 = None ∨
   details_serverId change.1 ∈ cleared).

(** A recovery is blocked when it is considered: some recovery that was
    active when the task began, or one the task started from those ahead
    of it ([pre]), is for the same crashed server. *)
Definition blockedAt (active : gmap N Recovery)
    (started pre : list Recovery) (recovery : Recovery) : Prop :=
  matchesActive active recovery ∨
  ∃ other, other ∈ pre ∧ other ∈ started ∧
           crashedServerId other = crashedServerId recovery.

#[global] Instance matchesActive_dec active recovery :
  Decision (matchesActive active recovery).
Proof.
  refine (cast_if
    (decide (map_Exists
       (λ _ other, crashedServerId other = crashedServerId recovery)
       active))); abstract (unfold matchesActive, map_Exists in *; done).
Defined.

#[global] Instance blockedAt_dec active started pre recovery :
  Decision (blockedAt active started pre recovery).
Proof.
  refine (cast_if
    (decide (matchesActive active recovery ∨
             Exists (λ other, other ∈ started ∧
                       crashedServerId other = crashedServerId recovery)
               pre)));
    abstract (unfold blockedAt; rewrite Exists_exists in *; naive_solver).
Defined.

(** One round of the admission loop that defers [recovery]. *)
Definition deferStep (recovery : Recovery) (rest : list Recovery)
    (mgr : MasterRecoveryManager) : MasterRecoveryManager :=
  emit (LOG NOTICE
          ("Delaying start of recovery of server %lu; " +:+
           "another recovery is active for the same ServerId")
          [crashedServerId recovery])
    (set_waitingRecoveries mgr rest).

(** One round of the admission loop that starts [recovery]. *)
Definition startStep (recovery : Recovery) (rest : list Recovery)
    (mgr : MasterRecoveryManager) : MasterRecoveryManager :=
  let mgr := Recovery_schedule recovery mgr in
  let mgr :=
    set_activeRecoveries mgr
      (<[recoveryId recovery := recovery]> (activeRecoveries mgr)) in
  let mgr := set_waitingRecoveries mgr rest in
  emit (LOG NOTICE
          ("Starting recovery of server %lu (now %lu active " +:+
           "recoveries)")
          [crashedServerId recovery;
           N.of_nat (size (activeRecoveries mgr))]) mgr.

(** The recoveries that tasks on the queue are about to put on the waiting
    queue. *)
Definition enqueued (queue : list Task) : list Recovery :=
  omap (λ task,
          match task with
          | EnqueueMasterRecoveryTask recovery _ => Some recovery
          | _ => None
          end) queue.

(** The recoveries that are not active yet: waiting, or on their way to
    the waiting queue. *)
Definition pendingRecoveries (mgr : MasterRecoveryManager) : list Recovery :=
  waitingRecoveries mgr ++ enqueued (taskQueue mgr).

(** Every recovery the manager holds has an id of its own, below the next
    id to be handed out, and is filed in the active set under its id. *)
Definition wellFormed (mgr : MasterRecoveryManager) : Prop :=
  NoDup (recoveryId <$> pendingRecoveries mgr) ∧
  (∀ r, r ∈ pendingRecoveries mgr →
        activeRecoveries mgr !! recoveryId r = None ∧
        recoveryId r < nextRecoveryId mgr) ∧
  (∀ k r, activeRecoveries mgr !! k = Some r →
          recoveryId r = k ∧ k < nextRecoveryId mgr).

(** The admission task is the next one the worker runs. *)
Definition admissionIsNext (mgr : MasterRecoveryManager) : Prop :=
  ∃ rest, taskQueue mgr = MaybeStartRecoveryTask :: rest.

(** What one operation does to the recoveries the manager holds. *)
Inductive Effect (op : Operation) (mgr mgr' : MasterRecoveryManager)
  : Prop :=
| effect_none :
    waitingRecoveries mgr' = waitingRecoveries mgr →
    enqueued (taskQueue mgr') = enqueued (taskQueue mgr) →
    activeRecoveries mgr' = activeRecoveries mgr →
    nextRecoveryId mgr' = nextRecoveryId mgr →
    Effect op mgr mgr'
| effect_new crashed will minOpen :
    waitingRecoveries mgr' = waitingRecoveries mgr →
    enqueued (taskQueue mgr') =
      enqueued (taskQueue mgr) ++
      [mkRecovery (nextRecoveryId mgr) crashed will minOpen] →
    activeRecoveries mgr' = activeRecoveries mgr →
    nextRecoveryId mgr' = nextRecoveryId mgr + 1 →
    Effect op mgr mgr'
| effect_enqueue recovery minOpen rest :
    op = OpPerformTask →
    taskQueue mgr = EnqueueMasterRecoveryTask recovery minOpen :: rest →
    waitingRecoveries mgr' = waitingRecoveries mgr ++ [recovery] →
    enqueued (taskQueue mgr') = enqueued rest →
    activeRecoveries mgr' = activeRecoveries mgr →
    nextRecoveryId mgr' = nextRecoveryId mgr →
    Effect op mgr mgr'
| effect_destroy recovery :
    op = OpDestroyAndFreeRecovery recovery →
    waitingRecoveries mgr' = waitingRecoveries mgr →
    enqueued (taskQueue mgr') = enqueued (taskQueue mgr) →
    activeRecoveries mgr' =
      delete (recoveryId recovery) (activeRecoveries mgr) →
    nextRecoveryId mgr' = nextRecoveryId mgr →
    Effect op mgr mgr'
| effect_admission rest :
    op = OpPerformTask →
    taskQueue mgr = MaybeStartRecoveryTask :: rest →
    mgr' = MaybeStartRecoveryTask.performTask (set_taskQueue mgr rest) →
    Effect op mgr mgr'.

(** A sequence of operations, one after the other; [None] once the process
    has died. *)
Fixpoint run (ops : list Operation) (mgr : MasterRecoveryManager)
  : option MasterRecoveryManager :=
  match ops with
  | [] => Some mgr
  | op :: rest =>
      match stateAfter (exec op mgr) with
      | Some mgr' => run rest mgr'
      | None => None
      end
  end.

(** The longest front run of buffered changes that the drain gets through:
    it ends before the first crashed/removed event whose slot is empty or
    was cleared by an earlier event of the run. *)
Fixpoint claimedPrefix (slots : gmap ServerId Recovery)
    (cleared : list ServerId)
    (changes : list (ServerDetails * ServerChangeEvent))
  : list (ServerDetails * ServerChangeEvent) :=
  match changes with
  | [] => []
  | (server, event) :: rest =>
      if ApplyTrackerChangesTask.isCrashedOrRemoved event then
        if decide (is_Some (slots !! details_serverId server) ∧
                   details_serverId server ∉ cleared)
        then (server, event)
               :: claimedPrefix slots (details_serverId server :: cleared)
                    rest
        else []
      else (server, event) :: claimedPrefix slots cleared rest
  end.

(** ** Concrete runs *)

Definition r1 : Recovery := mkRecovery 0 7 [] 3.
Definition r2 : Recovery := mkRecovery 1 7 [] 3.
Definition r3 : Recovery := mkRecovery 2 9 [] 0.

(** Three recoveries waiting, two of them for server 7; room for two. *)
Definition mgr0 : MasterRecoveryManager :=
  mkMgr (CoordinatorServerList.mk ∅ 0) ∅ [r1; r2; r3] ∅ 2 []
    (RecoveryTracker.mk [] ∅) false 3 [].

(** Server 7 owns two tablets of table 1, server 9 one of table 2. *)
Definition tablets0 : gmap TabletKey Tablet :=
  <[(1, 0, 10) := mkTabletEntry 7 NORMAL (0, 0)]>
    (<[(1, 11, 20) := mkTabletEntry 7 NORMAL (0, 0)]>
       (<[(2, 0, 99) := mkTabletEntry 9 NORMAL (4, 4)]> ∅)).

Definition servers0 : CoordinatorServerList.t :=
  CoordinatorServerList.mk
    (<[7 := CoordinatorServerList.mkEntry [] 3]> ∅) 12.

(** Recovery r1 is active and uses server 5 as a recovery master; a second
    recovery for the same crashed server waits. *)
Definition mgr1 : MasterRecoveryManager :=
  mkMgr servers0 tablets0 [r2] (<[0 := r1]> ∅) 2 []
    (RecoveryTracker.mk
       [(mkServerDetails 5, SERVER_CRASHED);
        (mkServerDetails 6, SERVER_ADDED);
        (mkServerDetails 8, SERVER_REMOVED);
        (mkServerDetails 5, SERVER_CRASHED)]
       (<[5 := r1]> ∅))
    true 2 [].

(** What recovery master 5 reports for the two tablets of server 7. *)
Definition recovered0 : ProtoBuf.Tablets :=
  [ProtoBuf.mkTablet 1 0 10 5 0 2 3; ProtoBuf.mkTablet 1 11 20 5 0 2 3].

(** Server 7 crashes; the worker enqueues and then starts its recovery. *)
Definition scenario : MasterRecoveryManager :=
  let init := configured 2 servers0 tablets0 in
  default init
    (run [OpStartMasterRecovery 7; OpPerformTask; OpPerformTask] init).

(** Servers 7 and 9 are both in the server list. *)
Definition servers1 : CoordinatorServerList.t :=
  CoordinatorServerList.mk
    (<[7 := CoordinatorServerList.mkEntry [] 3]>
       (<[9 := CoordinatorServerList.mkEntry [] 0]> ∅)) 12.

(** ** Further notions the properties are stated with *)

(** The number of recoveries that can still be started. *)
Definition freeSlots (mgr : MasterRecoveryManager) : nat :=
  (N.to_nat (maxActiveRecoveries mgr) - size (activeRecoveries mgr))%nat.

(** The manager with another buffer of changes in its tracker. *)
Definition withChanges (mgr : MasterRecoveryManager)
    (changes : list (ServerDetails * ServerChangeEvent))
  : MasterRecoveryManager :=
  set_tracker mgr
    (RecoveryTracker.mk changes (RecoveryTracker.slots (tracker mgr))).

(** The crashed and removed events of a buffer, in order. *)
Definition withoutAdded (changes : list (ServerDetails * ServerChangeEvent))
  : list (ServerDetails * ServerChangeEvent) :=
  filter (λ change, ApplyTrackerChangesTask.isCrashedOrRemoved change.2 = true)
    changes.

(** [mgr1] with room for one recovery only: the active set is full. *)
Definition mgrFull : MasterRecoveryManager := set_maxActiveRecoveries mgr1 1.

(** Recoveries for the servers 7 and 9 wait, nothing is active, and there is
    room for one. *)
Definition mgr2 : MasterRecoveryManager :=
  mkMgr servers1 tablets0 [r1; r3] ∅ 1 []
    (RecoveryTracker.mk [] ∅) false 3 [].

(** Recovery r1 is active and nothing else is going on. *)
Definition mgr3 : MasterRecoveryManager :=
  mkMgr servers0 tablets0 [] (<[0 := r1]> ∅) 2 []
    (RecoveryTracker.mk [] ∅) false 1 [].

(** * The test runner (TestRunner.cc)

    A shallow embedding of [src/TestRunner.cc].  gtest, cppunit and libc are
    not in the sources: gtest's listener interface is the type of the calls a
    listener receives, the default result printer is the list of the calls
    that were forwarded to it, [getopt_long] is the sequence of its results,
    and the two test suites are functions that give their results. *)

Module TestRunner.
Import Stdlib.Strings.Ascii.

Local Open Scope Z_scope.

(** ** gtest's listener interface *)

(** The UnitTest singleton, [UnitTest::GetInstance()]. *)
Inductive UnitTest := GetInstance.

Record TestCase := mkTestCase { test_case_name : string }.

Record TestInfo := mkTestInfo { test_info_case : string; test_info_name : string }.

Inductive TestPartResultType := kSuccess | kNonFatalFailure | kFatalFailure.

Record TestPartResult := mkTestPartResult {
  type : TestPartResultType;
  message : string
}.

#[global] Instance TestPartResultType_eq_dec : EqDecision TestPartResultType.
Proof. solve_decision. Defined.

#[global] Instance TestCase_eq_dec : EqDecision TestCase.
Proof. solve_decision. Defined.

#[global] Instance TestInfo_eq_dec : EqDecision TestInfo.
Proof. solve_decision. Defined.

#[global] Instance TestPartResult_eq_dec : EqDecision TestPartResult.
Proof. solve_decision. Defined.

(** One call of a method of [testing::TestEventListener]. *)
Inductive ListenerCall :=
| Call_OnTestProgramStart (unit_test : UnitTest)
| Call_OnTestIterationStart (unit_test : UnitTest) (iteration : Z)
| Call_OnEnvironmentsSetUpStart (unit_test : UnitTest)
| Call_OnEnvironmentsSetUpEnd (unit_test : UnitTest)
| Call_OnTestCaseStart (test_case : TestCase)
| Call_OnTestStart (test_info : TestInfo)
| Call_OnTestPartResult (test_part_result : TestPartResult)
| Call_OnTestEnd (test_info : TestInfo)
| Call_OnTestCaseEnd (test_case : TestCase)
| Call_OnEnvironmentsTearDownStart (unit_test : UnitTest)
| Call_OnEnvironmentsTearDownEnd (unit_test : UnitTest)
| Call_OnTestIterationEnd (unit_test : UnitTest) (iteration : Z)
| Call_OnTestProgramEnd (unit_test : UnitTest).

(** ** QuietUnitTestResultPrinter *)

(** [prettyPrinter] is gtest's default printer, which the object owns: the
    calls it has received so far, oldest first.  The two pointers are [None]
    for NULL. *)
Record QuietUnitTestResultPrinter := mkPrinter {
  prettyPrinter : list ListenerCall;
  currentTestCase : option TestCase;
  currentTestInfo : option TestInfo
}.

(** The constructor. *)
Definition QuietUnitTestResultPrinter_new (prettyPrinter : list ListenerCall)
  : QuietUnitTestResultPrinter :=
  mkPrinter prettyPrinter None None.

(** [prettyPrinter->call]. *)
Definition forward (call : ListenerCall) (p : QuietUnitTestResultPrinter)
  : QuietUnitTestResultPrinter :=
  mkPrinter (prettyPrinter p ++ [call]) (currentTestCase p)
    (currentTestInfo p).

Definition set_currentTestCase (p : QuietUnitTestResultPrinter)
    (test_case : option TestCase) : QuietUnitTestResultPrinter :=
  mkPrinter (prettyPrinter p) test_case (currentTestInfo p).

Definition set_currentTestInfo (p : QuietUnitTestResultPrinter)
    (test_info : option TestInfo) : QuietUnitTestResultPrinter :=
  mkPrinter (prettyPrinter p) (currentTestCase p) test_info.

Definition OnTestProgramStart (unit_test : UnitTest)
    (p : QuietUnitTestResultPrinter) : QuietUnitTestResultPrinter :=
  forward (Call_OnTestProgramStart unit_test) p.

Definition OnTestIterationStart (unit_test : UnitTest) (iteration : Z)
    (p : QuietUnitTestResultPrinter) : QuietUnitTestResultPrinter :=
  forward (Call_OnTestIterationStart unit_test iteration) p.

Definition OnEnvironmentsSetUpStart (unit_test : UnitTest)
    (p : QuietUnitTestResultPrinter) : QuietUnitTestResultPrinter := p.

Definition OnEnvironmentsSetUpEnd (unit_test : UnitTest)
    (p : QuietUnitTestResultPrinter) : QuietUnitTestResultPrinter := p.

Definition OnTestCaseStart (test_case : TestCase)
    (p : QuietUnitTestResultPrinter) : QuietUnitTestResultPrinter :=
  set_currentTestCase p (Some test_case).

Definition OnTestStart (test_info : TestInfo)
    (p : QuietUnitTestResultPrinter) : QuietUnitTestResultPrinter :=
  set_currentTestInfo p (Some test_info).

Definition OnTestPartResult (test_part_result : TestPartResult)
    (p : QuietUnitTestResultPrinter) : QuietUnitTestResultPrinter :=
  if decide (type test_part_result ≠ kSuccess) then
    let p :=
      match currentTestCase p with
      | Some test_case =>
          set_currentTestCase (forward (Call_OnTestCaseStart test_case) p)
            None
      | None => p
      end in
    let p :=
      match currentTestInfo p with
      | Some test_info =>
          set_currentTestInfo (forward (Call_OnTestStart test_info) p) None
      | None => p
      end in
    forward (Call_OnTestPartResult test_part_result) p
  else p.

Definition OnTestEnd (test_info : TestInfo)
    (p : QuietUnitTestResultPrinter) : QuietUnitTestResultPrinter :=
  set_currentTestInfo p None.

Definition OnTestCaseEnd (test_case : TestCase)
    (p : QuietUnitTestResultPrinter) : QuietUnitTestResultPrinter :=
  set_currentTestCase p None.

Definition OnEnvironmentsTearDownStart (unit_test : UnitTest)
    (p : QuietUnitTestResultPrinter) : QuietUnitTestResultPrinter := p.

Definition OnEnvironmentsTearDownEnd (unit_test : UnitTest)
    (p : QuietUnitTestResultPrinter) : QuietUnitTestResultPrinter := p.

Definition OnTestIterationEnd (unit_test : UnitTest) (iteration : Z)
    (p : QuietUnitTestResultPrinter) : QuietUnitTestResultPrinter :=
  forward (Call_OnTestIterationEnd unit_test iteration) p.

Definition OnTestProgramEnd (unit_test : UnitTest)
    (p : QuietUnitTestResultPrinter) : QuietUnitTestResultPrinter :=
  forward (Call_OnTestProgramEnd unit_test) p.

(** gtest calls the listener: the virtual dispatch on the method. *)
Definition deliver (call : ListenerCall) (p : QuietUnitTestResultPrinter)
  : QuietUnitTestResultPrinter :=
  match call with
  | Call_OnTestProgramStart unit_test => OnTestProgramStart unit_test p
  | Call_OnTestIterationStart unit_test iteration =>
      OnTestIterationStart unit_test iteration p
  | Call_OnEnvironmentsSetUpStart unit_test =>
      OnEnvironmentsSetUpStart unit_test p
  | Call_OnEnvironmentsSetUpEnd unit_test => OnEnvironmentsSetUpEnd unit_test p
  | Call_OnTestCaseStart test_case => OnTestCaseStart test_case p
  | Call_OnTestStart test_info => OnTestStart test_info p
  | Call_OnTestPartResult test_part_result =>
      OnTestPartResult test_part_result p
  | Call_OnTestEnd test_info => OnTestEnd test_info p
  | Call_OnTestCaseEnd test_case => OnTestCaseEnd test_case p
  | Call_OnEnvironmentsTearDownStart unit_test =>
      OnEnvironmentsTearDownStart unit_test p
  | Call_OnEnvironmentsTearDownEnd unit_test =>
      OnEnvironmentsTearDownEnd unit_test p
  | Call_OnTestIterationEnd unit_test iteration =>
      OnTestIterationEnd unit_test iteration p
  | Call_OnTestProgramEnd unit_test => OnTestProgramEnd unit_test p
  end.

(** A sequence of calls, first call first. *)
Definition deliverAll (calls : list ListenerCall)
    (p : QuietUnitTestResultPrinter) : QuietUnitTestResultPrinter :=
  foldl (λ p call, deliver call p) p calls.

(** ** The command line *)

Definition NUL : ascii := "000"%char.

(** The string a [char *] denotes: the bytes before the first NUL. *)
Fixpoint cstring (bytes : list ascii) : list ascii :=
  match bytes with
  | [] => []
  | c :: rest => if decide (c = NUL) then [] else c :: cstring rest
  end.

(** libc's [strncpy(dest, src, n)]: the first [n] bytes of [dest] become the
    string of [src], cut after [n] bytes or padded with NULs to [n] bytes. *)
Definition strncpy (dest src : list ascii) (n : nat) : list ascii :=
  take n (cstring src ++ replicate n NUL) ++ drop n dest.

(** libc's [strcmp(a, b) == 0]. *)
Definition strcmp_is_0 (a b : list ascii) : bool :=
  bool_decide (cstring a = cstring b).

(** libc's [printf] for a format whose only conversions are [%s]: every
    [%s] is replaced by the next argument, and arguments that are left over
    are ignored. *)
Fixpoint printf (format : string) (args : list string) : string :=
  match format with
  | EmptyString => EmptyString
  | String "%" (String "s" rest) =>
      match args with
      | arg :: args => arg +:+ printf rest args
      | [] => printf rest []
      end
  | String c rest => String c (printf rest args)
  end.

Definition TAB : string := String "009" EmptyString.
Definition LF : string := String "010" EmptyString.

Definition EXIT_FAILURE : Z := 1.

(** The globals [testName], [progress] and [googleOnly]. *)
Record Globals := mkGlobals {
  testName : list ascii;
  progress : bool;
  googleOnly : bool
}.

(** The globals when the program starts: statics are zeroed. *)
Definition Globals_init : Globals :=
  mkGlobals (replicate 256 NUL) false false.

(** A function that returns, or ends the process with [exit]. *)
Inductive Exit (A : Type) :=
| Continues (a : A)
| Exits (stdout : string) (status : Z).
Arguments Continues {A} a.
Arguments Exits {A} stdout status.

Definition usage {A : Type} (arg0 : string) : Exit A :=
  Exits
    (printf
       ("Usage: %s " +:+
        "[-p] [-t testName]" +:+ LF +:+
        TAB +:+ "-t" +:+ TAB +:+ "--test" +:+ TAB +:+
          "Run a specific test.." +:+ LF +:+
        TAB +:+ "-p" +:+ TAB +:+ "--progress" +:+ TAB +:+
          "Show test progress." +:+ LF)
       [TAB +:+ "-g" +:+ TAB +:+ "--google" +:+ TAB +:+
          "Run google tests only." +:+ LF;
        arg0])
    EXIT_FAILURE.

(** [cmdline]; [options] are the results of the successive calls of
    [getopt_long], each with the [optarg] it set.  The loop ends at the
    first negative result; the end of the list stands for -1.  The cases
    are the characters 't' (116), 'p' (112) and 'g' (103). *)
Fixpoint cmdline (options : list (Z * list ascii)) (argv0 : string)
    (g : Globals) : Exit Globals :=
  match options with
  | [] => Continues g
  | (c, optarg) :: options =>
      if decide (0 ≤ c) then
        if decide (c = 116) then
          cmdline options argv0
            (mkGlobals
               (<[255%nat := NUL]> (strncpy (testName g) optarg 256))
               (progress g) (googleOnly g))
        else if decide (c = 112) then
          cmdline options argv0
            (mkGlobals (testName g) true (googleOnly g))
        else if decide (c = 103) then
          cmdline options argv0
            (mkGlobals (testName g) (progress g) true)
        else usage argv0
      else Continues g
  end.

(** ** main *)

(** [int] arithmetic. *)
Definition wrap32 (z : Z) : Z := (z + 2^31) `mod` 2^32 - 2^31.

(** The test suites [main] runs: gtest's [UnitTest::Run], with the quiet
    printer installed or not, and cppunit's [runner.run(testName, false,
    true, progress)]. *)
Inductive SuiteCall :=
| Call_UnitTest_Run (quiet : bool)
| Call_runner_run (testName : list ascii) (progress : bool).

(** [main]: [Run] and [run] give the results of the two suites; the result
    is the suites that were run, in order, and the exit status. *)
Definition main (options : list (Z * list ascii)) (argv0 : string)
    (Run : bool → Z) (run : list ascii → bool → bool)
  : Exit (list SuiteCall * Z) :=
  let defaultTest : list ascii := [] in
  let g := mkGlobals (strncpy (testName Globals_init) defaultTest 256)
             (progress Globals_init) (googleOnly Globals_init) in
  match cmdline options argv0 g with
  | Exits stdout status => Exits stdout status
  | Continues g =>
      let r := 0 in
      let '(calls, r) :=
        if googleOnly g || strcmp_is_0 (testName g) defaultTest then
          let quiet := negb (progress g) in
          ([Call_UnitTest_Run quiet], wrap32 (r + Run quiet))
        else ([], r) in
      let '(calls, r) :=
        if negb (googleOnly g) then
          (calls ++ [Call_runner_run (cstring (testName g)) (progress g)],
           wrap32 (r + (if run (cstring (testName g)) (progress g)
                        then 0 else 1)))
        else (calls, r) in
      Continues (calls, r)
  end.

(** ** Notions the properties of the test runner are stated with *)

(** The part result a call carries, if it is [OnTestPartResult]. *)
Definition partResultOf (call : ListenerCall) : option TestPartResult :=
  match call with
  | Call_OnTestPartResult test_part_result => Some test_part_result
  | _ => None
  end.

(** The part results that are not successes. *)
Definition failedParts (parts : list TestPartResult) : list TestPartResult :=
  filter (λ part, type part ≠ kSuccess) parts.

(** The calls about the whole program or one iteration of it. *)
Definition isProgramLevel (call : ListenerCall) : bool :=
  match call with
  | Call_OnTestProgramStart _ | Call_OnTestIterationStart _ _
  | Call_OnTestIterationEnd _ _ | Call_OnTestProgramEnd _ => true
  | _ => false
  end.

(** The calls the printer never passes on. *)
Definition isEndOrEnvironment (call : ListenerCall) : bool :=
  match call with
  | Call_OnEnvironmentsSetUpStart _ | Call_OnEnvironmentsSetUpEnd _
  | Call_OnTestEnd _ | Call_OnTestCaseEnd _
  | Call_OnEnvironmentsTearDownStart _ | Call_OnEnvironmentsTearDownEnd _ =>
      true
  | _ => false
  end.

(** The headers the printer holds back: the calls it was given and will
    forward before the next failure. *)
Definition pending (p : QuietUnitTestResultPrinter) : list ListenerCall :=
  option_list (Call_OnTestCaseStart <$> currentTestCase p)
    ++ option_list (Call_OnTestStart <$> currentTestInfo p).

(** One test as gtest runs it: its start, the results of its assertions,
    its end. *)
Record TestRun := mkTestRun {
  run_info : TestInfo;
  run_parts : list TestPartResult
}.

(** One test case as gtest runs it. *)
Record TestCaseRun := mkTestCaseRun {
  run_case : TestCase;
  run_tests : list TestRun
}.

Definition eventsOfTest (test : TestRun) : list ListenerCall :=
  Call_OnTestStart (run_info test)
    :: (Call_OnTestPartResult <$> run_parts test)
    ++ [Call_OnTestEnd (run_info test)].

Definition eventsOfCase (test_case : TestCaseRun) : list ListenerCall :=
  Call_OnTestCaseStart (run_case test_case)
    :: (run_tests test_case ≫= eventsOfTest)
    ++ [Call_OnTestCaseEnd (run_case test_case)].

(** What is to be printed of a test: nothing if it passed, else its header
    and its failures. *)
Definition printedOfTest (test : TestRun) : list ListenerCall :=
  match failedParts (run_parts test) with
  | [] => []
  | failed =>
      Call_OnTestStart (run_info test) :: (Call_OnTestPartResult <$> failed)
  end.

(** What is to be printed of a test case: nothing if all of its tests
    passed, else its header and what is printed of its tests. *)
Definition printedOfCase (test_case : TestCaseRun) : list ListenerCall :=
  match run_tests test_case ≫= printedOfTest with
  | [] => []
  | printed => Call_OnTestCaseStart (run_case test_case) :: printed
  end.

(** The results of [getopt_long] that [cmdline] handles: those before the
    first negative one. *)
Fixpoint handled (options : list (Z * list ascii)) : list (Z * list ascii) :=
  match options with
  | [] => []
  | (c, optarg) :: options =>
      if decide (0 ≤ c) then (c, optarg) :: handled options else []
  end.

(** The arguments of the [-t] options, in order. *)
Definition testNames (options : list (Z * list ascii)) : list (list ascii) :=
  omap (λ option, if decide (option.1 = 116) then Some option.2 else None)
    options.

(** Whether the option [c] is among the options. *)
Definition given (c : Z) (options : list (Z * list ascii)) : bool :=
  bool_decide (c ∈ options.*1).

(** Whether a suite that was run passed. *)
Definition passed (Run : bool → Z) (run : list ascii → bool → bool)
    (call : SuiteCall) : Prop :=
  match call with
  | Call_UnitTest_Run quiet => Run quiet = 0
  | Call_runner_run testName progress => run testName progress = true
  end.

#[global] Instance passed_dec Run run call : Decision (passed Run run call).
Proof. destruct call; cbn; apply _. Defined.

(** ** Concrete runs *)

(** A program with one test case of one test, whose one assertion holds. *)
Definition events0 : list ListenerCall :=
  [Call_OnTestProgramStart GetInstance;
   Call_OnTestIterationStart GetInstance 0;
   Call_OnEnvironmentsSetUpStart GetInstance;
   Call_OnEnvironmentsSetUpEnd GetInstance;
   Call_OnTestCaseStart (mkTestCase "UtilTest");
   Call_OnTestStart (mkTestInfo "UtilTest" "timespecLess");
   Call_OnTestPartResult (mkTestPartResult kSuccess EmptyString);
   Call_OnTestEnd (mkTestInfo "UtilTest" "timespecLess");
   Call_OnTestCaseEnd (mkTestCase "UtilTest");
   Call_OnEnvironmentsTearDownStart GetInstance;
   Call_OnEnvironmentsTearDownEnd GetInstance;
   Call_OnTestIterationEnd GetInstance 0;
   Call_OnTestProgramEnd GetInstance].

(** [-t LogTest -p -t UtilTest]. *)
Definition options0 : list (Z * list ascii) :=
  [(116, String.list_ascii_of_string "LogTest"); (112, []);
   (116, String.list_ascii_of_string "UtilTest")].

(** [-p -x]: [getopt_long] gives '?' (63) for the option it does not
    know. *)
Definition options1 : list (Z * list ascii) := [(112, []); (63, [])].

End TestRunner.

(** ** RecoveryMasterFinished: finalising the Tablet Map *)

Section UpdateTablets.
Import RecoveryMasterFinishedTask.

Lemma finalizeAll_app pre post : ∀ tm,
  finalizeAll (pre ++ post) tm = finalizeAll post (finalizeAll pre tm).
Proof. induction pre as [|t ts IH]; intros tm; [done|]. cbn. apply IH. Qed.

Lemma finalizeAll_other tablets : ∀ tm k,
  (∀ t, t ∈ tablets → keyOf t ≠ k) →
  finalizeAll tablets tm !! k = tm !! k.
Proof.
  induction tablets as [|t ts IH]; intros tm k Hk; [done|].
  cbn. rewrite IH.
  - apply lookup_insert_ne, Hk. left.
  - intros t' Ht'. apply Hk. by right.
Qed.

Lemma finalizeAll_last pre t post tm :
  (∀ t', t' ∈ post → keyOf t' ≠ keyOf t) →
  finalizeAll (pre ++ t :: post) tm !! keyOf t = Some (finalized t).
Proof.
  intros Hpost. rewrite finalizeAll_app. cbn.
  rewrite finalizeAll_other by done. apply lookup_insert_eq.
Qed.

Lemma finalizeAll_status tablets : ∀ tm t,
  t ∈ tablets →
  status <$> finalizeAll tablets tm !! keyOf t = Some NORMAL.
Proof.
  induction tablets as [|t0 ts IH] using rev_ind; intros tm t Ht.
  { by apply elem_of_nil in Ht. }
  rewrite finalizeAll_app. cbn.
  destruct (decide (keyOf t0 = keyOf t)) as [->|Hne].
  - by rewrite lookup_insert_eq.
  - rewrite lookup_insert_ne by done. apply IH.
    apply elem_of_app in Ht as [Ht|Ht]; [done|].
    apply list_elem_of_singleton in Ht. congruence.
Qed.

Lemma updateTablets_present tablets : ∀ mgr,
  (∀ t, t ∈ tablets → is_Some (tabletMap mgr !! keyOf t)) →
  updateTablets tablets mgr =
    Some (set_trace
            (set_tabletMap mgr (finalizeAll tablets (tabletMap mgr)))
            (trace mgr ++ (modifyCall <$> tablets))).
Proof.
  induction tablets as [|t ts IH]; intros mgr Hin.
  - cbn. rewrite app_nil_r. by destruct mgr.
  - cbn. unfold TabletMap.modifyTablet.
    destruct (Hin t) as [e He]; [left|].
    fold (keyOf t). rewrite He. rewrite IH.
    + cbn. by rewrite <- app_assoc.
    + intros t' Ht'. cbn. rewrite lookup_insert. case_decide; [eauto|].
      apply Hin. by right.
Qed.

Lemma updateTablets_absent tablets : ∀ mgr t,
  t ∈ tablets → tabletMap mgr !! keyOf t = None →
  updateTablets tablets mgr = None.
Proof.
  induction tablets as [|t0 ts IH]; intros mgr t Ht Hnone.
  { by apply elem_of_nil in Ht. }
  cbn. unfold TabletMap.modifyTablet. fold (keyOf t0).
  destruct (tabletMap mgr !! keyOf t0) eqn:He; [|done].
  apply elem_of_cons in Ht as [->|Ht]; [congruence|].
  apply (IH _ t Ht). cbn. rewrite lookup_insert_ne; [done|].
  intros Heq. congruence.
Qed.

End UpdateTablets.

(** ** ApplyTrackerChanges: draining the tracker *)

Lemma reports_ext slots1 slots2 changes :
  (∀ sid, sid ∈ failures changes → slots1 !! sid = slots2 !! sid) →
  reports slots1 changes = reports slots2 changes.
Proof.
  induction changes as [|[server event] rest IH]; intros Hext; [done|].
  cbn in *. destruct (ApplyTrackerChangesTask.isCrashedOrRemoved event).
  - rewrite Hext by left. rewrite IH; [done|].
    intros sid Hsid. apply Hext. by right.
  - by apply IH.
Qed.

Lemma drain_spec processed : ∀ rest mgr,
  RecoveryTracker.changes (tracker mgr) = processed ++ rest →
  NoDup (failures processed) →
  (∀ sid, sid ∈ failures processed →
     is_Some (RecoveryTracker.slots (tracker mgr) !! sid)) →
  (rest = [] ∨
   ∃ change later, rest = change :: later ∧
     unclaimed (RecoveryTracker.slots (tracker mgr)) (failures processed)
       change) →
  let mgr' := ApplyTrackerChangesTask.drain (processed ++ rest) mgr in
  RecoveryTracker.changes (tracker mgr') = tail rest ∧
  trace mgr' =
    trace mgr ++ reports (RecoveryTracker.slots (tracker mgr)) processed ∧
  (∀ sid, RecoveryTracker.slots (tracker mgr') !! sid =
          if decide (sid ∈ failures processed) then None
          else RecoveryTracker.slots (tracker mgr) !! sid) ∧
  sameButTrackerAndTrace mgr mgr'.
Proof.
  induction processed as [|[server event] processed IH];
    intros rest mgr Hbuf Hdup Hclaimed Hrest mgr'; subst mgr'.
  - cbn in Hbuf. cbn [app failures reports]. rewrite app_nil_r.
    destruct Hrest as [->|(change & later & -> & Hev & Hslot)].
    + cbn. by rewrite Hbuf.
    + destruct change as [server event]. cbn in Hev, Hslot. cbn.
      rewrite Hev. destruct Hslot as [Hslot|Hin].
      * by rewrite Hslot.
      * by apply elem_of_nil in Hin.
  - cbn [app ApplyTrackerChangesTask.drain].
    cbn [failures reports] in *.
    destruct (ApplyTrackerChangesTask.isCrashedOrRemoved event) eqn:Hev.
    + cbn [tracker set_tracker RecoveryTracker.slots].
      apply NoDup_cons in Hdup as [Hfresh Hdup].
      destruct (Hclaimed (details_serverId server)) as [recovery Hslot];
        [left|].
      rewrite Hslot.
      set (mgr1 := Recovery_recoveryMasterFinished _ _ _ _).
      assert (Hslots1 : RecoveryTracker.slots (tracker mgr1) =
                delete (details_serverId server)
                  (RecoveryTracker.slots (tracker mgr))) by done.
      destruct (IH rest mgr1) as (Hc & Ht & Hs & Hf).
      * done.
      * done.
      * intros sid Hsid. rewrite Hslots1, lookup_delete_ne by congruence.
        apply Hclaimed. by right.
      * destruct Hrest as [->|(change & later & -> & Hev' & Hslot')];
          [by left|right].
        exists change, later. split; [done|]. split; [done|].
        rewrite Hslots1, lookup_delete. case_decide; [by left|].
        destruct Hslot' as [?|Hin]; [by left|].
        apply elem_of_cons in Hin as [?|?]; [congruence|by right].
      * rewrite Hc, Ht. split; [done|]. split; [|split; [|exact Hf]].
        { cbn. rewrite <- app_assoc. cbn. do 2 f_equal. apply reports_ext.
          intros sid Hsid. apply lookup_delete_ne. congruence. }
        intros sid. rewrite Hs, Hslots1, lookup_delete.
        destruct (decide (sid ∈ failures processed)) as [Hin|Hnin].
        { rewrite decide_True; [done|by right]. }
        destruct (decide (details_serverId server = sid)) as [->|Hne].
        { rewrite decide_True; [done|by left]. }
        rewrite decide_False; [done|].
        intros [?|?]%elem_of_cons; congruence.
    + set (mgr1 := set_tracker _ _).
      destruct (IH rest mgr1) as (Hc & Ht & Hs & Hf); try done.
Qed.

(** The loop written with getChange, as in the source: one round takes the
    first buffered change and goes on with the rest. *)
Lemma ApplyTrackerChangesTask_loop mgr :
  ApplyTrackerChangesTask.performTask mgr =
    match RecoveryTracker.getChange (tracker mgr) with
    | None => mgr
    | Some ((server, event), tr) =>
        let mgr := set_tracker mgr tr in
        if ApplyTrackerChangesTask.isCrashedOrRemoved event then
          match RecoveryTracker.slots tr !! details_serverId server with
          | None => mgr
          | Some recovery =>
              ApplyTrackerChangesTask.performTask
                (Recovery_recoveryMasterFinished recovery
                   (details_serverId server) false mgr)
          end
        else ApplyTrackerChangesTask.performTask mgr
    end.
Proof.
  unfold ApplyTrackerChangesTask.performTask, RecoveryTracker.getChange.
  destruct (RecoveryTracker.changes (tracker mgr)) as [|[server event] rest];
    [done|].
  cbn. by repeat case_match.
Qed.

(** Every buffer splits as the drain theorem asks. *)
Lemma claimedPrefix_spec slots changes : ∀ cleared,
  let processed := claimedPrefix slots cleared changes in
  let rest := drop (length processed) changes in
  changes = processed ++ rest ∧
  NoDup (failures processed) ∧
  (∀ sid, sid ∈ failures processed →
          (sid ∉ cleared) ∧ is_Some (slots !! sid)) ∧
  (rest = [] ∨
   ∃ change later,
     rest = change :: later ∧
     unclaimed slots (failures processed ++ cleared) change).
Proof.
  induction changes as [|[server event] changes IH]; intros cleared;
    cbv zeta.
  { cbn. split; [done|]. split; [constructor|].
    split; [by intros ? []%elem_of_nil|by left]. }
  cbn [claimedPrefix].
  destruct (ApplyTrackerChangesTask.isCrashedOrRemoved event) eqn:Hev.
  - case_decide as Hclaimed.
    + destruct (IH (details_serverId server :: cleared))
        as (Hsplit & Hdup & Hslots & Hrest).
      cbn [length drop app failures]. rewrite Hev.
      split; [by f_equal|]. split; [|split].
      * apply NoDup_cons. split; [|done].
        intros Hin. apply Hslots in Hin as [Hnin _]. apply Hnin. left.
      * intros sid [->|Hin]%elem_of_cons; [by destruct Hclaimed|].
        apply Hslots in Hin as [Hnin ?]. split; [|done].
        intros ?. apply Hnin. by right.
      * destruct Hrest as [?|(change & later & Hr & Hev' & Hslot)];
          [by left|right].
        exists change, later. split; [done|]. split; [done|].
        destruct Hslot as [?|Hin]; [by left|right].
        rewrite elem_of_app, elem_of_cons in Hin.
        cbn [app]. rewrite elem_of_cons, elem_of_app. tauto.
    + cbn. split; [done|]. split; [constructor|].
      split; [by intros ? []%elem_of_nil|].
      right. exists (server, event), changes. split; [done|].
      split; [done|]. cbn.
      destruct (slots !! details_serverId server) eqn:Hslot; [|by left].
      right. destruct (decide (details_serverId server ∈ cleared)); [done|].
      destruct Hclaimed. by split.
  - destruct (IH cleared) as (Hsplit & Hdup & Hslots & Hrest).
    cbn [length drop app failures]. rewrite Hev. split; [by f_equal|]. done.
Qed.

Lemma drain_splits mgr :
  let slots := RecoveryTracker.slots (tracker mgr) in
  ∃ processed rest,
    RecoveryTracker.changes (tracker mgr) = processed ++ rest ∧
    NoDup (failures processed) ∧
    (∀ sid, sid ∈ failures processed → is_Some (slots !! sid)) ∧
    (rest = [] ∨
     ∃ change later,
       rest = change :: later ∧
       unclaimed slots (failures processed) change).
Proof.
  destruct (claimedPrefix_spec (RecoveryTracker.slots (tracker mgr))
              (RecoveryTracker.changes (tracker mgr)) [])
    as (Hsplit & Hdup & Hslots & Hrest).
  eexists _, _. split; [exact Hsplit|]. split; [done|]. split.
  - intros sid Hsid. by apply Hslots.
  - by rewrite app_nil_r in Hrest.
Qed.

(** ** MaybeStartRecovery: the admission loop *)

Section Admission.
Import MaybeStartRecoveryTask.

Lemma serverAlreadyRecovering_true recovery mgr :
  serverAlreadyRecovering recovery mgr = true ↔
  matchesActive (activeRecoveries mgr) recovery.
Proof.
  unfold serverAlreadyRecovering, matchesActive.
  rewrite existsb_exists. split.
  - intros ([k other] & Hin & Hcs).
    apply list_elem_of_In, elem_of_map_to_list in Hin.
    apply bool_decide_eq_true in Hcs. eauto.
  - intros (k & other & Hk & Hcs). exists (k, other). split.
    + by apply list_elem_of_In, elem_of_map_to_list.
    + by apply bool_decide_eq_true.
Qed.

Lemma serverAlreadyRecovering_false recovery mgr :
  serverAlreadyRecovering recovery mgr = false ↔
  ¬ matchesActive (activeRecoveries mgr) recovery.
Proof.
  rewrite <- serverAlreadyRecovering_true.
  destruct (serverAlreadyRecovering recovery mgr); naive_solver.
Qed.

Lemma Recovery_schedule_queue recovery mgr :
  RecoveryTask recovery ∈ taskQueue (Recovery_schedule recovery mgr) ∧
  ∀ task, task ∈ taskQueue mgr →
          task ∈ taskQueue (Recovery_schedule recovery mgr).
Proof.
  unfold Recovery_schedule. case_decide; cbn; [done|].
  split; [|intros task Htask]; apply elem_of_app; [right; left|by left].
Qed.

Lemma startStep_waiting recovery rest mgr :
  waitingRecoveries (startStep recovery rest mgr) = rest.
Proof. unfold startStep, Recovery_schedule. by case_decide. Qed.

Lemma admissionLoop_cons recovery rest alreadyActive mgr :
  admissionLoop (recovery :: rest) alreadyActive mgr =
    if N.of_nat (size (activeRecoveries mgr)) <? maxActiveRecoveries mgr
    then
      if serverAlreadyRecovering recovery mgr
      then admissionLoop rest (alreadyActive ++ [recovery])
             (deferStep recovery rest mgr)
      else admissionLoop rest alreadyActive (startStep recovery rest mgr)
    else (alreadyActive, mgr).
Proof. reflexivity. Qed.

(** The loop written on the manager alone, as in the source: each round
    looks at the front of mgr.waitingRecoveries and pops it. *)
Lemma MaybeStartRecoveryTask_loop alreadyActive mgr :
  admissionLoop (waitingRecoveries mgr) alreadyActive mgr =
    match waitingRecoveries mgr with
    | [] => (alreadyActive, mgr)
    | recovery :: rest =>
        if N.of_nat (size (activeRecoveries mgr)) <? maxActiveRecoveries mgr
        then
          if serverAlreadyRecovering recovery mgr then
            let mgr := deferStep recovery rest mgr in
            admissionLoop (waitingRecoveries mgr)
              (alreadyActive ++ [recovery]) mgr
          else
            let mgr := startStep recovery rest mgr in
            admissionLoop (waitingRecoveries mgr) alreadyActive mgr
        else (alreadyActive, mgr)
    end.
Proof.
  destruct (waitingRecoveries mgr) as [|recovery rest]; [done|].
  rewrite admissionLoop_cons. cbv zeta.
  by destruct (startStep_waiting recovery rest mgr).
Qed.

Lemma startStep_fields recovery rest mgr :
  let mgr' := startStep recovery rest mgr in
  activeRecoveries mgr' =
    <[recoveryId recovery := recovery]> (activeRecoveries mgr) ∧
  waitingRecoveries mgr' = rest ∧
  maxActiveRecoveries mgr' = maxActiveRecoveries mgr ∧
  serverList mgr' = serverList mgr ∧
  tabletMap mgr' = tabletMap mgr ∧
  tracker mgr' = tracker mgr ∧
  doNotStartRecoveries mgr' = doNotStartRecoveries mgr ∧
  nextRecoveryId mgr' = nextRecoveryId mgr ∧
  RecoveryTask recovery ∈ taskQueue mgr' ∧
  ∀ task, task ∈ taskQueue mgr → task ∈ taskQueue mgr'.
Proof.
  unfold startStep. cbn.
  pose proof (Recovery_schedule_queue recovery mgr) as [Hin Hmono].
  unfold Recovery_schedule in *. case_decide; cbn in *; done.
Qed.

(** What the loop leaves alone. *)
Lemma admissionLoop_frame waiting : ∀ alreadyActive mgr,
  let mgr' := (admissionLoop waiting alreadyActive mgr).2 in
  maxActiveRecoveries mgr' = maxActiveRecoveries mgr ∧
  serverList mgr' = serverList mgr ∧
  tabletMap mgr' = tabletMap mgr ∧
  tracker mgr' = tracker mgr ∧
  doNotStartRecoveries mgr' = doNotStartRecoveries mgr ∧
  nextRecoveryId mgr' = nextRecoveryId mgr ∧
  ∀ task, task ∈ taskQueue mgr → task ∈ taskQueue mgr'.
Proof.
  induction waiting as [|r rest IH]; intros aa mgr; cbv zeta; [done|].
  rewrite admissionLoop_cons. repeat case_match; [| |done].
  - destruct (IH (aa ++ [r]) (deferStep r rest mgr))
      as (-> & -> & -> & -> & -> & -> & Hq). done.
  - destruct (IH aa (startStep r rest mgr))
      as (-> & -> & -> & -> & -> & -> & Hq).
    destruct (startStep_fields r rest mgr)
      as (_ & _ & -> & -> & -> & -> & -> & -> & _ & Hq').
    repeat split; auto.
Qed.

Local Ltac nothing_considered :=
  cbv zeta; cbn; rewrite app_nil_r;
  do 4 (split; [done|]); do 2 (split; [constructor|]);
  split; [intros ? ?; split; [by left|];
          by intros [?|[[]%elem_of_nil _]]|];
  split; [by intros ? []%elem_of_nil|];
  by intros [|? ?] ? ? ?.

(** The loop invariant of the admission task. *)
Lemma admissionLoop_spec waiting : ∀ alreadyActive mgr,
  waitingRecoveries mgr = waiting →
  NoDup (recoveryId <$> waiting) →
  (∀ r, r ∈ waiting → activeRecoveries mgr !! recoveryId r = None) →
  ∃ considered untouched started deferred,
    let mgr' := (admissionLoop waiting alreadyActive mgr).2 in
    waiting = considered ++ untouched ∧
    (admissionLoop waiting alreadyActive mgr).1 = alreadyActive ++ deferred ∧
    waitingRecoveries mgr' = untouched ∧
    considered ≡ₚ started ++ deferred ∧
    started `sublist_of` considered ∧
    deferred `sublist_of` considered ∧
    (∀ k o, activeRecoveries mgr' !! k = Some o ↔
            activeRecoveries mgr !! k = Some o ∨
            (o ∈ started ∧ k = recoveryId o)) ∧
    (∀ r, r ∈ started → RecoveryTask r ∈ taskQueue mgr') ∧
    (∀ pre r post, considered = pre ++ r :: post →
       (blockedAt (activeRecoveries mgr) started pre r → r ∈ deferred) ∧
       (¬ blockedAt (activeRecoveries mgr) started pre r → r ∈ started)).
Proof.
  induction waiting as [|r rest IH]; intros aa mgr Hw Hdup Hfresh.
  { exists [], [], [], []. nothing_considered. }
  rewrite admissionLoop_cons.
  apply NoDup_cons in Hdup as [Hr Hdup].
  assert (Hrest_ne : ∀ x, x ∈ rest → recoveryId x ≠ recoveryId r).
  { intros x Hx Heq. apply Hr. rewrite <- Heq. by apply list_elem_of_fmap_2. }
  destruct (N.of_nat (size (activeRecoveries mgr)) <? maxActiveRecoveries mgr)
    eqn:Hcap; cycle 1.
  { exists [], (r :: rest), [], []. nothing_considered. }
  destruct (serverAlreadyRecovering r mgr) eqn:Hsar.
  - (* deferred *)
    apply serverAlreadyRecovering_true in Hsar.
    destruct (IH (aa ++ [r]) (deferStep r rest mgr))
      as (c & u & a & d & Hsplit & Haa & Hwait & Hperm & Hsa & Hsd & Hact
          & Hsched & Hchar).
    { done. }
    { done. }
    { intros x Hx. cbn. apply Hfresh. by right. }
    cbn [activeRecoveries deferStep emit set_trace set_waitingRecoveries]
      in Hact, Hchar.
    exists (r :: c), u, a, (r :: d). cbv zeta.
    split; [by rewrite Hsplit|].
    split; [by rewrite Haa, <- app_assoc|].
    split; [done|].
    split; [by rewrite <- Permutation_middle, Hperm|].
    split; [by constructor|].
    split; [by constructor|].
    split; [done|].
    split; [done|].
    assert (Hra : r ∉ a).
    { intros Hin. apply (Hrest_ne r); [|done].
      rewrite Hsplit. apply elem_of_app. left.
      by eapply elem_of_sublist. }
    intros pre x post Hdec. destruct pre as [|p pre]; simplify_eq/=.
    + split; [by left|]. intros Hnb. destruct Hnb. by left.
    + destruct (Hchar pre x post eq_refl) as [Hb Hnb]. split.
      * intros [Hm|(o & Ho & Hoa & Hcs)]; right; apply Hb; [by left|].
        right. exists o. apply elem_of_cons in Ho as [->|Ho]; done.
      * intros Hnblocked. apply Hnb. intros [Hm|(o & Ho & Hoa & Hcs)];
          apply Hnblocked; [by left|].
        right. exists o. split; [by right|done].
  - (* started *)
    apply serverAlreadyRecovering_false in Hsar.
    destruct (startStep_fields r rest mgr)
      as (Hact1 & Hwait1 & _ & _ & _ & _ & _ & _ & Hin1 & _).
    destruct (IH aa (startStep r rest mgr))
      as (c & u & a & d & Hsplit & Haa & Hwait & Hperm & Hsa & Hsd & Hact
          & Hsched & Hchar).
    { done. }
    { done. }
    { intros x Hx. rewrite Hact1, lookup_insert_ne.
      - apply Hfresh. by right.
      - intros Heq. by apply (Hrest_ne x). }
    rewrite Hact1 in Hact, Hchar.
    assert (Hrfresh : activeRecoveries mgr !! recoveryId r = None)
      by (apply Hfresh; left).
    exists (r :: c), u, (r :: a), d. cbv zeta.
    split; [by rewrite Hsplit|].
    split; [done|].
    split; [done|].
    split; [cbn; by rewrite Hperm|].
    split; [by constructor|].
    split; [by constructor|].
    split.
    { intros k o. rewrite Hact, lookup_insert_Some. split.
      - intros [[[<- <-]|[Hne Hk]]|[Hoa ->]].
        + right. split; [left|done].
        + by left.
        + right. split; [by right|done].
      - intros [Hk|[[->|Hoa]%elem_of_cons ->]].
        + left. right. split; [congruence|done].
        + left. by left.
        + by right. }
    split.
    { intros x [->|Hx]%elem_of_cons; [|by apply Hsched].
      by apply admissionLoop_frame. }
    intros pre x post Hdec. destruct pre as [|p pre]; simplify_eq/=.
    + split; [|by left].
      intros [Hm|(o & []%elem_of_nil & _)]. done.
    + destruct (Hchar pre x post eq_refl) as [Hb Hnb].
      assert (Hiff : blockedAt (activeRecoveries mgr) (p :: a) (p :: pre) x ↔
                blockedAt (<[recoveryId p:=p]> (activeRecoveries mgr)) a
                  pre x).
      { unfold blockedAt, matchesActive. split.
        - intros [(k & o & Hk & Hcs)|(o & Ho & Hoa & Hcs)].
          + left. exists k, o. split; [|done].
            rewrite lookup_insert_ne; [done|congruence].
          + apply elem_of_cons in Ho as [->|Ho].
            * left. exists (recoveryId p), p. by rewrite lookup_insert_eq.
            * apply elem_of_cons in Hoa as [->|Hoa].
              -- left. exists (recoveryId p), p.
                 by rewrite lookup_insert_eq.
              -- right. by exists o.
        - intros [(k & o & Hk & Hcs)|(o & Ho & Hoa & Hcs)].
          + apply lookup_insert_Some in Hk as [[<- <-]|[Hne Hk]].
            * right. exists p. split; [left|]. split; [left|done].
            * left. by exists k, o.
          + right. exists o. split; [by right|]. split; [by right|done]. }
      split.
      * intros Hbl. apply Hb, Hiff, Hbl.
      * intros Hnbl. right. apply Hnb. intros Hbl. by apply Hnbl, Hiff.
Qed.

(** The task in terms of its loop: the deferred recoveries go to the back
    of what the loop left on the queue. *)
Lemma performTask_fields mgr :
  let loop := admissionLoop (waitingRecoveries mgr) [] mgr in
  let mgr' := performTask mgr in
  waitingRecoveries mgr' = waitingRecoveries loop.2 ++ loop.1 ∧
  activeRecoveries mgr' = activeRecoveries loop.2 ∧
  taskQueue mgr' = taskQueue loop.2 ∧
  maxActiveRecoveries mgr' = maxActiveRecoveries mgr ∧
  serverList mgr' = serverList mgr ∧
  tabletMap mgr' = tabletMap mgr ∧
  tracker mgr' = tracker mgr ∧
  doNotStartRecoveries mgr' = doNotStartRecoveries mgr ∧
  nextRecoveryId mgr' = nextRecoveryId mgr.
Proof.
  cbv zeta. unfold performTask.
  pose proof (admissionLoop_frame (waitingRecoveries mgr) [] mgr) as Hframe.
  cbv zeta in Hframe.
  destruct (admissionLoop (waitingRecoveries mgr) [] mgr) as [aa m]. cbn in *.
  destruct Hframe as (<- & <- & <- & <- & <- & <- & _).
  by case_match.
Qed.

(** The loop runs until the queue is empty or the active set is full. *)
Lemma admissionLoop_stops waiting : ∀ alreadyActive mgr,
  waitingRecoveries mgr = waiting →
  let mgr' := (admissionLoop waiting alreadyActive mgr).2 in
  waitingRecoveries mgr' = [] ∨
  maxActiveRecoveries mgr ≤ N.of_nat (size (activeRecoveries mgr')).
Proof.
  induction waiting as [|r rest IH]; intros aa mgr Hw; cbv zeta; [by left|].
  rewrite admissionLoop_cons. destruct (_ <? _) eqn:Hlt.
  - destruct (serverAlreadyRecovering r mgr).
    + by apply (IH _ (deferStep r rest mgr)).
    + destruct (startStep_fields r rest mgr) as (_ & Hw1 & <- & _).
      by apply IH.
  - right. by apply N.ltb_ge in Hlt.
Qed.

(** The whole task under unique recovery ids. *)
Lemma performTask_spec mgr :
  uniqueRecoveryIds mgr →
  let mgr' := performTask mgr in
  ∃ considered untouched started deferred,
    waitingRecoveries mgr = considered ++ untouched ∧
    waitingRecoveries mgr' = untouched ++ deferred ∧
    considered ≡ₚ started ++ deferred ∧
    started `sublist_of` considered ∧
    deferred `sublist_of` considered ∧
    (∀ k o, activeRecoveries mgr' !! k = Some o ↔
            activeRecoveries mgr !! k = Some o ∨
            (o ∈ started ∧ k = recoveryId o)) ∧
    (∀ r, r ∈ started → RecoveryTask r ∈ taskQueue mgr') ∧
    (∀ pre r post, considered = pre ++ r :: post →
       (blockedAt (activeRecoveries mgr) started pre r → r ∈ deferred) ∧
       (¬ blockedAt (activeRecoveries mgr) started pre r → r ∈ started)) ∧
    (untouched = [] ∨
     maxActiveRecoveries mgr ≤ N.of_nat (size (activeRecoveries mgr'))).
Proof.
  intros [Hdup Hfresh]. cbv zeta.
  destruct (performTask_fields mgr) as (-> & -> & -> & _).
  pose proof (admissionLoop_stops (waitingRecoveries mgr) [] mgr eq_refl) as Hstop.
  destruct (admissionLoop_spec (waitingRecoveries mgr) [] mgr eq_refl Hdup Hfresh)
    as (c & u & a & d & Hsplit & Haa & Hwait & Hp & Hsa & Hsd & Hact & Hsch
        & Hchar).
  exists c, u, a, d. cbv zeta in *. rewrite Haa, Hwait in *.
  by repeat (split; [done|]).
Qed.

(** The loop keeps the crashed servers of the active set distinct. *)
Lemma admissionLoop_uniqueCrashedServer waiting : ∀ alreadyActive mgr,
  uniqueCrashedServer (activeRecoveries mgr) →
  uniqueCrashedServer (activeRecoveries (admissionLoop waiting alreadyActive mgr).2).
Proof.
  induction waiting as [|r rest IH]; intros aa mgr Huniq; [done|].
  rewrite admissionLoop_cons. destruct (_ <? _); [|done].
  destruct (serverAlreadyRecovering r mgr) eqn:Hsar.
  { exact (IH _ (deferStep r rest mgr) Huniq). }
  apply serverAlreadyRecovering_false in Hsar.
  apply IH. destruct (startStep_fields r rest mgr) as (-> & _).
  intros k1 k2 o1 o2 H1 H2 Hcs.
  apply lookup_insert_Some in H1 as [[<- <-]|[Hne1 H1]];
    apply lookup_insert_Some in H2 as [[<- <-]|[Hne2 H2]].
  - done.
  - destruct Hsar. by exists k2, o2.
  - destruct Hsar. by exists k1, o1.
  - by eapply Huniq.
Qed.

(** The loop never fills the active set beyond the cap. *)
Lemma admissionLoop_cap waiting : ∀ alreadyActive mgr,
  N.of_nat (size (activeRecoveries mgr)) ≤ maxActiveRecoveries mgr →
  N.of_nat (size (activeRecoveries (admissionLoop waiting alreadyActive mgr).2))
    ≤ maxActiveRecoveries mgr.
Proof.
  induction waiting as [|r rest IH]; intros aa mgr Hcap; [done|].
  rewrite admissionLoop_cons. destruct (_ <? _) eqn:Hlt; [|done].
  apply N.ltb_lt in Hlt.
  destruct (serverAlreadyRecovering r mgr).
  { exact (IH _ (deferStep r rest mgr) Hcap). }
  destruct (startStep_fields r rest mgr) as (Hact & _ & Hmax & _).
  rewrite <- Hmax. apply IH. rewrite Hact, Hmax, map_size_insert.
  destruct (activeRecoveries mgr !! recoveryId r); cbn; lia.
Qed.

(** At the cap the loop does not run at all. *)
Lemma admissionLoop_at_cap waiting alreadyActive mgr :
  maxActiveRecoveries mgr ≤ N.of_nat (size (activeRecoveries mgr)) →
  admissionLoop waiting alreadyActive mgr = (alreadyActive, mgr).
Proof.
  intros Hcap. destruct waiting as [|r rest]; [done|].
  rewrite admissionLoop_cons.
  destruct (_ <? _) eqn:Hlt; [apply N.ltb_lt in Hlt; lia|done].
Qed.

(** The loop adds to the active set and removes no key from it. *)
Lemma admissionLoop_keeps_keys waiting : ∀ alreadyActive mgr k,
  is_Some (activeRecoveries mgr !! k) →
  is_Some (activeRecoveries (admissionLoop waiting alreadyActive mgr).2 !! k).
Proof.
  induction waiting as [|r rest IH]; intros aa mgr k Hk; [done|].
  rewrite admissionLoop_cons. repeat case_match; [| |done].
  { exact (IH _ (deferStep r rest mgr) k Hk). }
  apply IH. destruct (startStep_fields r rest mgr) as (-> & _).
  rewrite lookup_insert. case_decide; eauto.
Qed.

End Admission.

(** ** The manager between operations *)

Lemma drain_frame pending : ∀ mgr,
  sameButTrackerAndTrace mgr (ApplyTrackerChangesTask.drain pending mgr).
Proof.
  induction pending as [|[server event] rest IH]; intros mgr; [done|].
  cbn. repeat case_match; try done.
  - set (mgr1 := Recovery_recoveryMasterFinished _ _ _ _).
    by destruct (IH mgr1) as (? & ? & ? & ? & ? & ? & ? & ?).
  - set (mgr1 := set_tracker _ _).
    by destruct (IH mgr1) as (? & ? & ? & ? & ? & ? & ? & ?).
Qed.

Lemma updateTablets_frame tablets : ∀ mgr mgr',
  RecoveryMasterFinishedTask.updateTablets tablets mgr = Some mgr' →
  serverList mgr' = serverList mgr ∧
  waitingRecoveries mgr' = waitingRecoveries mgr ∧
  activeRecoveries mgr' = activeRecoveries mgr ∧
  maxActiveRecoveries mgr' = maxActiveRecoveries mgr ∧
  taskQueue mgr' = taskQueue mgr ∧
  tracker mgr' = tracker mgr ∧
  doNotStartRecoveries mgr' = doNotStartRecoveries mgr ∧
  nextRecoveryId mgr' = nextRecoveryId mgr.
Proof.
  induction tablets as [|t ts IH]; intros mgr mgr' Hrun; cbn in Hrun.
  - by simplify_eq.
  - case_match; [|done].
    by destruct (IH _ _ Hrun) as (-> & -> & -> & -> & -> & -> & -> & ->).
Qed.

Lemma enqueued_app q1 q2 : enqueued (q1 ++ q2) = enqueued q1 ++ enqueued q2.
Proof. apply omap_app. Qed.

Lemma admissionLoop_enqueued waiting : ∀ alreadyActive mgr,
  enqueued (taskQueue (MaybeStartRecoveryTask.admissionLoop waiting alreadyActive
                         mgr).2) =
  enqueued (taskQueue mgr).
Proof.
  induction waiting as [|r rest IH]; intros aa mgr; [done|].
  rewrite admissionLoop_cons. repeat case_match; [| |done].
  - by rewrite IH.
  - rewrite IH. unfold startStep, Recovery_schedule. cbn.
    case_decide; cbn; [done|]. by rewrite enqueued_app, app_nil_r.
Qed.

(** Every operation keeps the cap and has one of five effects. *)
Lemma exec_effect op mgr mgr' :
  stateAfter (exec op mgr) = Some mgr' →
  maxActiveRecoveries mgr' = maxActiveRecoveries mgr ∧ Effect op mgr mgr'.
Proof.
  intros Hrun. destruct op; cbn in Hrun.
  - unfold startMasterRecovery, restartMasterRecovery in Hrun.
    cbn in Hrun. repeat case_match; simplify_eq/=; split; try done.
    + by apply effect_none.
    + by apply effect_none.
    + eapply effect_new; cbn; try done. by rewrite enqueued_app.
    + by apply effect_none.
  - simplify_eq. split; [done|]. apply effect_none; cbn; try done.
    by rewrite enqueued_app, app_nil_r.
  - simplify_eq. split; [done|]. apply effect_none; cbn; try done.
    by rewrite enqueued_app, app_nil_r.
  - destruct (taskQueue mgr) as [|task rest] eqn:Hq; cbn in Hrun.
    { simplify_eq. split; [done|]. apply effect_none; by rewrite ?Hq. }
    destruct task; cbn in Hrun; simplify_eq.
    + pose proof (drain_frame
        (RecoveryTracker.changes (tracker (set_taskQueue mgr rest)))
        (set_taskQueue mgr rest)) as (? & ? & ? & ? & ? & Hq' & ? & ?).
      unfold ApplyTrackerChangesTask.performTask.
      split; [done|]. apply effect_none; try done. by rewrite Hq', Hq.
    + split.
      * by destruct (performTask_fields (set_taskQueue mgr rest))
          as (_ & _ & _ & -> & _).
      * by eapply effect_admission.
    + split; [done|]. eapply effect_enqueue; cbn; try done.
      by rewrite enqueued_app, app_nil_r.
    + unfold RecoveryMasterFinishedTask.performTask in Hrun.
      repeat case_match; simplify_eq/=.
      * match goal with
        | H : RecoveryMasterFinishedTask.updateTablets _ _ = Some _ |- _ =>
            destruct (updateTablets_frame _ _ _ H)
              as (? & Hw & Ha & Hm & Hq' & ? & ? & Hn)
        end.
        split; [done|]. apply effect_none; cbn; try done.
        by rewrite Hq', Hq.
      * split; [done|]. apply effect_none; cbn; by rewrite ?Hq.
      * split; [done|]. apply effect_none; cbn; by rewrite ?Hq.
    + split; [done|]. apply effect_none; cbn; by rewrite ?Hq.
  - simplify_eq. unfold recoveryFinished. destruct wasCompletelySuccessful.
    + split; [done|]. apply effect_none; cbn; try done.
      by rewrite enqueued_app, app_nil_r.
    + split; [done|]. eapply effect_new; cbn; try done.
      by rewrite enqueued_app.
  - simplify_eq. split; [done|]. by eapply effect_destroy.
  - simplify_eq. unfold Recovery_schedule. case_decide.
    + split; [done|]. by apply effect_none.
    + split; [done|]. apply effect_none; cbn; try done.
      by rewrite enqueued_app, app_nil_r.
  - simplify_eq. split; [done|]. by apply effect_none.
Qed.

Lemma wellFormed_uniqueRecoveryIds mgr :
  wellFormed mgr → uniqueRecoveryIds mgr.
Proof.
  intros (Hdup & Hpend & _). unfold pendingRecoveries in *. split.
  - rewrite fmap_app in Hdup. by apply NoDup_app in Hdup as (? & _).
  - intros r Hr. apply Hpend, elem_of_app. by left.
Qed.

Lemma admission_wellFormed mgr rest :
  taskQueue mgr = MaybeStartRecoveryTask :: rest →
  wellFormed mgr →
  wellFormed (MaybeStartRecoveryTask.performTask (set_taskQueue mgr rest)).
Proof.
  intros Hq Hwf. set (m0 := set_taskQueue mgr rest).
  assert (Hwf0 : wellFormed m0).
  { unfold wellFormed, pendingRecoveries in *. by rewrite Hq in Hwf. }
  clear Hwf Hq. destruct (performTask_spec m0)
    as (c & u & a & d & Hsplit & Hwait & Hperm & Hsa & Hsd & Hact & _ & _
        & _);
    [by apply wellFormed_uniqueRecoveryIds|].
  destruct (performTask_fields m0)
    as (_ & _ & Hq' & _ & _ & _ & _ & _ & Hnext).
  destruct Hwf0 as (Hdup & Hpend & Hkeys).
  set (mgr' := MaybeStartRecoveryTask.performTask m0) in *.
  assert (Henq : enqueued (taskQueue mgr') = enqueued (taskQueue m0)).
  { rewrite Hq'. apply admissionLoop_enqueued. }
  assert (Hpp : pendingRecoveries m0 ≡ₚ a ++ pendingRecoveries mgr').
  { unfold pendingRecoveries. rewrite Hsplit, Hwait, Henq, Hperm.
    rewrite (comm (++) u d). by rewrite <- !app_assoc. }
  rewrite Hpp, fmap_app in Hdup.
  apply NoDup_app in Hdup as (_ & Hdisj & Hdup').
  assert (Hsub : ∀ r, r ∈ pendingRecoveries mgr' → r ∈ pendingRecoveries m0).
  { intros r Hr. rewrite Hpp. apply elem_of_app. by right. }
  assert (Ha : ∀ r, r ∈ a → r ∈ pendingRecoveries m0).
  { intros r Hr. rewrite Hpp. apply elem_of_app. by left. }
  split; [done|]. split.
  - intros r Hr. rewrite Hnext. split; [|by apply Hpend, Hsub].
    destruct (activeRecoveries mgr' !! recoveryId r) as [o|] eqn:Ho; [|done].
    apply Hact in Ho as [Ho|[Hoa Hid]].
    + destruct (Hpend r (Hsub r Hr)) as [Hnone _]. congruence.
    + destruct (Hdisj (recoveryId o)).
      * by apply list_elem_of_fmap_2.
      * rewrite <- Hid. by apply list_elem_of_fmap_2.
  - intros k o Ho. rewrite Hnext. apply Hact in Ho as [Ho|[Hoa ->]].
    + by apply Hkeys.
    + split; [done|]. by apply Hpend, Ha.
Qed.

(** Every operation keeps recovery ids unique. *)
Lemma exec_wellFormed op mgr mgr' :
  wellFormed mgr →
  stateAfter (exec op mgr) = Some mgr' →
  wellFormed mgr'.
Proof.
  intros Hwf Hrun. apply exec_effect in Hrun as [_ Heff].
  destruct Heff as [Hw He Ha Hn|cr w ms Hw He Ha Hn|r ms rest -> Hq Hw He Ha Hn
                   |r -> Hw He Ha Hn|rest -> Hq ->].
  - unfold wellFormed, pendingRecoveries in *. by rewrite Hw, He, Ha, Hn.
  - destruct Hwf as (Hdup & Hpend & Hkeys).
    unfold wellFormed, pendingRecoveries in *.
    rewrite Hw, He, Ha, Hn, app_assoc. split; [|split].
    + rewrite fmap_app. apply NoDup_app. split; [done|]. split.
      * intros k Hk [->|[]%elem_of_nil]%elem_of_cons.
        apply list_elem_of_fmap in Hk as (r & Hid & Hr).
        apply Hpend in Hr as [_ Hlt]. cbn in Hid. lia.
      * apply NoDup_singleton.
    + intros r [Hr|Hr%list_elem_of_singleton]%elem_of_app.
      * destruct (Hpend r Hr). split; [done|lia].
      * subst r. cbn. split; [|lia].
        destruct (activeRecoveries mgr !! nextRecoveryId mgr) eqn:Hact;
          [|done].
        apply Hkeys in Hact as [_ ?]. lia.
    + intros k r Hr. destruct (Hkeys k r Hr). split; [done|lia].
  - unfold wellFormed, pendingRecoveries in *.
    rewrite Hw, He, Ha, Hn. rewrite Hq in Hwf. cbn in Hwf.
    by rewrite <- app_assoc.
  - destruct Hwf as (Hdup & Hpend & Hkeys).
    unfold wellFormed, pendingRecoveries in *.
    rewrite Hw, He, Ha, Hn. split; [done|]. split.
    + intros x Hx. destruct (Hpend x Hx). split; [|done].
      apply lookup_delete_None. by right.
    + intros k x [_ Hx]%lookup_delete_Some. by apply Hkeys.
  - by apply admission_wellFormed.
Qed.

Lemma configured_wellFormed cap sl tm : wellFormed (configured cap sl tm).
Proof.
  split; [constructor|]. split.
  - by intros r []%elem_of_nil.
  - intros k r Hr. cbn in Hr. by rewrite lookup_empty in Hr.
Qed.

Lemma reachable_wellFormed cap sl tm mgr :
  reachable (configured cap sl tm) mgr → wellFormed mgr.
Proof.
  induction 1 as [|mgr op mgr' _ IH Hrun].
  - apply configured_wellFormed.
  - by eapply exec_wellFormed.
Qed.

(** Recovery ids are unique whenever the worker is about to run a task: in
    every state the manager can reach, with any part of the task queue
    taken off. *)
Lemma reachable_uniqueRecoveryIds cap sl tm mgr rest :
  reachable (configured cap sl tm) mgr →
  uniqueRecoveryIds (set_taskQueue mgr rest).
Proof.
  intros Hreach.
  by apply reachable_wellFormed, wellFormed_uniqueRecoveryIds in Hreach.
Qed.

(** Every operation keeps the crashed servers of the active set distinct
    and the active set within the cap. *)
Lemma exec_invariants op mgr mgr' :
  stateAfter (exec op mgr) = Some mgr' →
  uniqueCrashedServer (activeRecoveries mgr) ∧
  N.of_nat (size (activeRecoveries mgr)) ≤ maxActiveRecoveries mgr →
  uniqueCrashedServer (activeRecoveries mgr') ∧
  N.of_nat (size (activeRecoveries mgr')) ≤ maxActiveRecoveries mgr'.
Proof.
  intros Hrun [Huniq Hcap]. apply exec_effect in Hrun as [Hmax Heff].
  rewrite Hmax.
  destruct Heff as [Hw He Ha Hn|cr w ms Hw He Ha Hn|r ms rest -> Hq Hw He Ha Hn
                   |r -> Hw He Ha Hn|rest -> Hq ->];
    try (by rewrite Ha).
  - rewrite Ha. split.
    + intros k1 k2 o1 o2 [_ H1]%lookup_delete_Some
        [_ H2]%lookup_delete_Some. by apply Huniq.
    + rewrite map_size_delete.
      destruct (activeRecoveries mgr !! recoveryId r); unfold id; lia.
  - destruct (performTask_fields (set_taskQueue mgr rest))
      as (_ & -> & _). split.
    + by apply admissionLoop_uniqueCrashedServer.
    + by apply (admissionLoop_cap _ _ (set_taskQueue mgr rest)).
Qed.

Lemma reachable_invariants cap sl tm mgr :
  reachable (configured cap sl tm) mgr →
  maxActiveRecoveries mgr = cap ∧
  uniqueCrashedServer (activeRecoveries mgr) ∧
  N.of_nat (size (activeRecoveries mgr)) ≤ cap.
Proof.
  induction 1 as [|mgr op mgr' _ (Hmax & Huniq & Hcap) Hrun].
  - split; [done|]. split.
    + intros k1 k2 o1 o2 H1. cbn in H1. by rewrite lookup_empty in H1.
    + cbn. rewrite map_size_empty. lia.
  - destruct (exec_effect _ _ _ Hrun) as [Hmax' _].
    destruct (exec_invariants _ _ _ Hrun) as [Huniq' Hcap'].
    { by rewrite Hmax. }
    rewrite Hmax', Hmax in *. done.
Qed.

Lemma run_reachable ops : ∀ init mgr mgr',
  reachable init mgr → run ops mgr = Some mgr' → reachable init mgr'.
Proof.
  induction ops as [|op ops IH]; intros init mgr mgr' Hreach Hrun.
  - cbn in Hrun. by simplify_eq.
  - cbn in Hrun. destruct (stateAfter (exec op mgr)) as [mgr1|] eqn:Hop;
      [|done].
    eapply IH; [|exact Hrun]. by eapply reachable_step.
Qed.

Lemma scenario_reachable :
  reachable (configured 2 servers0 tablets0) scenario.
Proof.
  eapply (run_reachable
            [OpStartMasterRecovery 7; OpPerformTask; OpPerformTask]).
  - apply reachable_init.
  - by vm_compute.
Qed.

(** ** Properties of the specification *)

Lemma recoveryId_inj_on (l : list Recovery) x y :
  NoDup (recoveryId <$> l) → x ∈ l → y ∈ l →
  recoveryId x = recoveryId y → x = y.
Proof.
  induction l as [|z l IH]; intros Hdup Hx Hy Hid.
  { by apply elem_of_nil in Hx. }
  cbn in Hdup. apply NoDup_cons in Hdup as [Hz Hdup].
  apply elem_of_cons in Hx as [->|Hx]; apply elem_of_cons in Hy as [->|Hy].
  - done.
  - destruct Hz. rewrite Hid. by apply list_elem_of_fmap_2.
  - destruct Hz. rewrite <- Hid. by apply list_elem_of_fmap_2.
  - by apply IH.
Qed.

(** C1. One run of the MaybeStartRecovery task on a manager whose recovery
    ids are unique, as they are whenever the worker runs a task
    ([reachable_uniqueRecoveryIds]).  The task considers a front run of the
    waiting queue in order and stops when the queue is empty or the active
    set is full.  A considered recovery is started exactly when no recovery
    active at that moment (active when the task began, or started earlier in
    this run) is for the same crashed server, and is deferred otherwise.
    Every started recovery is scheduled and is in activeRecoveries under its
    recoveryId.  The deferred ones are appended, in order, behind what was
    not considered.  So every recovery that was waiting is afterwards
    waiting or active. *)
Theorem admission_is_fifo_and_drops_nothing (mgr : MasterRecoveryManager) :
  uniqueRecoveryIds mgr →
  let mgr' := MaybeStartRecoveryTask.performTask mgr in
  ∃ considered untouched started deferred,
    waitingRecoveries mgr = considered ++ untouched ∧
    (untouched = [] ∨
     maxActiveRecoveries mgr ≤ N.of_nat (size (activeRecoveries mgr'))) ∧
    waitingRecoveries mgr' = untouched ++ deferred ∧
    started `sublist_of` considered ∧
    deferred `sublist_of` considered ∧
    considered ≡ₚ started ++ deferred ∧
    (∀ pre r post, considered = pre ++ r :: post →
       (r ∈ deferred ↔ blockedAt (activeRecoveries mgr) started pre r) ∧
       (r ∈ started ↔ ¬ blockedAt (activeRecoveries mgr) started pre r)) ∧
    (∀ r, r ∈ started →
       activeRecoveries mgr' !! recoveryId r = Some r ∧
       RecoveryTask r ∈ taskQueue mgr') ∧
    (∀ r, r ∈ waitingRecoveries mgr →
       r ∈ waitingRecoveries mgr' ∨
       activeRecoveries mgr' !! recoveryId r = Some r).
Proof.
  intros Hids mgr'. subst mgr'.
  destruct (performTask_spec mgr Hids)
    as (c & u & a & d & Hsplit & Hwait & Hperm & Hsa & Hsd & Hact & Hsched
        & Hchar & Hstop).
  exists c, u, a, d. destruct Hids as [Hdup _].
  assert (Hnd : NoDup (a ++ d)).
  { rewrite <- Hperm. apply NoDup_fmap_1 in Hdup. rewrite Hsplit in Hdup.
    by apply NoDup_app in Hdup as (? & _). }
  apply NoDup_app in Hnd as (_ & Hdisj & _).
  do 6 (split; [done|]). split; [|split].
  - intros pre r post Hdec. destruct (Hchar pre r post Hdec) as [Hb Hnb].
    split; split; try done.
    + intros Hd. destruct (decide (blockedAt (activeRecoveries mgr) a pre r))
        as [|Hn]; [done|]. destruct (Hdisj r); auto.
    + intros Ha Hbl. destruct (Hdisj r); auto.
  - intros r Hr. split; [|by apply Hsched]. apply Hact. by right.
  - intros r Hr. rewrite Hsplit in Hr. rewrite Hwait.
    apply elem_of_app in Hr as [Hr|Hr].
    + rewrite Hperm in Hr. apply elem_of_app in Hr as [Hr|Hr].
      * right. apply Hact. by right.
      * left. apply elem_of_app. by right.
    + left. apply elem_of_app. by left.
Qed.

(** C2. Between operations of a manager that started empty, no two
    entries of activeRecoveries are for the same crashedServerId; and when
    the worker runs the admission task, a waiting recovery that the task
    makes active is for a crashed server that no already-active recovery is
    for. *)
Theorem one_active_recovery_per_crashed_server
    (cap : N) (sl : CoordinatorServerList.t) (tm : gmap TabletKey Tablet)
    (mgr : MasterRecoveryManager) :
  reachable (configured cap sl tm) mgr →
  uniqueCrashedServer (activeRecoveries mgr) ∧
  ∀ mgr' r,
    admissionIsNext mgr →
    stateAfter (exec OpPerformTask mgr) = Some mgr' →
    r ∈ waitingRecoveries mgr →
    activeRecoveries mgr' !! recoveryId r = Some r →
    ¬ matchesActive (activeRecoveries mgr) r.
Proof.
  intros Hreach. split; [by eapply reachable_invariants|].
  apply reachable_wellFormed, wellFormed_uniqueRecoveryIds in Hreach.
  intros mgr' r [rest Hq] Hrun Hr Hadm Hmatch.
  cbn in Hrun. rewrite Hq in Hrun. cbn in Hrun. simplify_eq.
  set (m0 := set_taskQueue mgr rest) in *.
  destruct (performTask_spec m0 Hreach)
    as (c & u & a & d & Hsplit & Hwait & Hperm & Hsa & Hsd & Hact & Hsched
        & Hchar & _).
  destruct Hreach as [Hdup Hfresh].
  apply Hact in Hadm as [Hold|[Ha _]].
  { cbn in Hold. rewrite Hfresh in Hold; done. }
  assert (Hc : r ∈ c) by (by eapply elem_of_sublist).
  apply list_elem_of_split in Hc as (pre & post & Hdec).
  destruct (Hchar pre r post Hdec) as [Hb _].
  assert (Hd : r ∈ d) by (apply Hb; by left).
  assert (Hnd : NoDup (a ++ d)).
  { rewrite <- Hperm. apply NoDup_fmap_1 in Hdup. cbn in Hsplit.
    rewrite Hsplit in Hdup. by apply NoDup_app in Hdup as (? & _). }
  apply NoDup_app in Hnd as (_ & Hdisj & _). by destruct (Hdisj r).
Qed.

(** C3. Between operations of a manager configured with any cap (so also
    any cap of at least 1) and started empty, activeRecoveries holds at
    most maxActiveRecoveries entries; with the active set at the cap no
    task the worker runs, the admission task included, changes the active
    set; and the only operation after which the active set is larger is the
    worker running the admission task. *)
Theorem active_set_never_exceeds_cap
    (cap : N) (sl : CoordinatorServerList.t) (tm : gmap TabletKey Tablet)
    (mgr : MasterRecoveryManager) :
  reachable (configured cap sl tm) mgr →
  maxActiveRecoveries mgr = cap ∧
  N.of_nat (size (activeRecoveries mgr)) ≤ cap ∧
  (∀ mgr',
     cap ≤ N.of_nat (size (activeRecoveries mgr)) →
     stateAfter (exec OpPerformTask mgr) = Some mgr' →
     activeRecoveries mgr' = activeRecoveries mgr) ∧
  ∀ op mgr',
    stateAfter (exec op mgr) = Some mgr' →
    (size (activeRecoveries mgr) < size (activeRecoveries mgr'))%nat →
    op = OpPerformTask ∧ admissionIsNext mgr.
Proof.
  intros Hreach.
  destruct (reachable_invariants _ _ _ _ Hreach) as (Hmax & _ & Hcap).
  do 2 (split; [done|]). split.
  - intros mgr' Hfull Hrun. apply exec_effect in Hrun as [_ Heff].
    destruct Heff as [Hw He Ha Hn|cr w ms Hw He Ha Hn
                     |r ms rest _ Hq Hw He Ha Hn
                     |r Hop Hw He Ha Hn|rest _ Hq ->]; try done.
    destruct (performTask_fields (set_taskQueue mgr rest)) as (_ & -> & _).
    rewrite admissionLoop_at_cap; [done|]. cbn. by rewrite Hmax.
  - intros op mgr' Hrun Hgrow. apply exec_effect in Hrun as [_ Heff].
    destruct Heff as [Hw He Ha Hn|cr w ms Hw He Ha Hn
                     |r ms rest -> Hq Hw He Ha Hn
                     |r -> Hw He Ha Hn|rest -> Hq ->];
      try (rewrite Ha in Hgrow; lia).
    + rewrite Ha, map_size_delete in Hgrow.
      destruct (activeRecoveries mgr !! recoveryId r);
        unfold id in Hgrow; lia.
    + split; [done|]. by exists rest.
Qed.

(** C4. A RecoveryMasterFinished task with successful = true whose
    recoveryId is active makes one modifyTablet call per entry of
    recoveredTablets, in order, for the entry's key, owner server_id, status
    NORMAL and log head position.  If the key of some entry is absent from
    the Tablet Map the process dies.  Otherwise the task returns; every
    listed key then has status NORMAL, holds owner and log head position of
    the last entry listed for it, and keys not listed are as before. *)
Theorem successful_report_finalizes_tablets
    (recoveryId : N) (recoveryMasterId : ServerId)
    (recoveredTablets : ProtoBuf.Tablets) (mgr : MasterRecoveryManager)
    (recovery : Recovery) :
  activeRecoveries mgr !! recoveryId = Some recovery →
  let run :=
    RecoveryMasterFinishedTask.performTask recoveryId recoveryMasterId
      recoveredTablets true mgr in
  ((∃ tablet, tablet ∈ recoveredTablets ∧
              tabletMap mgr !! keyOf tablet = None) →
   run = Dies) ∧
  ((∀ tablet, tablet ∈ recoveredTablets →
              is_Some (tabletMap mgr !! keyOf tablet)) →
   ∃ mgr',
     run = Returns mgr' ∧
     trace mgr' =
       trace mgr ++ (modifyCall <$> recoveredTablets) ++
       [Call_recoveryMasterFinished recovery recoveryMasterId true] ∧
     (∀ tablet, tablet ∈ recoveredTablets →
        status <$> tabletMap mgr' !! keyOf tablet = Some NORMAL) ∧
     (∀ pre tablet post,
        recoveredTablets = pre ++ tablet :: post →
        (∀ later, later ∈ post → keyOf later ≠ keyOf tablet) →
        tabletMap mgr' !! keyOf tablet = Some (finalized tablet)) ∧
     (∀ key, (∀ tablet, tablet ∈ recoveredTablets → keyOf tablet ≠ key) →
        tabletMap mgr' !! key = tabletMap mgr !! key)).
Proof.
  intros Hactive run. subst run.
  unfold RecoveryMasterFinishedTask.performTask. rewrite Hactive.
  split.
  - intros (t & Ht & Hnone).
    by rewrite (updateTablets_absent _ _ t Ht Hnone).
  - intros Hall. rewrite updateTablets_present by done.
    eexists. split; [reflexivity|]. cbn.
    split; [by rewrite <- app_assoc|].
    split; [intros t Ht; by apply finalizeAll_status|].
    split.
    + intros pre t post -> Hpost. by apply finalizeAll_last.
    + intros key Hkey. by apply finalizeAll_other.
Qed.

(** C5. A RecoveryMasterFinished task with successful = false whose
    recoveryId is active returns with the Tablet Map as it was; it logs one
    warning and then calls recoveryMasterFinished(recoveryMasterId, false)
    on the Recovery filed under that id. *)
Theorem failed_report_leaves_tablet_map
    (recoveryId : N) (recoveryMasterId : ServerId)
    (recoveredTablets : ProtoBuf.Tablets) (mgr : MasterRecoveryManager)
    (recovery : Recovery) :
  activeRecoveries mgr !! recoveryId = Some recovery →
  ∃ mgr',
    RecoveryMasterFinishedTask.performTask recoveryId recoveryMasterId
      recoveredTablets false mgr = Returns mgr' ∧
    tabletMap mgr' = tabletMap mgr ∧
    trace mgr' =
      trace mgr ++
      [LOG WARNING "A recovery master failed to recover its partition" [];
       Call_recoveryMasterFinished recovery recoveryMasterId false].
Proof.
  intros Hactive. unfold RecoveryMasterFinishedTask.performTask.
  rewrite Hactive. eexists. split; [reflexivity|]. cbn.
  split; [done|]. by rewrite <- app_assoc.
Qed.

(** C6. A RecoveryMasterFinished task whose recoveryId is not active
    returns (it does not abort) after logging one message at error level;
    apart from that one trace entry the manager is as before: the same
    waiting queue, active set, Tablet Map, Server List, tracker and task
    queue, and no call on any Recovery, whatever successful and
    recoveredTablets are. *)
Theorem late_report_is_logged_and_dropped
    (recoveryId : N) (recoveryMasterId : ServerId)
    (recoveredTablets : ProtoBuf.Tablets) (successful : bool)
    (mgr : MasterRecoveryManager) :
  activeRecoveries mgr !! recoveryId = None →
  ∃ mgr' format,
    RecoveryMasterFinishedTask.performTask recoveryId recoveryMasterId
      recoveredTablets successful mgr = Returns mgr' ∧
    trace mgr' = trace mgr ++ [LOG ERROR format [recoveryId]] ∧
    mgr' = set_trace mgr (trace mgr') ∧
    waitingRecoveries mgr' = waitingRecoveries mgr ∧
    activeRecoveries mgr' = activeRecoveries mgr ∧
    tabletMap mgr' = tabletMap mgr ∧
    serverList mgr' = serverList mgr ∧
    tracker mgr' = tracker mgr ∧
    taskQueue mgr' = taskQueue mgr.
Proof.
  intros Habsent. unfold RecoveryMasterFinishedTask.performTask.
  rewrite Habsent. by eexists _, _.
Qed.

(** C7. recoveryFinished on a completely successful recovery removes the
    crashed server from the Server List, increments the version, sends the
    update that carries the removal and the new version to the cluster and
    schedules a MaybeStartRecovery task.  On a recovery that was not
    completely successful it leaves the Server List alone, sends nothing,
    and schedules exactly one EnqueueMasterRecovery task for a new Recovery
    with the same crashedServerId, will and minOpenSegmentId; the waiting
    queue gets its one new entry, that Recovery, when the task runs. *)
Theorem recoveryFinished_removes_server_or_requeues
    (recovery : Recovery) (mgr : MasterRecoveryManager) :
  (let mgr' := recoveryFinished recovery true mgr in
   let version' := CoordinatorServerList.version (serverList mgr) + 1 in
   CoordinatorServerList.entries (serverList mgr') =
     delete (crashedServerId recovery)
       (CoordinatorServerList.entries (serverList mgr)) ∧
   CoordinatorServerList.version (serverList mgr') = version' ∧
   trace mgr' =
     trace mgr ++
     [LOG NOTICE "Recovery completed for master %lu"
        [crashedServerId recovery];
      Call_sendMembershipUpdate
        (ProtoBuf.mkServerList [crashedServerId recovery] version') []] ∧
   taskQueue mgr' = taskQueue mgr ++ [MaybeStartRecoveryTask] ∧
   waitingRecoveries mgr' = waitingRecoveries mgr) ∧
  (let mgr' := recoveryFinished recovery false mgr in
   let fresh :=
     mkRecovery (nextRecoveryId mgr) (crashedServerId recovery)
       (will recovery) (minOpenSegmentId recovery) in
   serverList mgr' = serverList mgr ∧
   (∃ format,
      trace mgr' =
        trace mgr ++
        [LOG NOTICE "Recovery completed for master %lu"
           [crashedServerId recovery];
         LOG NOTICE format [crashedServerId recovery]]) ∧
   taskQueue mgr' =
     taskQueue mgr ++
     [EnqueueMasterRecoveryTask fresh (minOpenSegmentId recovery)] ∧
   waitingRecoveries mgr' = waitingRecoveries mgr ∧
   ∀ later,
     let later' := EnqueueMasterRecoveryTask.performTask fresh later in
     waitingRecoveries later' = waitingRecoveries later ++ [fresh] ∧
     taskQueue later' = taskQueue later ++ [MaybeStartRecoveryTask]).
Proof.
  split; cbn.
  - do 2 (split; [done|]). split; [by rewrite <- app_assoc|done].
  - split; [done|]. split; [|done].
    eexists. by rewrite <- app_assoc.
Qed.

(** C8. The ApplyTrackerChanges task, on a buffer processed ++ rest in
    which every crashed/removed event of [processed] finds a Recovery in
    the slot of its server when the drain reaches it, and [rest] is empty or
    begins with a crashed/removed event that finds none: the task calls
    recoveryMasterFinished(serverId, false) once per crashed/removed event
    of [processed], in arrival order, on the Recovery of the slot; it takes
    the first change of [rest] off the buffer without any call and leaves
    the changes behind it in the buffer; it changes nothing but the tracker
    and the trace. *)
Theorem tracker_drain_stops_at_first_unclaimed
    (mgr : MasterRecoveryManager)
    (processed rest : list (ServerDetails * ServerChangeEvent)) :
  let slots := RecoveryTracker.slots (tracker mgr) in
  RecoveryTracker.changes (tracker mgr) = processed ++ rest →
  NoDup (failures processed) →
  (∀ sid, sid ∈ failures processed → is_Some (slots !! sid)) →
  (rest = [] ∨
   ∃ change later,
     rest = change :: later ∧ unclaimed slots (failures processed) change) →
  let mgr' := ApplyTrackerChangesTask.performTask mgr in
  RecoveryTracker.changes (tracker mgr') = tail rest ∧
  trace mgr' = trace mgr ++ reports slots processed ∧
  (∀ sid, RecoveryTracker.slots (tracker mgr') !! sid =
          if decide (sid ∈ failures processed) then None else slots !! sid) ∧
  sameButTrackerAndTrace mgr mgr'.
Proof.
  intros slots Hbuf Hdup Hclaimed Hrest mgr'. subst slots mgr'.
  unfold ApplyTrackerChangesTask.performTask. rewrite Hbuf.
  by apply drain_spec.
Qed.

(** C9. While a recovery is in activeRecoveries under its id:
    recoveryFinished, in either branch, leaves activeRecoveries as it is;
    destroyAndFreeRecovery erases the entry and deletes the Recovery; no
    other operation makes the key disappear; and as long as the entry is
    there (recovery ids being unique) the admission task leaves every
    waiting recovery for the same crashedServerId waiting and does not make
    it active. *)
Theorem finished_recovery_stays_active_until_destroyed
    (finished : Recovery) (mgr : MasterRecoveryManager) :
  activeRecoveries mgr !! recoveryId finished = Some finished →
  (∀ ok, activeRecoveries (recoveryFinished finished ok mgr) =
         activeRecoveries mgr) ∧
  (let mgr' := destroyAndFreeRecovery finished mgr in
   activeRecoveries mgr' =
     delete (recoveryId finished) (activeRecoveries mgr) ∧
   activeRecoveries mgr' !! recoveryId finished = None ∧
   ∃ entry, trace mgr' = trace mgr ++ [entry; Delete_Recovery finished]) ∧
  (∀ op mgr',
     stateAfter (exec op mgr) = Some mgr' →
     activeRecoveries mgr' !! recoveryId finished = None →
     ∃ recovery,
       op = OpDestroyAndFreeRecovery recovery ∧
       recoveryId recovery = recoveryId finished) ∧
  (uniqueRecoveryIds mgr →
   ∀ second,
     second ∈ waitingRecoveries mgr →
     crashedServerId second = crashedServerId finished →
     let mgr' := MaybeStartRecoveryTask.performTask mgr in
     second ∈ waitingRecoveries mgr' ∧
     activeRecoveries mgr' !! recoveryId second = None).
Proof.
  intros Hactive. split; [|split; [|split]].
  - intros ok. unfold recoveryFinished. by destruct ok.
  - cbn. split; [done|]. split; [apply lookup_delete_eq|].
    eexists. by rewrite <- app_assoc.
  - intros op mgr' Hrun Hgone. apply exec_effect in Hrun as [_ Heff].
    destruct Heff as [Hw He Ha Hn|cr w ms Hw He Ha Hn
                     |r ms rest -> Hq Hw He Ha Hn
                     |r -> Hw He Ha Hn|rest -> Hq ->];
      try (rewrite Ha in Hgone; congruence).
    + exists r. split; [done|]. rewrite Ha in Hgone.
      apply lookup_delete_None in Hgone as [?|?]; congruence.
    + destruct (performTask_fields (set_taskQueue mgr rest))
        as (_ & Ha & _). rewrite Ha in Hgone.
      pose proof (admissionLoop_keeps_keys
        (waitingRecoveries (set_taskQueue mgr rest)) []
        (set_taskQueue mgr rest) (recoveryId finished)) as Hkeep.
      rewrite Hgone in Hkeep. destruct Hkeep as [? ?]; [by eexists|done].
  - intros Hids second Hwaiting Hsame mgr'. subst mgr'.
    destruct (performTask_spec mgr Hids)
      as (c & u & a & d & Hsplit & Hwait & Hperm & Hsa & Hsd & Hact & Hsched
          & Hchar & _).
    destruct Hids as [Hdup Hfresh].
    assert (Hnd : NoDup (a ++ d)).
    { rewrite <- Hperm. apply NoDup_fmap_1 in Hdup. rewrite Hsplit in Hdup.
      by apply NoDup_app in Hdup as (? & _). }
    apply NoDup_app in Hnd as (_ & Hdisj & _).
    assert (Hna : second ∉ a).
    { intros Ha.
      assert (Hc : second ∈ c) by (by eapply elem_of_sublist).
      apply list_elem_of_split in Hc as (pre & post & Hdec).
      destruct (Hchar pre second post Hdec) as [Hb _].
      destruct (Hdisj second Ha). apply Hb. left.
      by exists (recoveryId finished), finished. }
    split.
    + rewrite Hwait. rewrite Hsplit in Hwaiting.
      apply elem_of_app in Hwaiting as [Hc|Hu];
        apply elem_of_app; [right|by left].
      rewrite Hperm in Hc. by apply elem_of_app in Hc as [?|?].
    + destruct (activeRecoveries _ !! recoveryId second) as [o|] eqn:Ho;
        [|done].
      apply Hact in Ho as [Hold|[Ha Hid]].
      * rewrite Hfresh in Hold; done.
      * destruct Hna. replace second with o; [done|].
        eapply recoveryId_inj_on; [exact Hdup| |done|done].
        rewrite Hsplit. apply elem_of_app. left.
        by eapply elem_of_sublist.
Qed.

Lemma setStatusForServer_owned sid st tm key tablet :
  tm !! key = Some tablet → serverId tablet = sid →
  (TabletMap.setStatusForServer sid st tm).1 ≠ [].
Proof.
  intros Hkey Howner Hempty. cbn in Hempty.
  apply map_to_list_empty_iff in Hempty.
  eapply (map_filter_empty_not_lookup _ _ key) in Hempty; [destruct Hempty|].
  - rewrite lookup_fmap, Hkey. reflexivity.
  - cbn. unfold TabletMap.mark. by rewrite decide_True.
Qed.

(** C10. startMasterRecovery for a server that owns a tablet, while
    doNotStartRecoveries is set: whether the call returns or the server
    list lookup throws, every tablet of that server is RECOVERING in the
    Tablet Map afterwards and the other tablets are as before, while the
    task queue and the waiting queue are unchanged and no Recovery was
    created; the call returns when the server is in the server list. *)
Theorem startMasterRecovery_while_recoveries_suppressed
    (crashed : ServerId) (mgr : MasterRecoveryManager) :
  doNotStartRecoveries mgr = true →
  (∃ key tablet,
     tabletMap mgr !! key = Some tablet ∧ serverId tablet = crashed) →
  ∃ mgr',
    stateAfter (startMasterRecovery crashed mgr) = Some mgr' ∧
    (is_Some (CoordinatorServerList.entries (serverList mgr) !! crashed) →
     startMasterRecovery crashed mgr = Returns mgr') ∧
    (∀ key tablet,
       tabletMap mgr !! key = Some tablet → serverId tablet = crashed →
       tabletMap mgr' !! key =
         Some (mkTabletEntry crashed RECOVERING (ctime tablet))) ∧
    (∀ key tablet,
       tabletMap mgr !! key = Some tablet → serverId tablet ≠ crashed →
       tabletMap mgr' !! key = Some tablet) ∧
    taskQueue mgr' = taskQueue mgr ∧
    waitingRecoveries mgr' = waitingRecoveries mgr ∧
    nextRecoveryId mgr' = nextRecoveryId mgr.
Proof.
  intros Hflag (key0 & tablet0 & Hkey0 & Howner0).
  pose proof (setStatusForServer_owned crashed RECOVERING (tabletMap mgr)
                key0 tablet0 Hkey0 Howner0) as Hne.
  unfold startMasterRecovery.
  destruct (TabletMap.setStatusForServer crashed RECOVERING (tabletMap mgr))
    as [tablets tm] eqn:Hset.
  cbn in Hne. rewrite bool_decide_eq_false_2 by done.
  assert (Htm : tm = TabletMap.mark crashed RECOVERING <$> tabletMap mgr).
  { unfold TabletMap.setStatusForServer in Hset. by simplify_eq. }
  assert (Hmarked : ∀ key tablet,
            tabletMap mgr !! key = Some tablet →
            tm !! key = Some (TabletMap.mark crashed RECOVERING tablet)).
  { intros key tablet Hkey. by rewrite Htm, lookup_fmap, Hkey. }
  unfold restartMasterRecovery. cbn. rewrite Hflag.
  destruct (CoordinatorServerList.entries (serverList mgr) !! crashed)
    as [server|]; eexists; (split; [reflexivity|]); cbn.
  - split; [done|]. split; [|split; [|done]].
    + intros key tablet Hkey <-. rewrite (Hmarked _ _ Hkey).
      unfold TabletMap.mark. by rewrite decide_True.
    + intros key tablet Hkey Hother. rewrite (Hmarked _ _ Hkey).
      unfold TabletMap.mark. by rewrite decide_False.
  - split; [by intros [? ?]|]. split; [|split; [|done]].
    + intros key tablet Hkey <-. rewrite (Hmarked _ _ Hkey).
      unfold TabletMap.mark. by rewrite decide_True.
    + intros key tablet Hkey Hother. rewrite (Hmarked _ _ Hkey).
      unfold TabletMap.mark. by rewrite decide_False.
Qed.

(** ** The properties on the concrete runs *)

Lemma mgr0_uniqueRecoveryIds : uniqueRecoveryIds mgr0.
Proof.
  split.
  - apply (bool_decide_unpack _). by vm_compute.
  - intros r _. apply lookup_empty.
Defined.

Lemma mgr1_uniqueRecoveryIds : uniqueRecoveryIds mgr1.
Proof.
  split.
  - apply (bool_decide_unpack _). by vm_compute.
  - intros r Hr. apply list_elem_of_singleton in Hr. by subst r.
Defined.

(** C1 on [mgr0]: of the three waiting recoveries none is lost. *)
Lemma admission_is_fifo_and_drops_nothing_witness :
  uniqueRecoveryIds mgr0 ∧
  ∀ r, r ∈ waitingRecoveries mgr0 →
       r ∈ waitingRecoveries (MaybeStartRecoveryTask.performTask mgr0) ∨
       activeRecoveries (MaybeStartRecoveryTask.performTask mgr0)
         !! recoveryId r = Some r.
Proof.
  split; [exact mgr0_uniqueRecoveryIds|].
  destruct (admission_is_fifo_and_drops_nothing mgr0 mgr0_uniqueRecoveryIds)
    as (c & u & a & d & _ & _ & _ & _ & _ & _ & _ & _ & Hkept).
  exact Hkept.
Defined.

(** C2 on [scenario]. *)
Lemma one_active_recovery_per_crashed_server_witness :
  reachable (configured 2 servers0 tablets0) scenario ∧
  uniqueCrashedServer (activeRecoveries scenario).
Proof.
  split; [exact scenario_reachable|].
  exact (proj1 (one_active_recovery_per_crashed_server 2 servers0 tablets0
                  scenario scenario_reachable)).
Defined.

(** C3 on [scenario]. *)
Lemma active_set_never_exceeds_cap_witness :
  reachable (configured 2 servers0 tablets0) scenario ∧
  N.of_nat (size (activeRecoveries scenario)) ≤ 2.
Proof.
  split; [exact scenario_reachable|].
  exact (proj1 (proj2 (active_set_never_exceeds_cap 2 servers0 tablets0
                         scenario scenario_reachable))).
Defined.

(** C4 on [mgr1]: recovery master 5 reports both tablets of server 7. *)
Lemma successful_report_finalizes_tablets_witness :
  activeRecoveries mgr1 !! 0 = Some r1 ∧
  ∃ mgr',
    RecoveryMasterFinishedTask.performTask 0 5 recovered0 true mgr1 =
      Returns mgr' ∧
    tabletMap mgr' !! (1, 11, 20) = Some (mkTabletEntry 5 NORMAL (2, 3)) ∧
    tabletMap mgr' !! (2, 0, 99) = Some (mkTabletEntry 9 NORMAL (4, 4)).
Proof.
  split; [reflexivity|].
  destruct (successful_report_finalizes_tablets 0 5 recovered0 mgr1 r1
              eq_refl) as [_ Hok].
  destruct Hok as (mgr' & Hrun & _ & _ & Hlast & Hother).
  { intros tablet Hin. apply (bool_decide_unpack _).
    apply elem_of_cons in Hin as [->|Hin]; [by vm_compute|].
    apply list_elem_of_singleton in Hin. subst tablet. by vm_compute. }
  exists mgr'. split; [exact Hrun|]. split.
  - apply (Hlast [ProtoBuf.mkTablet 1 0 10 5 0 2 3]
             (ProtoBuf.mkTablet 1 11 20 5 0 2 3) [] eq_refl).
    intros later Hlater. by apply elem_of_nil in Hlater.
  - rewrite Hother; [reflexivity|].
    intros tablet Hin.
    apply elem_of_cons in Hin as [->|Hin]; [done|].
    apply list_elem_of_singleton in Hin. by subst tablet.
Defined.

(** C5 on [mgr1]. *)
Lemma failed_report_leaves_tablet_map_witness :
  activeRecoveries mgr1 !! 0 = Some r1 ∧
  ∃ mgr',
    RecoveryMasterFinishedTask.performTask 0 5 recovered0 false mgr1 =
      Returns mgr' ∧
    tabletMap mgr' = tablets0.
Proof.
  split; [reflexivity|].
  destruct (failed_report_leaves_tablet_map 0 5 recovered0 mgr1 r1 eq_refl)
    as (mgr' & Hrun & Htm & _).
  exists mgr'. split; [exact Hrun|exact Htm].
Defined.

(** C6 on [mgr1]: recovery 42 is not active. *)
Lemma late_report_is_logged_and_dropped_witness :
  activeRecoveries mgr1 !! 42 = None ∧
  ∃ mgr',
    RecoveryMasterFinishedTask.performTask 42 5 recovered0 true mgr1 =
      Returns mgr' ∧
    tabletMap mgr' = tablets0 ∧
    activeRecoveries mgr' = activeRecoveries mgr1.
Proof.
  split; [reflexivity|].
  destruct (late_report_is_logged_and_dropped 42 5 recovered0 true mgr1
              eq_refl)
    as (mgr' & format & Hrun & _ & _ & _ & Hactive & Htm & _).
  exists mgr'. split; [exact Hrun|]. split; [exact Htm|exact Hactive].
Defined.

(** C8 on [mgr1]: the drain reports the crash of server 5, passes the
    addition of server 6, stops at the removal of server 8, which no
    Recovery claims, and leaves the second crash of server 5 buffered. *)
Lemma tracker_drain_stops_at_first_unclaimed_witness :
  let mgr' := ApplyTrackerChangesTask.performTask mgr1 in
  RecoveryTracker.changes (tracker mgr') =
    [(mkServerDetails 5, SERVER_CRASHED)] ∧
  trace mgr' = [Call_recoveryMasterFinished r1 5 false].
Proof.
  destruct (tracker_drain_stops_at_first_unclaimed mgr1
              [(mkServerDetails 5, SERVER_CRASHED);
               (mkServerDetails 6, SERVER_ADDED)]
              [(mkServerDetails 8, SERVER_REMOVED);
               (mkServerDetails 5, SERVER_CRASHED)])
    as (Hbuf & Htrace & _).
  - reflexivity.
  - apply (bool_decide_unpack _). by vm_compute.
  - intros sid Hsid. apply list_elem_of_singleton in Hsid. subst sid.
    by exists r1.
  - right. eexists _, _. split; [reflexivity|]. split; [reflexivity|].
    left. reflexivity.
  - split; [exact Hbuf|exact Htrace].
Defined.

(** C9 on [mgr1]: r1 is active, r2 waits for the same server. *)
Lemma finished_recovery_stays_active_until_destroyed_witness :
  activeRecoveries mgr1 !! recoveryId r1 = Some r1 ∧
  activeRecoveries (recoveryFinished r1 false mgr1) = activeRecoveries mgr1 ∧
  r2 ∈ waitingRecoveries (MaybeStartRecoveryTask.performTask mgr1).
Proof.
  split; [reflexivity|].
  destruct (finished_recovery_stays_active_until_destroyed r1 mgr1 eq_refl)
    as (Hkeep & _ & _ & Hblocked).
  split; [exact (Hkeep false)|].
  apply (Hblocked mgr1_uniqueRecoveryIds r2); [left|reflexivity].
Defined.

(** C10 on [mgr1]: server 7 owns tablets and recoveries are suppressed. *)
Lemma startMasterRecovery_while_recoveries_suppressed_witness :
  doNotStartRecoveries mgr1 = true ∧
  (∃ key tablet,
     tabletMap mgr1 !! key = Some tablet ∧ serverId tablet = 7) ∧
  ∃ mgr',
    startMasterRecovery 7 mgr1 = Returns mgr' ∧
    tabletMap mgr' !! (1, 0, 10) = Some (mkTabletEntry 7 RECOVERING (0, 0)) ∧
    taskQueue mgr' = [] ∧
    waitingRecoveries mgr' = [r2].
Proof.
  assert (Howned : ∃ key tablet,
            tabletMap mgr1 !! key = Some tablet ∧ serverId tablet = 7).
  { exists (1, 0, 10), (mkTabletEntry 7 NORMAL (0, 0)). by split. }
  split; [reflexivity|]. split; [exact Howned|].
  destruct (startMasterRecovery_while_recoveries_suppressed 7 mgr1 eq_refl
              Howned)
    as (mgr' & _ & Hret & Hmarked & _ & Hq & Hw & _).
  exists mgr'. split; [apply Hret; by eexists|]. split.
  - exact (Hmarked (1, 0, 10) (mkTabletEntry 7 NORMAL (0, 0)) eq_refl
             eq_refl).
  - split; [exact Hq|exact Hw].
Defined.

(** ** The scenarios of the specification, run on the model *)

(** Empty-tablet crash: server 3 owns no tablet; nothing is enqueued and
    the Tablet Map stays as it is. *)
Example scenario_empty_tablet_crash :
  startMasterRecovery 3 (configured 1 servers0 tablets0) =
    Returns
      (emit (LOG NOTICE "Server %lu crashed, but it had no tablets" [3])
         (configured 1 servers0 tablets0)).
Proof. by vm_compute. Qed.

(** Single successful recovery: server 7 crashes, its recovery is admitted,
    recovery master 5 reports both tablets, the recovery finishes and is
    freed.  Both tablets belong to 5 and are NORMAL, server 7 has left the
    server list and the active set is empty. *)
Example scenario_single_successful_recovery :
  (λ mgr, (tabletMap mgr !! (1, 0, 10), tabletMap mgr !! (1, 11, 20),
           CoordinatorServerList.entries (serverList mgr) !! 7,
           activeRecoveries mgr, waitingRecoveries mgr)) <$>
    run [OpStartMasterRecovery 7; OpPerformTask; OpPerformTask;
         OpPerformTask; OpRecoveryMasterFinished 0 5 recovered0 true;
         OpPerformTask; OpRecoveryFinished r1 true;
         OpDestroyAndFreeRecovery r1; OpPerformTask]
      (configured 1 servers0 tablets0) =
  Some (Some (mkTabletEntry 5 NORMAL (2, 3)),
        Some (mkTabletEntry 5 NORMAL (2, 3)), None, ∅, []).
Proof. by vm_compute. Qed.

(** Parallelism cap: with room for one, of two recoveries for servers 7
    and 9 the first is active and the second waits; once the first is done
    and freed, the next admission task starts the second. *)
Example scenario_parallelism_cap :
  let crashes :=
    [OpStartMasterRecovery 7; OpStartMasterRecovery 9; OpPerformTask;
     OpPerformTask; OpPerformTask; OpPerformTask] in
  let view mgr := (activeRecoveries mgr, waitingRecoveries mgr) in
  view <$> run crashes (configured 1 servers1 tablets0) =
    Some (<[0 := r1]> ∅, [mkRecovery 1 9 [] 0]) ∧
  view <$>
    run (crashes ++
         [OpPerformTask; OpRecoveryFinished r1 true;
          OpDestroyAndFreeRecovery r1; OpPerformTask])
      (configured 1 servers1 tablets0) =
    Some (<[1 := mkRecovery 1 9 [] 0]> ∅, []).
Proof. by vm_compute. Qed.

(** Duplicate-server suppression: the recovery of server 7 fails partly and
    requeues itself; the new recovery is deferred while the old one is
    active.  After the old one is freed, the next admission task (here the
    one that follows the crash of server 9) starts it. *)
Example scenario_duplicate_server_suppression :
  let failed :=
    [OpStartMasterRecovery 7; OpPerformTask; OpPerformTask; OpPerformTask;
     OpRecoveryFinished r1 false; OpPerformTask; OpPerformTask] in
  let view mgr := (activeRecoveries mgr, waitingRecoveries mgr) in
  view <$> run failed (configured 2 servers1 tablets0) =
    Some (<[0 := r1]> ∅, [r2]) ∧
  view <$>
    run (failed ++
         [OpDestroyAndFreeRecovery r1; OpStartMasterRecovery 9;
          OpPerformTask; OpPerformTask])
      (configured 2 servers1 tablets0) =
    Some (<[1 := r2]> (<[2 := r3]> ∅), []).
Proof. by vm_compute. Qed.

(** Recovery-master failure via membership: r1 uses server 5; the tracker
    reports the crash of 5; the Recovery is told that 5 failed. *)
Example scenario_recovery_master_crash :
  (λ mgr, trace mgr) <$>
    run [OpRecoveryClaims r1 5;
         OpTrackerChange (mkServerDetails 5) SERVER_CRASHED; OpPerformTask]
      (set_activeRecoveries (configured 1 servers0 tablets0)
         (<[0 := r1]> ∅)) =
  Some [Call_recoveryMasterFinished r1 5 false].
Proof. by vm_compute. Qed.

(** Late completion report: recovery 0 is long gone; one error is logged
    and nothing else changes. *)
Example scenario_late_completion_report :
  let mgr := configured 1 servers0 tablets0 in
  (λ mgr', set_trace mgr' []) <$>
    run [OpRecoveryMasterFinished 0 5 recovered0 true; OpPerformTask] mgr =
  Some mgr.
Proof. by vm_compute. Qed.

(** * Further properties of the manager *)

(** ** A crash of a server without tablets *)

Lemma setStatusForServer_none (sid : ServerId) (st : TabletStatus)
    (tm : gmap TabletKey Tablet) :
  (∀ key tablet, tm !! key = Some tablet → serverId tablet ≠ sid) →
  TabletMap.setStatusForServer sid st tm = ([], tm).
Proof.
  intros Hnone. unfold TabletMap.setStatusForServer.
  assert (Hsame : TabletMap.mark sid st <$> tm = tm).
  { apply map_eq. intros key. rewrite lookup_fmap.
    destruct (tm !! key) as [tablet|] eqn:Hkey; [|done]. cbn.
    unfold TabletMap.mark. by rewrite decide_False by eauto. }
  rewrite Hsame. f_equal. apply map_to_list_empty_iff.
  apply map_eq. intros key. rewrite lookup_empty.
  apply map_lookup_filter_None. right. intros tablet Hkey. cbn. eauto.
Qed.

(** X1: when no tablet of the Tablet Map belongs to the crashed server,
    [startMasterRecovery] returns normally and does nothing but log
    "Server %lu crashed, but it had no tablets": no task is scheduled, no
    Recovery is created, the Tablet Map, the server list and the flag
    [doNotStartRecoveries] are not even looked at further. *)
Theorem startMasterRecovery_without_tablets
    (crashed : ServerId) (mgr : MasterRecoveryManager) :
  (∀ key tablet,
     tabletMap mgr !! key = Some tablet → serverId tablet ≠ crashed) →
  startMasterRecovery crashed mgr =
    Returns
      (emit (LOG NOTICE "Server %lu crashed, but it had no tablets"
               [crashed]) mgr).
Proof.
  intros Hnone. unfold startMasterRecovery.
  rewrite setStatusForServer_none by done. cbn. by destruct mgr.
Qed.

(** ** The admission task *)

(** X2: with nothing waiting the admission task changes nothing at all, and
    with the active set at its cap (or above) it starts and defers nothing:
    the only thing it does is to log how many recoveries are blocked. *)
Theorem admission_without_room_is_idle (mgr : MasterRecoveryManager) :
  waitingRecoveries mgr = [] ∨
  maxActiveRecoveries mgr ≤ N.of_nat (size (activeRecoveries mgr)) →
  MaybeStartRecoveryTask.performTask mgr =
    if decide (waitingRecoveries mgr = []) then mgr
    else
      emit (LOG NOTICE "%lu recoveries blocked waiting for other recoveries"
              [N.of_nat (length (waitingRecoveries mgr))]) mgr.
Proof.
  intros Hidle. unfold MaybeStartRecoveryTask.performTask.
  assert (Hloop : MaybeStartRecoveryTask.admissionLoop
                    (waitingRecoveries mgr) [] mgr = ([], mgr)).
  { destruct Hidle as [->|Hfull]; [done|]. by apply admissionLoop_at_cap. }
  rewrite Hloop. cbn. rewrite app_nil_r.
  destruct mgr as [sl tm waiting active cap queue tr flag next log]. cbn.
  destruct waiting as [|r rest]; cbn; [done|].
  rewrite decide_False by done. done.
Qed.

Section AdmissionRuns.
Import MaybeStartRecoveryTask.

(** When every waiting recovery is blocked and there is room, the loop
    defers them all and touches nothing but the queue and the trace. *)
Lemma admissionLoop_all_blocked waiting : ∀ aa mgr,
  N.of_nat (size (activeRecoveries mgr)) < maxActiveRecoveries mgr →
  (∀ r, r ∈ waiting → matchesActive (activeRecoveries mgr) r) →
  ∃ log,
    admissionLoop waiting aa mgr =
      (aa ++ waiting,
       set_trace
         (set_waitingRecoveries mgr
            (if decide (waiting = []) then waitingRecoveries mgr else []))
         (trace mgr ++ log)).
Proof.
  induction waiting as [|r rest IH]; intros aa mgr Hroom Hblocked.
  { exists []. cbn. rewrite !app_nil_r. by destruct mgr. }
  rewrite admissionLoop_cons.
  apply N.ltb_lt in Hroom as Hroom'. rewrite Hroom'.
  assert (Hr : serverAlreadyRecovering r mgr = true).
  { apply serverAlreadyRecovering_true, Hblocked. left. }
  rewrite Hr.
  destruct (IH (aa ++ [r]) (deferStep r rest mgr)) as [log Hloop].
  { exact Hroom. }
  { intros x Hx. apply Hblocked. by right. }
  rewrite Hloop. eexists. rewrite <- app_assoc. cbn. f_equal.
  rewrite (decide_False (P := r :: rest = [])) by done.
  rewrite <- app_assoc. by case_decide; subst.
Qed.

(** After a run, everything the run deferred matches an active recovery. *)
Lemma performTask_deferred_blocked mgr :
  uniqueRecoveryIds mgr →
  maxActiveRecoveries mgr
    ≤ N.of_nat (size (activeRecoveries (performTask mgr))) ∨
  ∀ r, r ∈ waitingRecoveries (performTask mgr) →
       matchesActive (activeRecoveries (performTask mgr)) r.
Proof.
  intros Hids.
  destruct (performTask_spec mgr Hids)
    as (c & u & a & d & Hsplit & Hwait & Hperm & Hsa & Hsd & Hact & Hsched
        & Hchar & Hstop).
  destruct Hstop as [->|Hfull]; [right|by left].
  destruct Hids as [Hdup _].
  assert (Hnd : NoDup (a ++ d)).
  { rewrite <- Hperm. apply NoDup_fmap_1 in Hdup. rewrite Hsplit in Hdup.
    by apply NoDup_app in Hdup as (? & _). }
  apply NoDup_app in Hnd as (_ & Hdisj & _).
  intros r Hr. rewrite Hwait in Hr. cbn in Hr.
  assert (Hc : r ∈ c) by (by eapply elem_of_sublist).
  apply list_elem_of_split in Hc as (pre & post & Hdec).
  destruct (Hchar pre r post Hdec) as [_ Hnb].
  destruct (decide (blockedAt (activeRecoveries mgr) a pre r))
    as [[(k & o & Hk & Hcs)|(o & _ & Ho & Hcs)]|Hfree].
  - exists k, o. split; [|done]. apply Hact. by left.
  - exists (recoveryId o), o. split; [|done]. apply Hact. by right.
  - destruct (Hdisj r); auto.
Qed.

(** X3: running the admission task a second time right after a run starts
    nothing and reorders nothing: the waiting queue, the active set and the
    task queue are those the first run left, and the two states differ at
    most in the log (the deferrals are logged again). *)
Theorem second_admission_run_starts_nothing (mgr : MasterRecoveryManager) :
  uniqueRecoveryIds mgr →
  let once := performTask mgr in
  let twice := performTask once in
  waitingRecoveries twice = waitingRecoveries once ∧
  activeRecoveries twice = activeRecoveries once ∧
  taskQueue twice = taskQueue once ∧
  set_trace twice (trace once) = once.
Proof.
  intros Hids once twice. subst twice.
  assert (Hmax : maxActiveRecoveries once = maxActiveRecoveries mgr).
  { unfold once. by destruct (performTask_fields mgr) as (_ & _ & _ & -> & _). }
  assert (Hloop : ∃ log,
    admissionLoop (waitingRecoveries once) [] once =
      (if decide (N.of_nat (size (activeRecoveries once))
                    < maxActiveRecoveries once)
       then waitingRecoveries once else [],
       set_trace
         (set_waitingRecoveries once
            (if decide (N.of_nat (size (activeRecoveries once))
                          < maxActiveRecoveries once)
             then [] else waitingRecoveries once))
         (trace once ++ log))).
  { case_decide as Hroom.
    - destruct (performTask_deferred_blocked mgr Hids) as [Hfull|Hblocked].
      { fold once in Hfull. rewrite Hmax in Hroom. lia. }
      destruct (admissionLoop_all_blocked (waitingRecoveries once) [] once
                  Hroom Hblocked) as [log Hl].
      exists log. rewrite Hl. cbn. f_equal. by case_decide as Hw; rewrite ?Hw.
    - exists []. rewrite admissionLoop_at_cap by lia.
      rewrite app_nil_r. by destruct once. }
  destruct Hloop as [log Hloop]. clearbody once.
  unfold performTask. rewrite Hloop. clear Hloop.
  destruct once as [sl tm waiting active cap queue tr flag next log0].
  cbn in *. case_decide; rewrite ?app_nil_r; cbn;
    by destruct (0 <? _).
Qed.

Lemma admissionLoop_unblocked waiting : ∀ aa mgr,
  waitingRecoveries mgr = waiting →
  NoDup (recoveryId <$> waiting) →
  (∀ r, r ∈ waiting → activeRecoveries mgr !! recoveryId r = None) →
  NoDup (crashedServerId <$> waiting) →
  (∀ r, r ∈ waiting → ¬ matchesActive (activeRecoveries mgr) r) →
  let loop := admissionLoop waiting aa mgr in
  let n := freeSlots mgr in
  loop.1 = aa ∧
  waitingRecoveries loop.2 = drop n waiting ∧
  (∀ k o, activeRecoveries loop.2 !! k = Some o ↔
          activeRecoveries mgr !! k = Some o ∨
          (o ∈ take n waiting ∧ k = recoveryId o)) ∧
  (∀ r, r ∈ take n waiting → RecoveryTask r ∈ taskQueue loop.2).
Proof.
  induction waiting as [|r rest IH];
    intros aa mgr Hw Hdup Hfresh Hservers Hfree; cbv zeta.
  { cbn. rewrite drop_nil, take_nil. split; [done|]. split; [done|].
    split; [|by intros ? []%elem_of_nil].
    intros k o. split; [by left|]. by intros [?|[[]%elem_of_nil _]]. }
  rewrite admissionLoop_cons. unfold freeSlots.
  destruct (_ <? _) eqn:Hroom.
  - apply N.ltb_lt in Hroom.
    assert (Hsar : serverAlreadyRecovering r mgr = false).
    { apply serverAlreadyRecovering_false, Hfree. left. }
    rewrite Hsar.
    cbn in Hdup, Hservers.
    apply NoDup_cons in Hdup as [Hr Hdup].
    apply NoDup_cons in Hservers as [Hs Hservers].
    destruct (startStep_fields r rest mgr)
      as (Hact1 & Hwait1 & Hmax1 & _ & _ & _ & _ & _ & Hin1 & _).
    assert (Hnone : activeRecoveries mgr !! recoveryId r = None)
      by (apply Hfresh; left).
    destruct (IH aa (startStep r rest mgr)) as (Haa & Hwait & Hact & Hsched).
    + done.
    + done.
    + intros x Hx. rewrite Hact1, lookup_insert_ne.
      * apply Hfresh. by right.
      * intros Heq. apply Hr. rewrite Heq. by apply list_elem_of_fmap_2.
    + done.
    + intros x Hx (k & o & Hk & Hcs). rewrite Hact1 in Hk.
      apply lookup_insert_Some in Hk as [[<- <-]|[_ Hk]].
      * apply Hs. rewrite Hcs. by apply list_elem_of_fmap_2.
      * apply (Hfree x); [by right|]. by exists k, o.
    + assert (Hn : (N.to_nat (maxActiveRecoveries mgr)
                     - size (activeRecoveries mgr))%nat =
                   S (freeSlots (startStep r rest mgr))).
      { unfold freeSlots. rewrite Hact1, Hmax1.
        rewrite map_size_insert_None by done. lia. }
      rewrite Hn. cbn [drop take]. split; [done|]. split; [done|]. split.
      * intros k o. rewrite Hact, Hact1, lookup_insert_Some. split.
        -- intros [[[<- <-]|[_ Hk]]|[Ho ->]].
           ++ right. split; [left|done].
           ++ by left.
           ++ right. split; [by right|done].
        -- intros [Hk|[[->|Ho]%elem_of_cons ->]].
           ++ left. right. split; [congruence|done].
           ++ left. by left.
           ++ by right.
      * intros x [->|Hx]%elem_of_cons; [|by apply Hsched].
        by apply admissionLoop_frame.
  - apply N.ltb_ge in Hroom.
    replace (N.to_nat (maxActiveRecoveries mgr)
               - size (activeRecoveries mgr))%nat with 0%nat by lia.
    cbn. split; [done|]. split; [done|].
    split; [|by intros ? []%elem_of_nil].
    intros k o. split; [by left|]. by intros [?|[[]%elem_of_nil _]].
Qed.

(** X4: when the waiting recoveries are for pairwise different crashed
    servers, none of which has an active recovery, the admission task
    starts exactly the first [freeSlots mgr] of them, in queue order: they
    are added to the active set under their ids and scheduled, nothing else
    enters the active set, and the rest stays on the waiting queue in its
    order. *)
Theorem admission_starts_the_first_free (mgr : MasterRecoveryManager) :
  uniqueRecoveryIds mgr →
  NoDup (crashedServerId <$> waitingRecoveries mgr) →
  (∀ r, r ∈ waitingRecoveries mgr →
        ¬ matchesActive (activeRecoveries mgr) r) →
  let mgr' := performTask mgr in
  let started := take (freeSlots mgr) (waitingRecoveries mgr) in
  waitingRecoveries mgr' = drop (freeSlots mgr) (waitingRecoveries mgr) ∧
  (∀ k o, activeRecoveries mgr' !! k = Some o ↔
          activeRecoveries mgr !! k = Some o ∨
          (o ∈ started ∧ k = recoveryId o)) ∧
  (∀ r, r ∈ started → RecoveryTask r ∈ taskQueue mgr').
Proof.
  intros [Hdup Hfresh] Hservers Hfree. cbv zeta.
  destruct (performTask_fields mgr) as (-> & -> & -> & _).
  destruct (admissionLoop_unblocked (waitingRecoveries mgr) [] mgr eq_refl
              Hdup Hfresh Hservers Hfree) as (-> & -> & Hact & Hsched).
  by rewrite app_nil_r.
Qed.

End AdmissionRuns.

(** ** A report that arrives twice *)

Lemma finalizeAll_present tablets : ∀ (tm : gmap TabletKey Tablet) key,
  is_Some (tm !! key) → is_Some (finalizeAll tablets tm !! key).
Proof.
  induction tablets as [|t ts IH]; intros tm key Hkey; [done|].
  cbn. apply IH. rewrite lookup_insert. case_decide; eauto.
Qed.

(** The last entry listed for a key. *)
Lemma last_entry_for_key (tablets : ProtoBuf.Tablets) (key : TabletKey) :
  (∃ tablet, tablet ∈ tablets ∧ keyOf tablet = key) →
  ∃ pre tablet post,
    tablets = pre ++ tablet :: post ∧ keyOf tablet = key ∧
    ∀ later, later ∈ post → keyOf later ≠ key.
Proof.
  induction tablets as [|t ts IH] using rev_ind.
  { by intros (? & []%elem_of_nil & _). }
  intros (x & Hx & Hkey).
  destruct (decide (keyOf t = key)) as [Ht|Ht].
  - exists ts, t, []. split; [done|]. split; [done|].
    by intros ? []%elem_of_nil.
  - destruct IH as (pre & y & post & -> & Hy & Hpost).
    { exists x. split; [|done].
      apply elem_of_app in Hx as [?|Hx]; [done|].
      apply list_elem_of_singleton in Hx. congruence. }
    exists pre, y, (post ++ [t]). split; [by rewrite <- app_assoc|].
    split; [done|]. intros later [?|Hl]%elem_of_app; [by apply Hpost|].
    apply list_elem_of_singleton in Hl. congruence.
Qed.

Lemma finalizeAll_idempotent (tablets : ProtoBuf.Tablets)
    (tm : gmap TabletKey Tablet) :
  finalizeAll tablets (finalizeAll tablets tm) = finalizeAll tablets tm.
Proof.
  apply map_eq. intros key.
  destruct (decide (Exists (λ tablet, keyOf tablet = key) tablets))
    as [Hlisted|Hnot].
  - apply Exists_exists in Hlisted.
    destruct (last_entry_for_key tablets key)
      as (pre & t & post & -> & <- & Hpost).
    { destruct Hlisted as (x & Hx & Hk). by exists x. }
    by rewrite !finalizeAll_last.
  - rewrite !finalizeAll_other; [done| |];
      intros t Ht Hk; apply Hnot, Exists_exists; by exists t.
Qed.

Lemma updateTablets_Some_present tablets : ∀ mgr mgr',
  RecoveryMasterFinishedTask.updateTablets tablets mgr = Some mgr' →
  ∀ tablet, tablet ∈ tablets → is_Some (tabletMap mgr !! keyOf tablet).
Proof.
  intros mgr mgr' Hrun t Ht.
  destruct (tabletMap mgr !! keyOf t) eqn:Hkey; [done|].
  by rewrite (updateTablets_absent _ _ t Ht Hkey) in Hrun.
Qed.

(** X5: a successful report of a recovery master that is delivered a second
    time is harmless for the Tablet Map: when the first
    [RecoveryMasterFinishedTask] for an active recovery returned, running
    the same task again returns too and leaves the Tablet Map exactly as
    the first run left it. *)
Theorem repeated_successful_report_changes_nothing
    (recoveryId : N) (recoveryMasterId : ServerId)
    (recoveredTablets : ProtoBuf.Tablets)
    (mgr once : MasterRecoveryManager) :
  is_Some (activeRecoveries mgr !! recoveryId) →
  RecoveryMasterFinishedTask.performTask recoveryId recoveryMasterId
    recoveredTablets true mgr = Returns once →
  ∃ twice,
    RecoveryMasterFinishedTask.performTask recoveryId recoveryMasterId
      recoveredTablets true once = Returns twice ∧
    tabletMap twice = tabletMap once.
Proof.
  intros [recovery Hactive] Hrun.
  unfold RecoveryMasterFinishedTask.performTask in *.
  rewrite Hactive in Hrun.
  destruct (RecoveryMasterFinishedTask.updateTablets recoveredTablets mgr)
    as [mgr1|] eqn:Hup; [|done].
  pose proof (updateTablets_Some_present _ _ _ Hup) as Hpresent.
  rewrite updateTablets_present in Hup by done. simplify_eq. cbn.
  rewrite Hactive.
  rewrite updateTablets_present.
  - eexists. split; [reflexivity|]. cbn. apply finalizeAll_idempotent.
  - intros t Ht. cbn. by apply finalizeAll_present, Hpresent.
Qed.

(** ** Draining the tracker *)

Lemma reports_origin slots processed e :
  e ∈ reports slots processed →
  ∃ recovery server event,
    e = Call_recoveryMasterFinished recovery (details_serverId server) false ∧
    slots !! details_serverId server = Some recovery ∧
    (server, event) ∈ processed ∧
    ApplyTrackerChangesTask.isCrashedOrRemoved event = true.
Proof.
  induction processed as [|[server event] rest IH]; cbn.
  { by intros []%elem_of_nil. }
  destruct (ApplyTrackerChangesTask.isCrashedOrRemoved event) eqn:Hev.
  - destruct (slots !! details_serverId server) as [recovery|] eqn:Hslot.
    + intros [->|He]%elem_of_cons.
      * exists recovery, server, event. repeat split; try done. left.
      * destruct (IH He) as (r & s & ev & ? & ? & ? & ?).
        exists r, s, ev. repeat split; try done. by right.
    + intros He. destruct (IH He) as (r & s & ev & ? & ? & ? & ?).
      exists r, s, ev. repeat split; try done. by right.
  - intros He. destruct (IH He) as (r & s & ev & ? & ? & ? & ?).
    exists r, s, ev. repeat split; try done. by right.
Qed.

(** X6: whatever the tracker has buffered, [ApplyTrackerChangesTask] only
    consumes a prefix of the buffer and leaves the rest in order; every call
    it makes is [recoveryMasterFinished(server, false)] on the Recovery
    that the slot of a consumed crashed or removed server pointed to, so it
    never reports a success and never reports for an added server; it sets
    no slot, and it touches nothing of the manager but the tracker. *)
Theorem tracker_drain_only_reports_failures (mgr : MasterRecoveryManager) :
  let mgr' := ApplyTrackerChangesTask.performTask mgr in
  let slots := RecoveryTracker.slots (tracker mgr) in
  ∃ consumed calls,
    RecoveryTracker.changes (tracker mgr) =
      consumed ++ RecoveryTracker.changes (tracker mgr') ∧
    trace mgr' = trace mgr ++ calls ∧
    (∀ e, e ∈ calls →
       ∃ recovery server event,
         e = Call_recoveryMasterFinished recovery (details_serverId server)
               false ∧
         slots !! details_serverId server = Some recovery ∧
         (server, event) ∈ consumed ∧
         (event = SERVER_CRASHED ∨ event = SERVER_REMOVED)) ∧
    (∀ sid recovery,
       RecoveryTracker.slots (tracker mgr') !! sid = Some recovery →
       slots !! sid = Some recovery) ∧
    sameButTrackerAndTrace mgr mgr'.
Proof.
  cbv zeta.
  destruct (drain_splits mgr) as (processed & rest & Hbuf & Hdup & Hcl & Hrest).
  unfold ApplyTrackerChangesTask.performTask. rewrite Hbuf.
  destruct (drain_spec processed rest mgr Hbuf Hdup Hcl Hrest)
    as (Hc & Ht & Hs & Hf).
  exists (processed ++ take 1 rest),
    (reports (RecoveryTracker.slots (tracker mgr)) processed).
  split; [|split; [done|split; [|split; [|done]]]].
  - rewrite Hc, <- app_assoc. f_equal. by destruct rest.
  - intros e He. apply reports_origin in He as (r & s & ev & ? & ? & ? & Hev).
    exists r, s, ev. repeat split; try done.
    + apply elem_of_app. by left.
    + unfold ApplyTrackerChangesTask.isCrashedOrRemoved in Hev.
      by apply bool_decide_eq_true in Hev.
  - intros sid r. rewrite Hs. by case_decide.
Qed.

Lemma drain_withoutAdded pending : ∀ mgr,
  RecoveryTracker.changes (tracker mgr) = pending →
  ApplyTrackerChangesTask.drain (withoutAdded pending)
    (withChanges mgr (withoutAdded pending)) =
  withChanges (ApplyTrackerChangesTask.drain pending mgr)
    (withoutAdded
       (RecoveryTracker.changes
          (tracker (ApplyTrackerChangesTask.drain pending mgr)))).
Proof.
  induction pending as [|[server event] rest IH]; intros mgr Hbuf.
  { cbn. by rewrite Hbuf. }
  unfold withoutAdded. rewrite filter_cons. cbn [snd].
  destruct (ApplyTrackerChangesTask.isCrashedOrRemoved event) eqn:Hev.
  - rewrite decide_True by done. cbn. rewrite Hev.
    destruct (RecoveryTracker.slots (tracker mgr) !! details_serverId server)
      as [recovery|] eqn:Hslot; [|done].
    set (mgr1 := Recovery_recoveryMasterFinished recovery
                   (details_serverId server) false
                   (set_tracker mgr
                      (RecoveryTracker.mk rest
                         (RecoveryTracker.slots (tracker mgr))))).
    etrans; [|exact (IH mgr1 eq_refl)].
    f_equal.
  - rewrite decide_False by done.
    cbn. rewrite Hev.
    set (mgr1 := set_tracker mgr _).
    etrans; [|exact (IH mgr1 eq_refl)].
    f_equal.
Qed.

(** X7: SERVER_ADDED changes play no part in the drain. Running
    [ApplyTrackerChangesTask] on a buffer from which the added-server
    events were removed gives the state the task reaches on the full
    buffer, up to the added-server events that are left in the buffer: the
    same calls in the same order, the same slots, and the same crashed and
    removed events left over. *)
Theorem added_servers_do_not_matter (mgr : MasterRecoveryManager) :
  let buffered := RecoveryTracker.changes (tracker mgr) in
  let mgr' := ApplyTrackerChangesTask.performTask mgr in
  ApplyTrackerChangesTask.performTask (withChanges mgr (withoutAdded buffered))
  = withChanges mgr'
      (withoutAdded (RecoveryTracker.changes (tracker mgr'))).
Proof.
  cbv zeta. unfold ApplyTrackerChangesTask.performTask at 1.
  cbn [withChanges tracker set_tracker RecoveryTracker.changes].
  by apply drain_withoutAdded.
Qed.

(** ** Which operation writes which part of the state *)

Local Ltac unchanged :=
  let H := fresh in intros H; exfalso; apply H; (done || by cbn).

Local Ltac writers :=
  split; [|split; [|split; [|split; [|split]]]];
  try unchanged; try done.

(** X8: every part of the manager's state has few writers. Only a
    successful [recoveryFinished] changes the server list; only
    [startMasterRecovery] and a successful [RecoveryMasterFinishedTask]
    change the Tablet Map; only the admission task and
    [EnqueueMasterRecoveryTask] change the waiting queue; only
    [destroyAndFreeRecovery] and the admission task change the active set;
    and no operation changes [doNotStartRecoveries] or
    [maxActiveRecoveries]. *)
Theorem every_field_has_its_writers
    (op : Operation) (mgr mgr' : MasterRecoveryManager) :
  stateAfter (exec op mgr) = Some mgr' →
  (serverList mgr' ≠ serverList mgr →
   ∃ recovery, op = OpRecoveryFinished recovery true) ∧
  (tabletMap mgr' ≠ tabletMap mgr →
   (∃ crashed, op = OpStartMasterRecovery crashed) ∨
   (op = OpPerformTask ∧
    ∃ recoveryId recoveryMasterId recoveredTablets rest,
      taskQueue mgr =
        RecoveryMasterFinishedTask recoveryId recoveryMasterId
          recoveredTablets true :: rest)) ∧
  (waitingRecoveries mgr' ≠ waitingRecoveries mgr →
   op = OpPerformTask ∧
   ∃ task rest,
     taskQueue mgr = task :: rest ∧
     (task = MaybeStartRecoveryTask ∨
      ∃ recovery minOpen,
        task = EnqueueMasterRecoveryTask recovery minOpen)) ∧
  (activeRecoveries mgr' ≠ activeRecoveries mgr →
   (∃ recovery, op = OpDestroyAndFreeRecovery recovery) ∨
   (op = OpPerformTask ∧ admissionIsNext mgr)) ∧
  doNotStartRecoveries mgr' = doNotStartRecoveries mgr ∧
  maxActiveRecoveries mgr' = maxActiveRecoveries mgr.
Proof.
  intros Hrun. destruct op; cbn in Hrun.
  - unfold startMasterRecovery, restartMasterRecovery in Hrun.
    cbn in Hrun.
    repeat case_match; simplify_eq/=; writers; eauto.
  - simplify_eq. writers.
  - simplify_eq. writers.
  - destruct (taskQueue mgr) as [|task rest] eqn:Hq; cbn in Hrun.
    { simplify_eq. writers. }
    destruct task; cbn in Hrun; simplify_eq.
    + pose proof (drain_frame
        (RecoveryTracker.changes (tracker (set_taskQueue mgr rest)))
        (set_taskQueue mgr rest)) as (? & ? & ? & ? & ? & Hq' & ? & ?).
      unfold ApplyTrackerChangesTask.performTask. writers.
    + destruct (performTask_fields (set_taskQueue mgr rest))
        as (_ & _ & _ & Hm & Hs & Ht & _ & Hd & _).
      writers.
      * intros _. split; [done|].
        exists MaybeStartRecoveryTask, rest. eauto.
      * intros _. right. split; [done|]. by exists rest.
    + writers. intros _. split; [done|].
      eexists _, rest. eauto.
    + unfold RecoveryMasterFinishedTask.performTask in Hrun.
      repeat case_match; simplify_eq/=.
      * match goal with
        | H : RecoveryMasterFinishedTask.updateTablets _ _ = Some _ |- _ =>
            destruct (updateTablets_frame _ _ _ H)
              as (? & Hw & Ha & Hm & Hq' & ? & ? & Hn)
        end.
        writers. intros _. right. split; [done|]. eauto 10.
      * writers.
      * writers.
    + writers.
  - simplify_eq. unfold recoveryFinished.
    destruct wasCompletelySuccessful; writers. eauto.
  - simplify_eq. writers. eauto.
  - simplify_eq. unfold Recovery_schedule. case_decide; writers.
  - simplify_eq. writers.
Qed.

(** ** From a crash to an active recovery, and back to the queue *)

(** The admission task with one recovery waiting. *)
Lemma performTask_single (r : Recovery) (mgr : MasterRecoveryManager) :
  waitingRecoveries mgr = [r] →
  let mgr' := MaybeStartRecoveryTask.performTask mgr in
  (matchesActive (activeRecoveries mgr) r ∨
   maxActiveRecoveries mgr ≤ N.of_nat (size (activeRecoveries mgr)) →
   waitingRecoveries mgr' = [r] ∧
   activeRecoveries mgr' = activeRecoveries mgr ∧
   taskQueue mgr' = taskQueue mgr) ∧
  (¬ matchesActive (activeRecoveries mgr) r →
   N.of_nat (size (activeRecoveries mgr)) < maxActiveRecoveries mgr →
   waitingRecoveries mgr' = [] ∧
   activeRecoveries mgr' =
     <[recoveryId r := r]> (activeRecoveries mgr) ∧
   taskQueue mgr' = taskQueue (Recovery_schedule r mgr)).
Proof.
  intros Hw. cbv zeta. unfold MaybeStartRecoveryTask.performTask.
  rewrite Hw, admissionLoop_cons. split.
  - intros Hblocked. destruct (_ <? _) eqn:Hroom.
    + apply N.ltb_lt in Hroom. destruct Hblocked as [Hmatch|?]; [|lia].
      apply serverAlreadyRecovering_true in Hmatch. rewrite Hmatch. cbn.
      by destruct (0 <? _).
    + cbn. rewrite Hw. by destruct (0 <? _).
  - intros Hfree Hroom. apply N.ltb_lt in Hroom. rewrite Hroom.
    apply serverAlreadyRecovering_false in Hfree. rewrite Hfree. cbn.
    unfold startStep, Recovery_schedule.
    case_decide; by destruct (0 <? _).
Qed.

(** X9: from an idle manager (no task queued, nothing waiting, room in the
    active set, no recovery for that server) the crash of a server that is
    in the server list and owns tablets leads, after the worker ran two
    tasks, to exactly one new active recovery: it has the next recovery id
    and the will and the minimum open segment id of the server's entry, it
    is scheduled, nothing is left waiting, and the crashed server's
    tablets are marked RECOVERING with their ctime unchanged. *)
Theorem crash_leads_to_an_active_recovery
    (crashed : ServerId) (server : CoordinatorServerList.Entry)
    (mgr : MasterRecoveryManager) :
  doNotStartRecoveries mgr = false →
  CoordinatorServerList.entries (serverList mgr) !! crashed = Some server →
  (∃ key tablet,
     tabletMap mgr !! key = Some tablet ∧ serverId tablet = crashed) →
  taskQueue mgr = [] →
  waitingRecoveries mgr = [] →
  N.of_nat (size (activeRecoveries mgr)) < maxActiveRecoveries mgr →
  (∀ k other, activeRecoveries mgr !! k = Some other →
              crashedServerId other ≠ crashed) →
  let recovery :=
    mkRecovery (nextRecoveryId mgr) crashed
      (CoordinatorServerList.entry_will server)
      (CoordinatorServerList.entry_minOpenSegmentId server) in
  ∃ mgr',
    run [OpStartMasterRecovery crashed; OpPerformTask; OpPerformTask] mgr
      = Some mgr' ∧
    activeRecoveries mgr' =
      <[nextRecoveryId mgr := recovery]> (activeRecoveries mgr) ∧
    waitingRecoveries mgr' = [] ∧
    taskQueue mgr' = [RecoveryTask recovery] ∧
    nextRecoveryId mgr' = nextRecoveryId mgr + 1 ∧
    ∀ key tablet,
      tabletMap mgr !! key = Some tablet → serverId tablet = crashed →
      tabletMap mgr' !! key =
        Some (mkTabletEntry crashed RECOVERING (ctime tablet)).
Proof.
  intros Hflag Hserver (key0 & tablet0 & Hkey0 & Howner0) Hq Hw Hroom Hfree
    recovery.
  pose proof (setStatusForServer_owned crashed RECOVERING (tabletMap mgr)
                key0 tablet0 Hkey0 Howner0) as Hne.
  cbn [run exec]. unfold startMasterRecovery.
  destruct (TabletMap.setStatusForServer crashed RECOVERING (tabletMap mgr))
    as [tablets tm] eqn:Hset.
  cbn in Hne. rewrite bool_decide_eq_false_2 by done.
  assert (Htm : tm = TabletMap.mark crashed RECOVERING <$> tabletMap mgr).
  { unfold TabletMap.setStatusForServer in Hset. by simplify_eq. }
  unfold restartMasterRecovery. cbn. rewrite Hserver, Hflag. cbn.
  rewrite Hq. cbn. fold recovery.
  set (m2 := set_taskQueue (EnqueueMasterRecoveryTask.performTask _ _) []).
  set (m3 := MaybeStartRecoveryTask.performTask m2).
  exists m3. split; [reflexivity|].
  destruct (performTask_single recovery m2) as [_ Hstart].
  { subst m2. cbn. by rewrite Hw. }
  destruct Hstart as (Hw3 & Ha3 & Hq3).
  - intros (k & other & Hk & Hcs). by apply (Hfree k other).
  - exact Hroom.
  - fold m3 in Hw3, Ha3, Hq3.
    split; [done|]. split; [done|]. split.
    { rewrite Hq3. unfold Recovery_schedule. cbn.
      by rewrite decide_False by by intros []%elem_of_nil. }
    split.
    { subst m3. by destruct (performTask_fields m2)
        as (_ & _ & _ & _ & _ & _ & _ & _ & ->). }
    intros key tablet Hkey Howner.
    assert (Htm3 : tabletMap m3 = tm).
    { subst m3. by destruct (performTask_fields m2)
        as (_ & _ & _ & _ & _ & -> & _). }
    rewrite Htm3, Htm, lookup_fmap, Hkey. cbn.
    unfold TabletMap.mark. rewrite decide_True by done.
    by rewrite <- Howner.
Qed.

(** X10: after an active recovery finished without complete success, the
    worker enqueues a new Recovery for the same server (next id, same will
    and minimum open segment id).  When the worker runs that task and the
    admission task it schedules before the finished Recovery is destroyed,
    the admission task cannot start the new one, because the finished one
    is still in the active set.  Once [destroyAndFreeRecovery] removed the
    finished one, the new Recovery sits on the waiting queue with an empty
    task queue: the worker has nothing to run, and the new Recovery starts
    only when something schedules another admission task, which then
    starts it at once. *)
Theorem requeued_recovery_waits_for_a_trigger
    (finished : Recovery) (mgr : MasterRecoveryManager) :
  activeRecoveries mgr !! recoveryId finished = Some finished →
  taskQueue mgr = [] →
  waitingRecoveries mgr = [] →
  let fresh :=
    mkRecovery (nextRecoveryId mgr) (crashedServerId finished)
      (will finished) (minOpenSegmentId finished) in
  ∃ mgr',
    run [OpRecoveryFinished finished false; OpPerformTask; OpPerformTask;
         OpDestroyAndFreeRecovery finished] mgr = Some mgr' ∧
    waitingRecoveries mgr' = [fresh] ∧
    taskQueue mgr' = [] ∧
    activeRecoveries mgr' =
      delete (recoveryId finished) (activeRecoveries mgr) ∧
    run [OpPerformTask] mgr' = Some mgr' ∧
    (N.of_nat (size (activeRecoveries mgr)) ≤ maxActiveRecoveries mgr →
     (∀ k other, activeRecoveries mgr !! k = Some other →
                 crashedServerId other = crashedServerId finished →
                 k = recoveryId finished) →
     let later := MaybeStartRecoveryTask.performTask mgr' in
     waitingRecoveries later = [] ∧
     activeRecoveries later =
       <[recoveryId fresh := fresh]> (activeRecoveries mgr') ∧
     taskQueue later = [RecoveryTask fresh]).
Proof.
  intros Hactive Hq Hw fresh.
  cbn [run exec stateAfter]. unfold recoveryFinished.
  cbn [EnqueueMasterRecoveryTask.new Recovery_new].
  cbn. rewrite Hq. cbn. fold fresh.
  set (m2 := set_taskQueue (EnqueueMasterRecoveryTask.performTask _ _) []).
  assert (Hw2 : waitingRecoveries m2 = [fresh]).
  { subst m2. cbn. by rewrite Hw. }
  destruct (performTask_single fresh m2 Hw2) as [Hdefer _].
  destruct Hdefer as (Hw3 & Ha3 & Hq3).
  { left. exists (recoveryId finished), finished. by split. }
  set (m3 := MaybeStartRecoveryTask.performTask m2) in *.
  set (m4 := destroyAndFreeRecovery finished m3).
  exists m4. split; [reflexivity|].
  assert (Hw4 : waitingRecoveries m4 = [fresh]) by done.
  assert (Hq4 : taskQueue m4 = []) by (subst m4; cbn; by rewrite Hq3).
  assert (Ha4 : activeRecoveries m4 =
                delete (recoveryId finished) (activeRecoveries mgr)).
  { subst m4. cbn. by rewrite Ha3. }
  assert (Hmax4 : maxActiveRecoveries m4 = maxActiveRecoveries mgr).
  { subst m4 m3. cbn.
    by destruct (performTask_fields m2) as (_ & _ & _ & -> & _). }
  clearbody m4. clear m3 Hw3 Ha3 Hq3. clearbody m2.
  do 3 (split; [done|]). split; [cbn; by rewrite Hq4|].
  intros Hcap Honly.
  destruct (performTask_single fresh m4 Hw4) as [_ Hstart].
  destruct Hstart as (Hw5 & Ha5 & Hq5).
  - rewrite Ha4.
    intros (k & other & [Hne Hk]%lookup_delete_Some & Hcs).
    apply Hne. symmetry. by eapply Honly.
  - rewrite Hmax4, Ha4, map_size_delete, Hactive.
    assert (size (activeRecoveries mgr) ≠ 0%nat).
    { intros Hz. apply map_size_empty_inv in Hz. rewrite Hz in Hactive.
      by rewrite lookup_empty in Hactive. }
    lia.
  - split; [done|]. split; [done|].
    rewrite Hq5. unfold Recovery_schedule.
    rewrite decide_False by (rewrite Hq4; by intros []%elem_of_nil).
    cbn. by rewrite Hq4.
Qed.

(** ** Recovery ids *)

(** X11: in every state the manager can reach from its construction, every
    Recovery it holds has an id of its own: an active recovery is filed
    under its own id, the waiting and the about-to-be-enqueued recoveries
    have pairwise different ids, none of which is a key of the active set
    (so starting one never overwrites an active entry), and every id in use
    is below the next id to be handed out. *)
Theorem held_recoveries_have_ids_of_their_own
    (cap : N) (servers : CoordinatorServerList.t)
    (tablets : gmap TabletKey Tablet) (mgr : MasterRecoveryManager) :
  reachable (configured cap servers tablets) mgr →
  (∀ k recovery,
     activeRecoveries mgr !! k = Some recovery → recoveryId recovery = k) ∧
  NoDup (recoveryId <$>
           waitingRecoveries mgr ++ enqueued (taskQueue mgr)) ∧
  (∀ recovery,
     recovery ∈ waitingRecoveries mgr ++ enqueued (taskQueue mgr) →
     activeRecoveries mgr !! recoveryId recovery = None) ∧
  (∀ recovery,
     recovery ∈ waitingRecoveries mgr ++ enqueued (taskQueue mgr) ∨
     (∃ k, activeRecoveries mgr !! k = Some recovery) →
     recoveryId recovery < nextRecoveryId mgr).
Proof.
  intros Hreach.
  destruct (reachable_wellFormed cap servers tablets mgr Hreach)
    as (Hdup & Hpending & Hactive).
  split; [intros k r Hk; by apply Hactive|].
  split; [exact Hdup|].
  split; [intros r Hr; by apply Hpending|].
  intros r [Hr|[k Hk]].
  - by apply Hpending.
  - destruct (Hactive k r Hk) as [-> ?]. done.
Qed.

(** ** The further properties on the concrete runs *)

Lemma mgr2_uniqueRecoveryIds : uniqueRecoveryIds mgr2.
Proof.
  split.
  - apply (bool_decide_unpack _). by vm_compute.
  - intros r _. apply lookup_empty.
Defined.

(** X1 on [mgr1]: server 8 owns no tablet. *)
Lemma startMasterRecovery_without_tablets_witness :
  (∀ key tablet,
     tabletMap mgr1 !! key = Some tablet → serverId tablet ≠ 8) ∧
  startMasterRecovery 8 mgr1 =
    Returns
      (emit (LOG NOTICE "Server %lu crashed, but it had no tablets" [8])
         mgr1).
Proof.
  assert (Hnone : ∀ key tablet,
            tabletMap mgr1 !! key = Some tablet → serverId tablet ≠ 8).
  { intros key tablet Hkey. cbn in Hkey. unfold tablets0 in Hkey.
    repeat (apply lookup_insert_Some in Hkey as [[_ <-]|[_ Hkey]];
            [done|]).
    by rewrite lookup_empty in Hkey. }
  split; [exact Hnone|].
  exact (startMasterRecovery_without_tablets 8 mgr1 Hnone).
Defined.

(** X2 on [mgrFull]: r2 waits, the one slot is taken by r1. *)
Lemma admission_without_room_is_idle_witness :
  maxActiveRecoveries mgrFull ≤ N.of_nat (size (activeRecoveries mgrFull)) ∧
  MaybeStartRecoveryTask.performTask mgrFull =
    emit (LOG NOTICE "%lu recoveries blocked waiting for other recoveries"
            [1]) mgrFull.
Proof.
  assert (Hfull : maxActiveRecoveries mgrFull
                    ≤ N.of_nat (size (activeRecoveries mgrFull))).
  { apply (bool_decide_unpack _). by vm_compute. }
  split; [exact Hfull|].
  exact (admission_without_room_is_idle mgrFull (or_intror Hfull)).
Defined.

(** X3 on [mgr0]. *)
Lemma second_admission_run_starts_nothing_witness :
  uniqueRecoveryIds mgr0 ∧
  let once := MaybeStartRecoveryTask.performTask mgr0 in
  let twice := MaybeStartRecoveryTask.performTask once in
  waitingRecoveries twice = waitingRecoveries once ∧
  activeRecoveries twice = activeRecoveries once.
Proof.
  split; [exact mgr0_uniqueRecoveryIds|].
  destruct (second_admission_run_starts_nothing mgr0 mgr0_uniqueRecoveryIds)
    as (Hw & Ha & _).
  split; [exact Hw|exact Ha].
Defined.

(** X4 on [mgr2]: of the recoveries for the servers 7 and 9 the first is
    started, the second keeps waiting. *)
Lemma admission_starts_the_first_free_witness :
  uniqueRecoveryIds mgr2 ∧
  NoDup (crashedServerId <$> waitingRecoveries mgr2) ∧
  (∀ r, r ∈ waitingRecoveries mgr2 →
        ¬ matchesActive (activeRecoveries mgr2) r) ∧
  waitingRecoveries (MaybeStartRecoveryTask.performTask mgr2) = [r3].
Proof.
  assert (Hservers : NoDup (crashedServerId <$> waitingRecoveries mgr2)).
  { apply (bool_decide_unpack _). by vm_compute. }
  assert (Hfree : ∀ r, r ∈ waitingRecoveries mgr2 →
                       ¬ matchesActive (activeRecoveries mgr2) r).
  { intros r _ (k & other & Hk & _). cbn in Hk.
    by rewrite lookup_empty in Hk. }
  split; [exact mgr2_uniqueRecoveryIds|].
  split; [exact Hservers|]. split; [exact Hfree|].
  exact (proj1 (admission_starts_the_first_free mgr2 mgr2_uniqueRecoveryIds
                  Hservers Hfree)).
Defined.

(** X5 on [mgr1]: recovery master 5 reports its two tablets twice. *)
Lemma repeated_successful_report_changes_nothing_witness :
  is_Some (activeRecoveries mgr1 !! 0) ∧
  ∃ once twice,
    RecoveryMasterFinishedTask.performTask 0 5 recovered0 true mgr1 =
      Returns once ∧
    RecoveryMasterFinishedTask.performTask 0 5 recovered0 true once =
      Returns twice ∧
    tabletMap twice = tabletMap once.
Proof.
  assert (Hactive : is_Some (activeRecoveries mgr1 !! 0)) by by exists r1.
  split; [exact Hactive|].
  destruct (RecoveryMasterFinishedTask.performTask 0 5 recovered0 true mgr1)
    as [once| |] eqn:Hrun; [|by vm_compute in Hrun..].
  destruct (repeated_successful_report_changes_nothing 0 5 recovered0 mgr1
              once Hactive Hrun) as (twice & Hagain & Hsame).
  exists once, twice. split; [reflexivity|]. split; [exact Hagain|exact Hsame].
Defined.

(** X8 on [mgr1]: destroying r1 leaves the server list alone. *)
Lemma every_field_has_its_writers_witness :
  stateAfter (exec (OpDestroyAndFreeRecovery r1) mgr1) =
    Some (destroyAndFreeRecovery r1 mgr1) ∧
  maxActiveRecoveries (destroyAndFreeRecovery r1 mgr1) =
    maxActiveRecoveries mgr1 ∧
  (tabletMap (destroyAndFreeRecovery r1 mgr1) ≠ tabletMap mgr1 →
   (∃ crashed, OpDestroyAndFreeRecovery r1 = OpStartMasterRecovery crashed) ∨
   (OpDestroyAndFreeRecovery r1 = OpPerformTask ∧
    ∃ recoveryId recoveryMasterId recoveredTablets rest,
      taskQueue mgr1 =
        RecoveryMasterFinishedTask recoveryId recoveryMasterId
          recoveredTablets true :: rest)).
Proof.
  split; [reflexivity|].
  destruct (every_field_has_its_writers (OpDestroyAndFreeRecovery r1) mgr1
              (destroyAndFreeRecovery r1 mgr1) eq_refl)
    as (_ & Htm & _ & _ & _ & Hmax).
  split; [exact Hmax|exact Htm].
Defined.

(** X9 on the freshly constructed manager: server 7 crashes. *)
Lemma crash_leads_to_an_active_recovery_witness :
  let mgr := configured 2 servers0 tablets0 in
  doNotStartRecoveries mgr = false ∧
  CoordinatorServerList.entries (serverList mgr) !! 7 =
    Some (CoordinatorServerList.mkEntry [] 3) ∧
  (∃ key tablet, tabletMap mgr !! key = Some tablet ∧ serverId tablet = 7) ∧
  taskQueue mgr = [] ∧
  waitingRecoveries mgr = [] ∧
  N.of_nat (size (activeRecoveries mgr)) < maxActiveRecoveries mgr ∧
  (∀ k other, activeRecoveries mgr !! k = Some other →
              crashedServerId other ≠ 7) ∧
  ∃ mgr',
    run [OpStartMasterRecovery 7; OpPerformTask; OpPerformTask] mgr
      = Some mgr' ∧
    activeRecoveries mgr' = <[0 := mkRecovery 0 7 [] 3]> ∅ ∧
    taskQueue mgr' = [RecoveryTask (mkRecovery 0 7 [] 3)].
Proof.
  cbv zeta.
  assert (Howned : ∃ key tablet,
            tabletMap (configured 2 servers0 tablets0) !! key = Some tablet ∧
            serverId tablet = 7).
  { exists (1, 0, 10), (mkTabletEntry 7 NORMAL (0, 0)). by split. }
  assert (Hroom : N.of_nat (size (activeRecoveries
                                    (configured 2 servers0 tablets0)))
                  < maxActiveRecoveries (configured 2 servers0 tablets0)).
  { apply (bool_decide_unpack _). by vm_compute. }
  assert (Hnone : ∀ k other,
            activeRecoveries (configured 2 servers0 tablets0) !! k =
              Some other → crashedServerId other ≠ 7).
  { intros k other Hk. cbn in Hk. by rewrite lookup_empty in Hk. }
  do 2 (split; [reflexivity|]). split; [exact Howned|].
  do 2 (split; [reflexivity|]). split; [exact Hroom|].
  split; [exact Hnone|].
  destruct (crash_leads_to_an_active_recovery 7
              (CoordinatorServerList.mkEntry [] 3)
              (configured 2 servers0 tablets0)
              eq_refl eq_refl Howned eq_refl eq_refl Hroom Hnone)
    as (mgr' & Hrun & Hactive & _ & Hqueue & _).
  exists mgr'. split; [exact Hrun|]. split; [exact Hactive|exact Hqueue].
Defined.

(** X10 on [mgr3]: r1 fails; its successor with id 1 is left waiting. *)
Lemma requeued_recovery_waits_for_a_trigger_witness :
  activeRecoveries mgr3 !! recoveryId r1 = Some r1 ∧
  taskQueue mgr3 = [] ∧
  waitingRecoveries mgr3 = [] ∧
  ∃ mgr',
    run [OpRecoveryFinished r1 false; OpPerformTask; OpPerformTask;
         OpDestroyAndFreeRecovery r1] mgr3 = Some mgr' ∧
    waitingRecoveries mgr' = [mkRecovery 1 7 [] 3] ∧
    taskQueue mgr' = [] ∧
    activeRecoveries mgr' = delete 0 (<[0 := r1]> ∅).
Proof.
  do 3 (split; [reflexivity|]).
  destruct (requeued_recovery_waits_for_a_trigger r1 mgr3 eq_refl eq_refl
              eq_refl) as (mgr' & Hrun & Hw & Hq & Ha & _).
  exists mgr'. split; [exact Hrun|]. split; [exact Hw|].
  split; [exact Hq|exact Ha].
Defined.

(** X11 on [scenario]. *)
Lemma held_recoveries_have_ids_of_their_own_witness :
  reachable (configured 2 servers0 tablets0) scenario ∧
  ∀ k recovery,
    activeRecoveries scenario !! k = Some recovery → recoveryId recovery = k.
Proof.
  split; [exact scenario_reachable|].
  exact (proj1 (held_recoveries_have_ids_of_their_own 2 servers0 tablets0
                  scenario scenario_reachable)).
Defined.

(** * Properties of the test runner *)

Section QuietPrinter.
Import TestRunner.

Lemma deliverAll_cons call calls p :
  deliverAll (call :: calls) p = deliverAll calls (deliver call p).
Proof. done. Qed.

Lemma deliverAll_app calls1 calls2 p :
  deliverAll (calls1 ++ calls2) p = deliverAll calls2 (deliverAll calls1 p).
Proof. apply foldl_app. Qed.

Local Ltac solve_elem_of :=
  let c := fresh "c" in
  intros c; unfold pending; cbn;
  rewrite ?elem_of_cons, ?elem_of_nil; tauto.

(** What one call does to the default printer and to the pending headers. *)
Lemma deliver_spec call p :
  ∃ forwarded,
    prettyPrinter (deliver call p) = prettyPrinter p ++ forwarded ∧
    omap partResultOf forwarded = failedParts (omap partResultOf [call]) ∧
    filter isProgramLevel forwarded = filter isProgramLevel [call] ∧
    Forall (λ call, isEndOrEnvironment call = false) forwarded ∧
    (∀ c, c ∈ forwarded ++ pending (deliver call p) →
          c ∈ call :: pending p).
Proof.
  destruct p as [out tc ti].
  assert (Hnone : ∀ q : QuietUnitTestResultPrinter,
            prettyPrinter q = out →
            (∀ c, c ∈ pending q →
                  c ∈ call :: pending (mkPrinter out tc ti)) →
            failedParts (omap partResultOf [call]) = [] →
            filter isProgramLevel [call] = [] →
            ∃ forwarded,
              prettyPrinter q = out ++ forwarded ∧
              omap partResultOf forwarded =
                failedParts (omap partResultOf [call]) ∧
              filter isProgramLevel forwarded =
                filter isProgramLevel [call] ∧
              Forall (λ call, isEndOrEnvironment call = false) forwarded ∧
              (∀ c, c ∈ forwarded ++ pending q →
                    c ∈ call :: pending (mkPrinter out tc ti))).
  { intros q Hq Hpend -> ->. exists []. rewrite app_nil_r.
    split; [done|]. split; [done|]. split; [done|]. split; [done|].
    exact Hpend. }
  assert (Hone : isProgramLevel call = true →
            ∃ forwarded,
              prettyPrinter (forward call (mkPrinter out tc ti)) =
                out ++ forwarded ∧
              omap partResultOf forwarded =
                failedParts (omap partResultOf [call]) ∧
              filter isProgramLevel forwarded =
                filter isProgramLevel [call] ∧
              Forall (λ call, isEndOrEnvironment call = false) forwarded ∧
              (∀ c, c ∈ forwarded
                          ++ pending (forward call (mkPrinter out tc ti)) →
                    c ∈ call :: pending (mkPrinter out tc ti))).
  { intros Hlevel. exists [call].
    split; [done|]. split; [by destruct call|]. split; [done|].
    split; [constructor; [by destruct call|done]|].
    intros c [->%list_elem_of_singleton|Hc]%elem_of_app; [left|by right]. }
  destruct call; cbn [deliver prettyPrinter];
    try (by apply Hone);
    try (apply Hnone; [done| |done|done]; destruct tc, ti; solve_elem_of).
  clear Hnone Hone.
  unfold OnTestPartResult. cbn [omap partResultOf].
  unfold failedParts. rewrite filter_cons, filter_nil.
  case_decide as Hfail.
  - destruct tc as [tc|], ti as [ti|]; cbn; rewrite <- ?app_assoc; cbn;
      eexists; (split; [reflexivity|]); cbn;
      (split; [by rewrite decide_True by done|]); (split; [reflexivity|]);
      (split; [by repeat constructor|]); solve_elem_of.
  - exists []. rewrite app_nil_r.
    split; [done|].
    split; [cbn; by rewrite decide_False by (by intros ?)|].
    split; [done|]. split; [done|].
    destruct tc, ti; solve_elem_of.
Qed.

Lemma deliverAll_spec events : ∀ p,
  ∃ forwarded,
    prettyPrinter (deliverAll events p) = prettyPrinter p ++ forwarded ∧
    omap partResultOf forwarded = failedParts (omap partResultOf events) ∧
    filter isProgramLevel forwarded = filter isProgramLevel events ∧
    Forall (λ call, isEndOrEnvironment call = false) forwarded ∧
    (∀ c, c ∈ forwarded ++ pending (deliverAll events p) →
          c ∈ events ++ pending p).
Proof.
  induction events as [|call events IH]; intros p.
  { exists []. rewrite app_nil_r. by repeat split. }
  rewrite deliverAll_cons.
  destruct (deliver_spec call p) as (out1 & Hp1 & Hr1 & Hl1 & He1 & Hin1).
  destruct (IH (deliver call p)) as (out2 & Hp2 & Hr2 & Hl2 & He2 & Hin2).
  exists (out1 ++ out2). split; [by rewrite Hp2, Hp1, app_assoc|].
  split.
  { rewrite omap_app, Hr1, Hr2. unfold failedParts.
    change (call :: events) with ([call] ++ events).
    by rewrite omap_app, filter_app. }
  split.
  { rewrite filter_app, Hl1, Hl2.
    change (call :: events) with ([call] ++ events).
    by rewrite filter_app. }
  split; [by apply Forall_app|].
  intros c Hc. rewrite <- app_assoc in Hc.
  assert (Hstep : c ∈ out1 ∨ c ∈ pending (deliver call p) →
                  c ∈ (call :: events) ++ pending p).
  { intros Hc'. cbn. rewrite elem_of_cons, elem_of_app.
    assert (c ∈ call :: pending p) as [->|?]%elem_of_cons; [|by left|auto].
    apply Hin1, elem_of_app. done. }
  apply elem_of_app in Hc as [Hc|Hc]; [by apply Hstep; left|].
  apply Hin2, elem_of_app in Hc as [Hc|Hc].
  - cbn. rewrite elem_of_cons, elem_of_app. auto.
  - by apply Hstep; right.
Qed.

(** X12: whatever calls gtest makes, the quiet printer passes on to the
    default printer exactly the part results that are not successes, in
    their order, and exactly the program and iteration calls, in their
    order; it never passes on the end of a test or of a test case nor an
    environment call; and, starting from a new printer, it passes on no
    call that it was not given. *)
Theorem quiet_printer_forwards_the_failures
    (events : list ListenerCall) (printed : list ListenerCall) :
  let p := deliverAll events (QuietUnitTestResultPrinter_new printed) in
  ∃ forwarded,
    prettyPrinter p = printed ++ forwarded ∧
    omap partResultOf forwarded = failedParts (omap partResultOf events) ∧
    filter isProgramLevel forwarded = filter isProgramLevel events ∧
    Forall (λ call, isEndOrEnvironment call = false) forwarded ∧
    (∀ call, call ∈ forwarded → call ∈ events).
Proof.
  cbv zeta.
  destruct (deliverAll_spec events (QuietUnitTestResultPrinter_new printed))
    as (forwarded & Hp & Hr & Hl & He & Hin).
  exists forwarded. repeat split; try done.
  intros call Hcall.
  assert (call ∈ events ++ pending (QuietUnitTestResultPrinter_new printed))
    as Hc by (apply Hin, elem_of_app; by left).
  cbn in Hc. by rewrite app_nil_r in Hc.
Qed.

Lemma deliver_success call p :
  failedParts (omap partResultOf [call]) = [] →
  prettyPrinter (deliver call p) =
    prettyPrinter p ++ filter isProgramLevel [call].
Proof.
  destruct p as [out tc ti].
  destruct call; cbn; rewrite ?app_nil_r; try done.
  unfold OnTestPartResult.
  case_decide as Hfail; [by intros ?|]. done.
Qed.

(** X13: when no part result is a failure, the quiet printer passes on the
    program and iteration calls and nothing else: no test case header, no
    test header, no result. *)
Theorem quiet_printer_is_silent_on_success
    (events : list ListenerCall) (p : QuietUnitTestResultPrinter) :
  failedParts (omap partResultOf events) = [] →
  prettyPrinter (deliverAll events p) =
    prettyPrinter p ++ filter isProgramLevel events.
Proof.
  revert p. induction events as [|call events IH]; intros p Hok.
  { by rewrite app_nil_r. }
  rewrite deliverAll_cons.
  assert (failedParts (omap partResultOf [call]) = [] ∧
          failedParts (omap partResultOf events) = []) as [Hcall Hrest].
  { change (call :: events) with ([call] ++ events) in Hok.
    unfold failedParts in *. rewrite omap_app, filter_app in Hok.
    by apply app_eq_nil in Hok. }
  rewrite IH by done. rewrite deliver_success by done.
  change (call :: events) with ([call] ++ events).
  by rewrite filter_app, app_assoc.
Qed.

Local Ltac printer_simpl :=
  unfold forward, set_currentTestInfo, set_currentTestCase, OnTestStart,
    OnTestEnd, OnTestCaseStart, OnTestCaseEnd, pending;
  cbn; rewrite <- ?app_assoc; cbn.

(** The results of one test, delivered to a printer. *)
Lemma deliverAll_parts parts : ∀ p,
  deliverAll (Call_OnTestPartResult <$> parts) p =
    match failedParts parts with
    | [] => p
    | failed =>
        mkPrinter
          (prettyPrinter p ++ pending p ++ (Call_OnTestPartResult <$> failed))
          None None
    end.
Proof.
  induction parts as [|part parts IH]; intros p; [done|].
  rewrite fmap_cons, deliverAll_cons, IH. clear IH.
  unfold failedParts. rewrite filter_cons. cbn [deliver].
  unfold OnTestPartResult. fold (failedParts parts).
  destruct p as [out tc ti].
  case_decide as Hfail; [|done].
  destruct tc as [tc|], ti as [ti|]; cbn;
    destruct (failedParts parts); printer_simpl; done.
Qed.

Lemma deliverAll_test test p :
  deliverAll (eventsOfTest test) p =
    match printedOfTest test with
    | [] => set_currentTestInfo p None
    | printed =>
        mkPrinter
          (prettyPrinter p
             ++ option_list (Call_OnTestCaseStart <$> currentTestCase p)
             ++ printed)
          None None
    end.
Proof.
  unfold eventsOfTest, printedOfTest.
  rewrite deliverAll_cons, deliverAll_app, deliverAll_parts.
  destruct p as [out tc ti]. cbn.
  destruct (failedParts (run_parts test)); [done|].
  by printer_simpl.
Qed.

Lemma deliverAll_tests tests : ∀ p,
  deliverAll (tests ≫= eventsOfTest) p =
    match tests ≫= printedOfTest with
    | [] =>
        match tests with
        | [] => p
        | _ => set_currentTestInfo p None
        end
    | printed =>
        mkPrinter
          (prettyPrinter p
             ++ option_list (Call_OnTestCaseStart <$> currentTestCase p)
             ++ printed)
          None None
    end.
Proof.
  induction tests as [|test tests IH]; intros p; [done|].
  rewrite !bind_cons, deliverAll_app, deliverAll_test, IH. clear IH.
  destruct p as [out tc ti].
  destruct (printedOfTest test) as [|c1 printed1]; cbn.
  - destruct (tests ≫= printedOfTest); [by destruct tests|done].
  - destruct (tests ≫= printedOfTest) as [|c2 printed2]; printer_simpl.
    + rewrite app_nil_r. by destruct tests.
    + done.
Qed.

Lemma deliverAll_case test_case p :
  prettyPrinter (deliverAll (eventsOfCase test_case) p) =
    prettyPrinter p ++ printedOfCase test_case.
Proof.
  unfold eventsOfCase, printedOfCase.
  rewrite deliverAll_cons, deliverAll_app, deliverAll_tests.
  destruct p as [out tc ti]. cbn.
  destruct (run_tests test_case ≫= printedOfTest); printer_simpl.
  - rewrite app_nil_r. by destruct (run_tests test_case).
  - done.
Qed.

(** X14: when gtest runs test cases one after the other, each as its start,
    its tests (each as its start, its part results and its end) and its
    end, the default printer receives, per test case with a failure, the
    test case header once, and under it, per test with a failure, the test
    header once followed by the failures of that test; of test cases and
    tests without a failure it receives nothing. *)
Theorem quiet_printer_prints_failed_tests_under_their_headers
    (cases : list TestCaseRun) (p : QuietUnitTestResultPrinter) :
  prettyPrinter (deliverAll (cases ≫= eventsOfCase) p) =
    prettyPrinter p ++ (cases ≫= printedOfCase).
Proof.
  revert p. induction cases as [|test_case cases IH]; intros p.
  { by rewrite app_nil_r. }
  rewrite !bind_cons, deliverAll_app, IH, deliverAll_case.
  by rewrite app_assoc.
Qed.

End QuietPrinter.

Section CommandLine.
Import TestRunner.
Import Stdlib.Strings.Ascii.
Local Open Scope Z_scope.

Lemma cstring_app (a b : list ascii) :
  NUL ∉ a → cstring (a ++ b) = a ++ cstring b.
Proof.
  induction a as [|c a IH]; intros Ha; [done|]. cbn.
  apply not_elem_of_cons in Ha as [Hc Ha].
  rewrite decide_False by done. by rewrite IH.
Qed.

Lemma cstring_no_NUL (bytes : list ascii) : NUL ∉ cstring bytes.
Proof.
  induction bytes as [|c bytes IH]; cbn; [by intros ?%elem_of_nil|].
  case_decide; [by intros ?%elem_of_nil|].
  by apply not_elem_of_cons.
Qed.

Lemma cstring_NULs (k : nat) (bytes : list ascii) :
  cstring (replicate k NUL ++ NUL :: bytes) = [].
Proof. by destruct k. Qed.

(** The buffer after [strncpy(testName, optarg, 256); testName[255] = 0]. *)
Lemma testName_set (buffer optarg : list ascii) :
  length buffer = 256%nat →
  let buffer' := <[255%nat := NUL]> (strncpy buffer optarg 256) in
  length buffer' = 256%nat ∧
  buffer' !! 255%nat = Some NUL ∧
  cstring buffer' = take 255 (cstring optarg).
Proof.
  intros Hlen. cbv zeta. unfold strncpy.
  rewrite (drop_ge buffer) by lia. rewrite app_nil_r.
  set (bytes := take 256 (cstring optarg ++ replicate 256 NUL)).
  assert (Hbytes : length bytes = 256%nat).
  { unfold bytes. rewrite length_take, length_app, length_replicate. lia. }
  split; [by rewrite length_insert|].
  split; [apply list_lookup_insert_eq; lia|].
  rewrite insert_take_drop by lia.
  rewrite (drop_ge bytes) by lia.
  unfold bytes. rewrite take_take, take_app, take_replicate.
  rewrite <- app_assoc, cstring_app.
  - by rewrite cstring_NULs, app_nil_r.
  - intros Hin. apply (cstring_no_NUL optarg).
    eapply elem_of_sublist; [exact Hin|apply sublist_take].
Qed.

Lemma handled_cons_testNames (c : Z) (optarg : list ascii)
    (options : list (Z * list ascii)) :
  0 ≤ c →
  handled ((c, optarg) :: options) = (c, optarg) :: handled options.
Proof. intros Hc. cbn. by rewrite decide_True. Qed.

Lemma given_cons (c c' : Z) (optarg : list ascii)
    (options : list (Z * list ascii)) :
  given c ((c', optarg) :: options) = bool_decide (c = c') || given c options.
Proof.
  unfold given. cbn. rewrite <- bool_decide_or.
  apply bool_decide_ext. by rewrite elem_of_cons.
Qed.

(** What [cmdline] leaves in the globals when it returns. *)
Lemma cmdline_spec (argv0 : string) (options : list (Z * list ascii)) :
  ∀ g g' : Globals,
  length (testName g) = 256%nat →
  cmdline options argv0 g = Continues g' →
  length (testName g') = 256%nat ∧
  cstring (testName g') =
    match last (testNames (handled options)) with
    | Some optarg => take 255 (cstring optarg)
    | None => cstring (testName g)
    end ∧
  progress g' = progress g || given 112 (handled options) ∧
  googleOnly g' = googleOnly g || given 103 (handled options) ∧
  Forall (λ option, option.1 ∈ [116; 112; 103]) (handled options).
Proof.
  induction options as [|[c optarg] options IH]; intros g g' Hlen Hrun.
  { cbn in *. simplify_eq. by rewrite !orb_false_r. }
  cbn in Hrun. destruct (decide (0 ≤ c)) as [Hc|Hc].
  2: { cbn. rewrite decide_False by done. simplify_eq.
       by rewrite !orb_false_r. }
  rewrite handled_cons_testNames by done.
  rewrite !given_cons. unfold testNames. cbn [omap list_omap fst snd].
  fold (testNames (handled options)).
  destruct (decide (c = 116)) as [->|Ht].
  - destruct (testName_set (testName g) optarg Hlen) as (Hlen' & _ & Hname).
    destruct (IH (mkGlobals _ _ _) g' Hlen' Hrun)
      as (Hl & Hn & Hp & Hg & Hknown).
    cbn in Hn, Hp, Hg. split; [done|]. split.
    { rewrite last_cons, Hn.
      destruct (last (testNames (handled options))); [done|].
      exact Hname. }
    split; [done|]. split; [done|].
    constructor; [|done]. cbn. left.
  - destruct (decide (c = 112)) as [->|Hp'].
    + destruct (IH (mkGlobals _ _ _) g' Hlen Hrun)
        as (Hl & Hn & Hp & Hg & Hknown).
      cbn in Hn, Hp, Hg. split; [done|]. split; [done|].
      split; [by rewrite Hp, orb_true_r|]. split; [done|].
      constructor; [|done]. cbn. right. left.
    + destruct (decide (c = 103)) as [->|Hg']; [|done].
      destruct (IH (mkGlobals _ _ _) g' Hlen Hrun)
        as (Hl & Hn & Hp & Hg & Hknown).
      cbn in Hn, Hp, Hg. split; [done|]. split; [done|].
      split; [done|]. split; [by rewrite Hg, orb_true_r|].
      constructor; [|done]. cbn. right. right. left.
Qed.

(** X15: when [cmdline] returns, [testName] is still a buffer of 256 bytes,
    and the string in it is the argument of the last [-t] option cut to
    255 characters (the string it held before, if there is no [-t]);
    [progress] and [googleOnly] are set if [-p] and [-g] were given, and
    never reset; and every option that was handled is one of the three. *)
Theorem cmdline_keeps_the_last_test_name
    (options : list (Z * list ascii)) (argv0 : string) (g g' : Globals) :
  length (testName g) = 256%nat →
  cmdline options argv0 g = Continues g' →
  length (testName g') = 256%nat ∧
  cstring (testName g') =
    match last (testNames (handled options)) with
    | Some optarg => take 255 (cstring optarg)
    | None => cstring (testName g)
    end ∧
  progress g' = progress g || given 112 (handled options) ∧
  googleOnly g' = googleOnly g || given 103 (handled options) ∧
  Forall (λ option, option.1 ∈ [116; 112; 103]) (handled options).
Proof. apply cmdline_spec. Qed.

(** The name of the test the options ask for. *)
Lemma main_unfold (options : list (Z * list ascii)) (argv0 : string)
    (Run : bool → Z) (run : list ascii → bool → bool)
    (calls : list SuiteCall) (r : Z) :
  main options argv0 Run run = Continues (calls, r) →
  let opts := handled options in
  let name :=
    default [] (take 255 ∘ cstring <$> last (testNames opts)) in
  let gtest := given 103 opts || bool_decide (name = []) in
  let quiet := negb (given 112 opts) in
  calls =
    (if gtest then [Call_UnitTest_Run quiet] else [])
    ++ (if given 103 opts then []
        else [Call_runner_run name (given 112 opts)]) ∧
  r = wrap32
        ((if gtest then wrap32 (Run quiet) else 0)
         + (if given 103 opts then 0
            else if run name (given 112 opts) then 0 else 1)) ∧
  Forall (λ option, option.1 ∈ [116; 112; 103]) opts.
Proof.
  unfold main. intros Hmain.
  set (g0 := mkGlobals _ _ _) in Hmain.
  destruct (cmdline options argv0 g0) as [g|] eqn:Hcmd; [|done].
  destruct (cmdline_spec argv0 options g0 g) as (_ & Hn & Hp & Hg & Hknown);
    [done|done|].
  cbn in Hp, Hg. cbv zeta.
  assert (Hname : cstring (testName g) =
            default [] (take 255 ∘ cstring
                          <$> last (testNames (handled options)))).
  { rewrite Hn. by destruct (last (testNames (handled options))). }
  unfold strcmp_is_0 in Hmain. cbn [cstring] in Hmain.
  rewrite Hname, Hp, Hg in Hmain. clear Hname Hn Hp Hg Hcmd. clear g0.
  assert (Hwrap : ∀ z, wrap32 (wrap32 z + 0) = wrap32 (0 + z)).
  { intros z. rewrite Z.add_0_r, Z.add_0_l. unfold wrap32.
    set (m := (z + 2 ^ 31) `mod` 2 ^ 32).
    assert (0 ≤ m < 2 ^ 32) by (apply Z.mod_pos_bound; lia).
    rewrite Z.sub_add. rewrite (Z.mod_small m); lia. }
  destruct (given 103 (handled options)); cbn in *.
  { injection Hmain as <- <-. by rewrite Hwrap. }
  destruct (decide (default [] (take 255 ∘ cstring
                                  <$> last (testNames (handled options)))
                    = [])) as [Hempty|Hempty].
  - rewrite bool_decide_eq_true_2 in Hmain by done.
    rewrite bool_decide_eq_true_2 by done.
    cbn in *. injection Hmain as <- <-. by rewrite Z.add_0_l.
  - rewrite bool_decide_eq_false_2 in Hmain by done.
    rewrite bool_decide_eq_false_2 by done.
    cbn in *. by injection Hmain as <- <-.
Qed.

(** X16: which suites [main] runs is decided by the options alone.  gtest
    runs if [-g] is given or the test name is empty (no [-t], or an empty
    one), with the quiet printer unless [-p] is given; cppunit runs unless
    [-g] is given, on the test name cut to 255 characters; so a test name
    together with [-g] is ignored, and a test name without [-g] switches
    gtest off.  At least one suite runs. *)
Theorem main_runs_the_selected_suites
    (options : list (Z * list ascii)) (argv0 : string)
    (Run : bool → Z) (run : list ascii → bool → bool)
    (calls : list SuiteCall) (r : Z) :
  main options argv0 Run run = Continues (calls, r) →
  let opts := handled options in
  let name :=
    default [] (take 255 ∘ cstring <$> last (testNames opts)) in
  calls =
    (if given 103 opts || bool_decide (name = [])
     then [Call_UnitTest_Run (negb (given 112 opts))] else [])
    ++ (if given 103 opts then []
        else [Call_runner_run name (given 112 opts)]) ∧
  calls ≠ [].
Proof.
  intros Hmain.
  destruct (main_unfold options argv0 Run run calls r Hmain)
    as (Hcalls & _). cbv zeta in *.
  split; [exact Hcalls|]. rewrite Hcalls.
  by destruct (given 103 (handled options)), (bool_decide _).
Qed.

(** X17: when gtest's [Run] gives 0 or 1, the exit status of [main] is the
    number of suites that failed among those it ran: it is 0 exactly when
    every suite that was run passed, and it is never above 2. *)
Theorem main_exit_status
    (options : list (Z * list ascii)) (argv0 : string)
    (Run : bool → Z) (run : list ascii → bool → bool)
    (calls : list SuiteCall) (r : Z) :
  (∀ quiet, Run quiet = 0 ∨ Run quiet = 1) →
  main options argv0 Run run = Continues (calls, r) →
  (r = 0 ↔ Forall (passed Run run) calls) ∧
  r = Z.of_nat (length (filter (λ call, ¬ passed Run run call) calls)) ∧
  0 ≤ r ≤ 2.
Proof.
  intros HRun Hmain.
  destruct (main_unfold options argv0 Run run calls r Hmain)
    as (Hcalls & Hr & _). cbv zeta in *.
  set (gtest := given 103 (handled options) || bool_decide (_ = [])) in *.
  set (quiet := negb (given 112 (handled options))) in *.
  set (name := default [] _) in *.
  assert (Hcount :
    r = Z.of_nat (length (filter (λ call, ¬ passed Run run call) calls))).
  { rewrite Hr, Hcalls.
    destruct gtest, (given 103 (handled options)); cbn;
      rewrite ?filter_cons, ?filter_nil; cbn;
      destruct (HRun quiet) as [HR|HR];
      repeat case_decide; try destruct (run name _) eqn:Hrun;
      rewrite ?HR in *; cbn; try done; try lia. }
  split; [|split; [done|]].
  - rewrite Hcount. split.
    + intros Hz. apply Forall_forall. intros call Hcall.
      destruct (decide (passed Run run call)) as [|Hfail]; [done|].
      assert (call ∈ filter (λ call, ¬ passed Run run call) calls) as Hin
        by by apply list_elem_of_filter.
      destruct (filter _ calls); [by apply elem_of_nil in Hin|done].
    + intros Hall.
      destruct (filter (λ call, ¬ passed Run run call) calls)
        as [|call rest] eqn:Hf; [done|].
      assert (call ∈ filter (λ call, ¬ passed Run run call) calls)
        as [Hfail Hin]%list_elem_of_filter by (rewrite Hf; left).
      rewrite Forall_forall in Hall. destruct Hfail. by apply Hall.
  - rewrite Hcount. split; [lia|].
    assert (length (filter (λ call, ¬ passed Run run call) calls)
              ≤ length calls)%nat by apply length_filter.
    assert (length calls ≤ 2)%nat.
    { rewrite Hcalls.
      destruct gtest, (given 103 (handled options)); cbn; lia. }
    lia.
Qed.

Lemma cmdline_unknown (argv0 : string) (options : list (Z * list ascii)) :
  ∀ g : Globals,
  (∃ option, option ∈ handled options ∧ option.1 ∉ [116; 112; 103]) →
  cmdline options argv0 g = usage argv0.
Proof.
  induction options as [|[c optarg] options IH]; intros g (o & Ho & Hknown).
  { by apply elem_of_nil in Ho. }
  cbn in Ho |- *. destruct (decide (0 ≤ c)) as [Hc|Hc];
    [|by apply elem_of_nil in Ho].
  assert (Hrest : ∃ option,
            option ∈ handled options ∧ option.1 ∉ [116; 112; 103] ∨
            (c ≠ 116 ∧ c ≠ 112 ∧ c ≠ 103)).
  { exists o. apply elem_of_cons in Ho as [->|Ho]; [right|by left].
    cbn in Hknown. rewrite !not_elem_of_cons in Hknown. tauto. }
  destruct Hrest as (o' & [Hrest|(Ht & Hp & Hg)]).
  - repeat case_decide; try done; apply IH; by exists o'.
  - by rewrite !decide_False by done.
Qed.

(** X18: an option that is none of [-t], [-p] and [-g] ends the program with
    EXIT_FAILURE before any suite is run, whatever the other options are.
    The usage text it prints does not depend on the program name: the
    [%s] of the format is filled with the line about [-g], and [argv[0]]
    is a surplus argument that is never printed. *)
Theorem unknown_option_prints_usage_without_program_name
    (options : list (Z * list ascii)) (argv0 : string)
    (Run : bool → Z) (run : list ascii → bool → bool) :
  (∃ option, option ∈ handled options ∧ option.1 ∉ [116; 112; 103]) →
  main options argv0 Run run =
    Exits
      ("Usage: " +:+ TAB +:+ "-g" +:+ TAB +:+ "--google" +:+ TAB +:+
         "Run google tests only." +:+ LF +:+
       " [-p] [-t testName]" +:+ LF +:+
       TAB +:+ "-t" +:+ TAB +:+ "--test" +:+ TAB +:+
         "Run a specific test.." +:+ LF +:+
       TAB +:+ "-p" +:+ TAB +:+ "--progress" +:+ TAB +:+
         "Show test progress." +:+ LF)
      EXIT_FAILURE.
Proof.
  intros Hunknown. unfold main.
  by rewrite (cmdline_unknown argv0 options _ Hunknown).
Qed.

End CommandLine.

(** ** The properties of the test runner on concrete runs *)

Section TestRunnerRuns.
Import TestRunner.
Import Stdlib.Strings.Ascii.
Local Open Scope Z_scope.

(** X13 on [events0]: a passing test leaves the program and iteration
    calls only. *)
Lemma quiet_printer_is_silent_on_success_witness :
  failedParts (omap partResultOf events0) = [] ∧
  prettyPrinter (deliverAll events0 (QuietUnitTestResultPrinter_new [])) =
    [Call_OnTestProgramStart GetInstance;
     Call_OnTestIterationStart GetInstance 0;
     Call_OnTestIterationEnd GetInstance 0;
     Call_OnTestProgramEnd GetInstance].
Proof.
  split; [reflexivity|].
  exact (quiet_printer_is_silent_on_success events0
           (QuietUnitTestResultPrinter_new []) eq_refl).
Defined.

(** X15 on [options0]: the second test name wins, and [-p] is seen. *)
Lemma cmdline_keeps_the_last_test_name_witness :
  length (testName Globals_init) = 256%nat ∧
  ∃ g',
    cmdline options0 "test" Globals_init = Continues g' ∧
    cstring (testName g') = String.list_ascii_of_string "UtilTest" ∧
    progress g' = true ∧
    googleOnly g' = false.
Proof.
  split; [reflexivity|].
  destruct (cmdline options0 "test" Globals_init) as [g'|] eqn:Hrun;
    [|by vm_compute in Hrun].
  destruct (cmdline_keeps_the_last_test_name options0 "test" Globals_init g'
              eq_refl Hrun) as (_ & Hname & Hp & Hg & _).
  exists g'. split; [reflexivity|]. split; [exact Hname|].
  split; [exact Hp|exact Hg].
Defined.

(** X16 on [options0]: with a test name and without [-g], cppunit alone
    runs. *)
Lemma main_runs_the_selected_suites_witness :
  ∃ calls r,
    main options0 "test" (λ _, 0) (λ _ _, true) = Continues (calls, r) ∧
    calls = [Call_runner_run (String.list_ascii_of_string "UtilTest") true].
Proof.
  destruct (main options0 "test" (λ _, 0) (λ _ _, true))
    as [[calls r]|] eqn:Hmain; [|by vm_compute in Hmain].
  exists calls, r. split; [reflexivity|].
  exact (proj1 (main_runs_the_selected_suites options0 "test" (λ _, 0)
                  (λ _ _, true) calls r Hmain)).
Defined.

(** X17 without options: gtest passes and cppunit fails, the status is
    1. *)
Lemma main_exit_status_witness :
  (∀ quiet : bool, (λ _ : bool, 0) quiet = 0 ∨ (λ _ : bool, 0) quiet = 1) ∧
  ∃ calls r,
    main [] "test" (λ _, 0) (λ _ _, false) = Continues (calls, r) ∧
    r = Z.of_nat
          (length
             (filter (λ call, ¬ passed (λ _, 0) (λ _ _, false) call) calls)).
Proof.
  assert (HRun : ∀ quiet : bool,
            (λ _ : bool, 0) quiet = 0 ∨ (λ _ : bool, 0) quiet = 1)
    by (intros _; by left).
  split; [exact HRun|].
  destruct (main [] "test" (λ _, 0) (λ _ _, false))
    as [[calls r]|] eqn:Hmain; [|by vm_compute in Hmain].
  exists calls, r. split; [reflexivity|].
  exact (proj1 (proj2 (main_exit_status [] "test" (λ _, 0) (λ _ _, false)
                         calls r HRun Hmain))).
Defined.

(** X18 on [options1]. *)
Lemma unknown_option_prints_usage_without_program_name_witness :
  (∃ option, option ∈ handled options1 ∧ option.1 ∉ [116; 112; 103]) ∧
  ∃ stdout,
    main options1 "test" (λ _, 0) (λ _ _, true) = Exits stdout EXIT_FAILURE ∧
    main options1 "TestRunner" (λ _, 0) (λ _ _, true) =
      Exits stdout EXIT_FAILURE.
Proof.
  assert (Hunknown : ∃ option,
            option ∈ handled options1 ∧ option.1 ∉ [116; 112; 103]).
  { exists (63, []). split.
    - apply (bool_decide_unpack _). by vm_compute.
    - apply (bool_decide_unpack _). by vm_compute. }
  split; [exact Hunknown|].
  eexists. split.
  - exact (unknown_option_prints_usage_without_program_name options1 "test"
             (λ _, 0) (λ _ _, true) Hunknown).
  - exact (unknown_option_prints_usage_without_program_name options1
             "TestRunner" (λ _, 0) (λ _ _, true) Hunknown).
Defined.

End TestRunnerRuns.
